(** * Jobber community scraper: text normaliser, reply reconciler,
      list crawler and pipeline driver of [scrape.ts]

    The development embeds the pure text functions of the scraper
    ([normalizeWhitespace], [cleanLines], [extractAuthorFromContent]), the
    record construction of [scrapeDiscussionDetail], the dedup store of
    [collectFromCurrentPage], the reveal loop [expandAllContent] and the
    per-discussion loop of [scrapeDiscussionList]; then the callbacks that
    read replies, counters and the declared reply count from the page, the
    listing loops [tryLoadMoreAndScroll] and [while (current)],
    [getProxyConfig] and [getRandomUserAgent].

    Strings are sequences of UTF-16 code units; the embedding covers the
    code units below 256 (one [ascii] each).  Regular expressions are kept
    as syntax trees and run by a backtracking matcher that follows the
    ECMAScript matching order (greedy quantifiers, leftmost alternative
    first), so each pattern of the source appears below as one term. *)

From Stdlib Require Import Ascii String List Bool Arith NArith ZArith Lia.
Import ListNotations.
Local Open Scope list_scope.

Set Implicit Arguments.

(* ================================================================== *)
(** ** JavaScript strings *)
(* ================================================================== *)

Module JS.

Definition jsstring := list ascii.

(** String literal. *)
Definition js (s : string) : jsstring := list_ascii_of_string s.
Arguments js s%_string.

Definition code (c : ascii) : N := N_of_ascii c.

Definition in_range (lo hi : N) (c : ascii) : bool :=
  (lo <=? code c)%N && (code c <=? hi)%N.

Definition is_digit (c : ascii) : bool := in_range 48 57 c.
Definition is_upper (c : ascii) : bool := in_range 65 90 c.
Definition is_lower (c : ascii) : bool := in_range 97 122 c.
Definition is_alpha (c : ascii) : bool := is_upper c || is_lower c.

(** [\w], also the IsWordChar test of [\b]. *)
Definition is_word (c : ascii) : bool :=
  is_alpha c || is_digit c || Ascii.eqb c "_".

(** WhiteSpace and LineTerminator code units below 256: TAB, LF, VT, FF,
    CR, SP and NBSP.  This is the set of [\s] and of [trim]. *)
Definition is_space (c : ascii) : bool :=
  in_range 9 13 c || (code c =? 32)%N || (code c =? 160)%N.

(** LineTerminator below 256: what [.] refuses. *)
Definition is_line_terminator (c : ascii) : bool :=
  (code c =? 10)%N || (code c =? 13)%N.

(** Latin-1 letters with a one-unit case partner inside the range. *)
Definition is_upper_latin1 (c : ascii) : bool :=
  in_range 192 222 c && negb (code c =? 215)%N.
Definition is_lower_latin1 (c : ascii) : bool :=
  in_range 224 254 c && negb (code c =? 247)%N.

Definition lower_char (c : ascii) : ascii :=
  if is_upper c || is_upper_latin1 c
  then ascii_of_N (code c + 32) else c.

(** Canonicalize of a case-insensitive pattern (upper-casing). *)
Definition canonicalize (c : ascii) : ascii :=
  if is_lower c || is_lower_latin1 c
  then ascii_of_N (code c - 32) else c.

Definition toLowerCase (s : jsstring) : jsstring := map lower_char s.

Fixpoint eqb (a b : jsstring) : bool :=
  match a, b with
  | [], [] => true
  | x :: a', y :: b' => Ascii.eqb x y && eqb a' b'
  | _, _ => false
  end.

(** JavaScript truthiness of a string. *)
Definition truthy (s : jsstring) : bool :=
  match s with [] => false | _ => true end.

Fixpoint trimStart (s : jsstring) : jsstring :=
  match s with
  | c :: s' => if is_space c then trimStart s' else s
  | [] => []
  end.

Definition trimEnd (s : jsstring) : jsstring := rev (trimStart (rev s)).

Definition trim (s : jsstring) : jsstring := trimEnd (trimStart s).

Fixpoint startsWith (p s : jsstring) : bool :=
  match p, s with
  | [], _ => true
  | x :: p', y :: s' => Ascii.eqb x y && startsWith p' s'
  | _ :: _, [] => false
  end.

(** [s.includes(t)]. *)
Fixpoint includes (t s : jsstring) : bool :=
  startsWith t s ||
  match s with
  | [] => false
  | _ :: s' => includes t s'
  end.

(** [parts.join(sep)]. *)
Fixpoint join (sep : jsstring) (parts : list jsstring) : jsstring :=
  match parts with
  | [] => []
  | [p] => p
  | p :: rest => p ++ sep ++ join sep rest
  end.

(** [set.has(x)] of a [Set] of strings. *)
Definition has (set : list jsstring) (x : jsstring) : bool :=
  existsb (eqb x) set.

End JS.

Import JS.

(* ================================================================== *)
(** ** Regular expressions *)
(* ================================================================== *)

Module Regex.

Inductive regex : Type :=
| Empty
| Class (p : ascii -> bool)
| Seq (r1 r2 : regex)
| Alt (r1 r2 : regex)
| Rep (lo : nat) (hi : option nat) (r : regex)
| Group (i : nat) (r : regex)
| Bol
| Eol
| WordB.

(** Captures: group number and captured text, latest first. *)
Definition caps := list (nat * jsstring).

(** A position of the match: the code unit before it (for [^] and [\b]),
    the input still ahead, the captures so far. *)
Definition cont (A : Type) := option ascii -> jsstring -> caps -> option A.

Definition word_before (prev : option ascii) : bool :=
  match prev with Some c => is_word c | None => false end.

Definition word_after (s : jsstring) : bool :=
  match s with c :: _ => is_word c | [] => false end.

Definition at_boundary (prev : option ascii) (s : jsstring) : bool :=
  xorb (word_before prev) (word_after s).

(** The part of [s] consumed to reach its suffix [s']. *)
Definition consumed (s s' : jsstring) : jsstring :=
  firstn (length s - length s') s.

Definition dec_hi (hi : option nat) : option nat := option_map pred hi.

Definition hi_is_zero (hi : option nat) : bool :=
  match hi with Some 0 => true | _ => false end.

(** The quantifier loop, RepeatMatcher of ECMAScript, over the matcher
    [body] of the quantified pattern: the mandatory iterations first, then
    greedy optional iterations, each of which must consume input.  A
    mandatory iteration lowers [lo] and an optional one shortens the
    input, so [lo + length s] iterations are enough and [fuel] starts
    there. *)
Fixpoint rep_loop (A : Type)
    (body : option ascii -> jsstring -> caps -> cont A -> option A)
    (k : cont A) (fuel lo : nat) (hi : option nat) (prev : option ascii)
    (s : jsstring) (c : caps) {struct fuel} : option A :=
  if hi_is_zero hi then k prev s c else
  match fuel with
  | 0 => k prev s c
  | S fuel' =>
      match lo with
      | S lo' =>
          body prev s c
            (fun prev' s' c' => rep_loop body k fuel' lo' (dec_hi hi) prev' s' c')
      | 0 =>
          match
            body prev s c
              (fun prev' s' c' =>
                 if length s' <? length s
                 then rep_loop body k fuel' 0 (dec_hi hi) prev' s' c'
                 else None)
          with
          | Some a => Some a
          | None => k prev s c
          end
      end
  end.

(** Backtracking matcher in continuation-passing style. *)
Fixpoint run (A : Type) (r : regex) (prev : option ascii) (s : jsstring)
    (c : caps) (k : cont A) {struct r} : option A :=
  match r with
  | Empty => k prev s c
  | Class p =>
      match s with
      | x :: s' => if p x then k (Some x) s' c else None
      | [] => None
      end
  | Seq r1 r2 =>
      run r1 prev s c (fun prev' s' c' => run r2 prev' s' c' k)
  | Alt r1 r2 =>
      match run r1 prev s c k with
      | Some a => Some a
      | None => run r2 prev s c k
      end
  | Rep lo hi r0 =>
      rep_loop (fun prev' s' c' k' => run r0 prev' s' c' k') k
        (lo + length s) lo hi prev s c
  | Group i r0 =>
      run r0 prev s c
        (fun prev' s' c' => k prev' s' ((i, consumed s s') :: c'))
  | Bol => match prev with None => k prev s c | Some _ => None end
  | Eol => match s with [] => k prev s c | _ :: _ => None end
  | WordB => if at_boundary prev s then k prev s c else None
  end.

(** One match attempt at the current position: the input left after the
    match and the captures. *)
Definition exec_at (r : regex) (prev : option ascii) (s : jsstring)
  : option (jsstring * caps) :=
  run r prev s [] (fun _ s' c' => Some (s', c')).

(** Leftmost match, trying every start index from the current one to the
    end of the input included. *)
Fixpoint search (r : regex) (prev : option ascii) (s : jsstring)
  : option (jsstring * caps) :=
  match exec_at r prev s with
  | Some m => Some m
  | None =>
      match s with
      | [] => None
      | x :: s' => search r (Some x) s'
      end
  end.

(** [re.test(s)] for a pattern without the g and y flags. *)
Definition test (r : regex) (s : jsstring) : bool :=
  match search r None s with Some _ => true | None => false end.

Fixpoint capture (i : nat) (c : caps) : option jsstring :=
  match c with
  | [] => None
  | (j, v) :: c' => if Nat.eqb i j then Some v else capture i c'
  end.

(** [s.match(re)] for a pattern without the g flag, reduced to its
    captures. *)
Definition match_ (r : regex) (s : jsstring) : option caps :=
  option_map snd (search r None s).

(** [s.replace(re, rep)] for a pattern with the g flag and a replacement
    text without [$] references.  [skip] counts the code units still
    covered by the previous match.  After an empty match the scan moves
    one unit forward, as AdvanceStringIndex does. *)
Fixpoint replace_from (r : regex) (rep : jsstring) (prev : option ascii)
    (s : jsstring) (skip : nat) {struct s} : jsstring :=
  match s with
  | [] =>
      match skip with
      | 0 => match exec_at r prev [] with
             | Some _ => rep
             | None => []
             end
      | S _ => []
      end
  | x :: s' =>
      match skip with
      | S n => replace_from r rep (Some x) s' n
      | 0 =>
          match exec_at r prev s with
          | Some (rest, _) =>
              match length s - length rest with
              | 0 => rep ++ x :: replace_from r rep (Some x) s' 0
              | S n => rep ++ replace_from r rep (Some x) s' n
              end
          | None => x :: replace_from r rep (Some x) s' 0
          end
      end
  end.

Definition replaceAll (r : regex) (rep : jsstring) (s : jsstring) : jsstring :=
  replace_from r rep None s 0.

(** [s.split(re)] for a pattern without capture groups and no limit.
    [cur] is the current piece, reversed.  A separator is never looked
    for at the end of the input, and an empty match at the start of a
    piece is passed over. *)
Fixpoint split_from (r : regex) (prev : option ascii) (s : jsstring)
    (cur : jsstring) (skip : nat) {struct s} : list jsstring :=
  match s with
  | [] => [rev cur]
  | x :: s' =>
      match skip with
      | S n => split_from r (Some x) s' [] n
      | 0 =>
          match exec_at r prev s with
          | Some (rest, _) =>
              match length s - length rest with
              | 0 =>
                  match cur with
                  | [] => split_from r (Some x) s' [x] 0
                  | _ :: _ => rev cur :: split_from r (Some x) s' [x] 0
                  end
              | S n => rev cur :: split_from r (Some x) s' [] n
              end
          | None => split_from r (Some x) s' (x :: cur) 0
          end
      end
  end.

Definition split (r : regex) (s : jsstring) : list jsstring :=
  match s with
  | [] => match exec_at r None [] with Some _ => [] | None => [[]] end
  | _ :: _ => split_from r None s [] 0
  end.

(** *** Pattern syntax *)

Definition chr (c : ascii) : regex := Class (Ascii.eqb c).

(** A literal code unit under the i flag. *)
Definition chr_i (c : ascii) : regex :=
  Class (fun x => Ascii.eqb (canonicalize x) (canonicalize c)).

Fixpoint seqs (rs : list regex) : regex :=
  match rs with
  | [] => Empty
  | [r] => r
  | r :: rs' => Seq r (seqs rs')
  end.

(** A literal text, and the same under the i flag. *)
Definition lit (s : string) : regex := seqs (map chr (js s)).
Definition lit_i (s : string) : regex := seqs (map chr_i (js s)).
Arguments lit s%_string.
Arguments lit_i s%_string.

Definition digit : regex := Class is_digit.      (* \d *)
Definition space : regex := Class is_space.      (* \s *)
Definition wordc : regex := Class is_word.       (* \w *)
Definition dot : regex := Class (fun x => negb (is_line_terminator x)).

Definition star (r : regex) : regex := Rep 0 None r.
Definition plus (r : regex) : regex := Rep 1 None r.
Definition opt (r : regex) : regex := Rep 0 (Some 1) r.
Definition at_least (n : nat) (r : regex) : regex := Rep n None r.
Definition between (n m : nat) (r : regex) : regex := Rep n (Some m) r.

End Regex.

Import Regex.

(* ================================================================== *)
(** ** Text normaliser *)
(* ================================================================== *)

Module Text.

Definition TAB : ascii := "009"%char.
Definition LF : ascii := "010"%char.
Definition CR : ascii := "013"%char.

(** [/\r?\n/] *)
Definition re_newline : regex := Seq (opt (chr CR)) (chr LF).

(** [/[\r\n\t]+/g] *)
Definition re_breaks : regex :=
  plus (Class (fun x => Ascii.eqb x CR || Ascii.eqb x LF || Ascii.eqb x TAB)).

(** [/\s{2,}/g] *)
Definition re_spaces : regex := at_least 2 space.

Definition normalizeWhitespace (s : jsstring) : jsstring :=
  trim (replaceAll re_spaces (js " ") (replaceAll re_breaks (js " ") s)).

(** The [ctx] argument of [cleanLines]; an absent property is [None]. *)
Record Ctx : Type := mkCtx {
  ctx_title : option jsstring;
  ctx_author : option jsstring;
  ctx_time : option jsstring
}.

Definition forbidden : list jsstring :=
  [ js "tag"; js "like"; js "reply"; js "copy link"; js "follow";
    js "report"; js "marked as solution"; js "solved" ].

Definition roleTokens : list jsstring :=
  [ js "contributor"; js "ambassador"; js "support team" ].

(** [(most|newest|oldest)] as capture group [i]. *)
Definition re_order (i : nat) : regex :=
  Group i (Alt (lit_i "most") (Alt (lit_i "newest") (lit_i "oldest"))).

(** [/^\d{1,4}$/] *)
Definition re_stray_count : regex := seqs [Bol; between 1 4 digit; Eol].

(** [/^\d+\s+Repl/i] *)
Definition re_line_reply_count : regex :=
  seqs [Bol; plus digit; plus space; lit_i "Repl"].

(** [/Replies?\s+sorted\s+by/i] *)
Definition re_line_replies_sorted : regex :=
  seqs [lit_i "Replie"; opt (chr_i "s"); plus space; lit_i "sorted";
        plus space; lit_i "by"].

(** [/sorted\s+by\s+(most|newest|oldest)/i] *)
Definition re_line_sorted_by : regex :=
  seqs [lit_i "sorted"; plus space; lit_i "by"; plus space; re_order 1].

(** [/^(most|newest|oldest)\s+(liked|recent)/i] *)
Definition re_line_order : regex :=
  seqs [Bol; re_order 1; plus space;
        Group 2 (Alt (lit_i "liked") (lit_i "recent"))].

(** [/\bLike\b(?:\s*\d+)?/gi] *)
Definition re_like : regex :=
  seqs [WordB; lit_i "Like"; WordB; opt (Seq (star space) (plus digit))].

(** [/\bReply\b/gi] *)
Definition re_reply : regex := seqs [WordB; lit_i "Reply"; WordB].

(** [/\b\d+\s+Repl(?:y|ies)?\b/gi] *)
Definition re_inline_reply_count : regex :=
  seqs [WordB; plus digit; plus space; lit_i "Repl";
        opt (Alt (chr_i "y") (lit_i "ies")); WordB].

(** [/\bReplies?\s+sorted\s+by\s+\w+/gi] *)
Definition re_inline_replies_sorted : regex :=
  seqs [WordB; lit_i "Replie"; opt (chr_i "s"); plus space; lit_i "sorted";
        plus space; lit_i "by"; plus space; plus wordc].

(** [/\bsorted\s+by\s+(most|newest|oldest)\s+\w*/gi] *)
Definition re_inline_sorted_by : regex :=
  seqs [WordB; lit_i "sorted"; plus space; lit_i "by"; plus space;
        re_order 1; plus space; star wordc].

(** [ctx.x && line === ctx.x] *)
Definition echoes (field : option jsstring) (line : jsstring) : bool :=
  match field with
  | Some v => truthy v && JS.eqb line v
  | None => false
  end.

(** The body of the [for (const line of lines)] loop: [true] when the
    line reaches [cleaned.push(line)], [false] when a [continue] is
    taken. *)
Definition keepLine (ctx : Ctx) (line : jsstring) : bool :=
  let lower := toLowerCase line in
  if echoes (ctx_title ctx) line then false
  else if echoes (ctx_author ctx) line then false
  else if echoes (ctx_time ctx) line then false
  else if has forbidden lower then false
  else if test re_stray_count line then false
  else if existsb (fun t => includes t lower) roleTokens then false
  else if test re_line_reply_count line then false
  else if test re_line_replies_sorted line then false
  else if test re_line_sorted_by line then false
  else if test re_line_order line then false
  else true.

(** [raw.split(/\r?\n/).map((l) => l.trim()).filter(Boolean)] *)
Definition splitLines (raw : jsstring) : list jsstring :=
  filter truthy (map trim (split re_newline raw)).

(** The chain of [replace] calls on the joined text. *)
Definition stripInline (out : jsstring) : jsstring :=
  let out := replaceAll re_reply (js " ") (replaceAll re_like (js " ") out) in
  let out := replaceAll re_inline_reply_count (js " ") out in
  let out := replaceAll re_inline_replies_sorted (js " ") out in
  let out := replaceAll re_inline_sorted_by (js " ") out in
  replaceAll re_spaces (js " ") out.

Definition cleanLines (raw : jsstring) (ctx : Ctx) : jsstring :=
  let lines := splitLines raw in
  let cleaned := filter (keepLine ctx) lines in
  let out := join (js " ") cleaned in
  normalizeWhitespace (stripInline out).

(** The class [[A-Za-z0-9_\-]] of the author pattern. *)
Definition is_token_char (x : ascii) : bool :=
  is_alpha x || is_digit x || Ascii.eqb x "_" || Ascii.eqb x "-".

(** The class [[\s,:-]] of the author pattern. *)
Definition is_sep_char (x : ascii) : bool :=
  is_space x || Ascii.eqb x "," || Ascii.eqb x ":" || Ascii.eqb x "-".

(** [/^(TOKEN)\b[\s,:-]+(REST)$/] with TOKEN the pattern
    [[A-Za-z][A-Za-z0-9_\-]{2,}] and REST the starred dot. *)
Definition re_author : regex :=
  seqs [Bol;
        Group 1 (Seq (Class is_alpha) (at_least 2 (Class is_token_char)));
        WordB;
        plus (Class is_sep_char);
        Group 2 (star dot);
        Eol].

Definition blacklist : list jsstring :=
  [ js "Hi"; js "Has"; js "I"; js "We"; js "Thanks"; js "Hey"; js "Hello" ].

(** The value of [extractAuthorFromContent]: [author] is [None] when the
    property is absent. *)
Record Inferred : Type := mkInferred {
  inf_author : option jsstring;
  inf_content : jsstring
}.

Definition extractAuthorFromContent (content : jsstring) : Inferred :=
  match match_ re_author content with
  | Some m =>
      match capture 1 m, capture 2 m with
      | Some candidate, Some rest =>
          if negb (has blacklist candidate)
          then mkInferred (Some candidate) (trim rest)
          else mkInferred None content
      | _, _ => mkInferred None content
      end
  | None => mkInferred None content
  end.

End Text.

Import Text.

(* ================================================================== *)
(** ** Data model *)
(* ================================================================== *)

Module Reply.
Record t : Type := mk {
  author : jsstring;
  time : jsstring;
  content : jsstring;
  likes : nat
}.
End Reply.

(** One element of [repliesRaw], as [$$eval] returns it. *)
Module RawReply.
Record t : Type := mk {
  author : jsstring;
  role : jsstring;
  time : jsstring;
  content : jsstring;
  likes : nat
}.
End RawReply.

Module DiscussionDetail.
Record t : Type := mk {
  title : jsstring;
  url : jsstring;
  author : jsstring;
  authorRole : jsstring;
  time : jsstring;
  content : jsstring;
  views : nat;
  likes : nat;
  comments : nat;
  replies : list Reply.t
}.

(** [fullDetail.views = v] and [fullDetail.likes = v]. *)
Definition set_views (v : nat) (d : t) : t :=
  mk (title d) (url d) (author d) (authorRole d) (time d) (content d)
     v (likes d) (comments d) (replies d).

Definition set_likes (v : nat) (d : t) : t :=
  mk (title d) (url d) (author d) (authorRole d) (time d) (content d)
     (views d) v (comments d) (replies d).
End DiscussionDetail.

(** The value type of the [collected] map. *)
Module DiscussionSummary.
Record t : Type := mk {
  title : jsstring;
  url : jsstring;
  author : jsstring;
  time : jsstring;
  views : nat;
  likes : nat;
  comments : nat
}.
End DiscussionSummary.

(** The number held by [expectedReplies]: [parseInt] of a run of digits
    is an integer or, past the range of a double, [Infinity]. *)
Inductive number : Type :=
| Int (z : Z)
| Infinity.

(** What [scrapeDiscussionDetail] reads from the expanded page: the
    values of its local constants of the same names.  [None] is the
    [null] of [textContent()] for the texts and [undefined] for
    [expectedReplies]. *)
Record Snapshot : Type := mkSnapshot {
  snap_title : option jsstring;
  mainAuthor : option jsstring;
  mainTime : option jsstring;
  mainRole : option jsstring;
  mainContentRaw : jsstring;
  repliesRaw : list RawReply.t;
  expectedReplies : option number;
  viewCount : nat
}.

(* ================================================================== *)
(** ** Map with insertion order *)
(* ================================================================== *)

(** [Map<string, V>]: the entries in insertion order, keys distinct. *)
Module JsMap.
Section WithValue.
Variable V : Type.

Definition t := list (jsstring * V).

Definition empty : t := [].

Fixpoint get (m : t) (k : jsstring) : option V :=
  match m with
  | [] => None
  | (k', v) :: m' => if JS.eqb k k' then Some v else get m' k
  end.

Definition has (m : t) (k : jsstring) : bool :=
  match get m k with Some _ => true | None => false end.

(** [m.set(k, v)]: a present key keeps its place and takes the new
    value, a new key goes last. *)
Fixpoint set (m : t) (k : jsstring) (v : V) : t :=
  match m with
  | [] => [(k, v)]
  | (k', v') :: m' =>
      if JS.eqb k k' then (k', v) :: m' else (k', v') :: set m' k v
  end.

Definition keys (m : t) : list jsstring := map fst m.
Definition values (m : t) : list V := map snd m.
Definition size (m : t) : nat := length m.

End WithValue.
End JsMap.

(* ================================================================== *)
(** ** Detail extractor: the record built from the page reads *)
(* ================================================================== *)

Module Detail.

(** [s || ''] and [s?.trim()] on a text that may be [null]. *)
Definition orEmpty (s : option jsstring) : jsstring :=
  match s with Some v => v | None => [] end.

(** The callback of [repliesRaw.map]. *)
Definition cleanReply (r : RawReply.t) : Reply.t :=
  let cleaned :=
    cleanLines (RawReply.content r)
      (mkCtx None (Some (RawReply.author r)) (Some (RawReply.time r))) in
  let replyAuthor := trim (RawReply.author r) in
  if negb (truthy replyAuthor) && truthy cleaned then
    let inf := extractAuthorFromContent cleaned in
    let replyAuthor :=
      match inf_author inf with
      | Some a => if truthy a then a else replyAuthor
      | None => replyAuthor
      end in
    let cleaned :=
      if truthy (inf_content inf) then inf_content inf else cleaned in
    Reply.mk replyAuthor (RawReply.time r) cleaned (RawReply.likes r)
  else
    Reply.mk replyAuthor (RawReply.time r) cleaned (RawReply.likes r).

(** The callback of [.filter], "drop empties". *)
Definition keepReply (r : Reply.t) : bool :=
  (truthy (Reply.author r) && (0 <? length (trim (Reply.author r))))
  || (truthy (Reply.content r) && (0 <? length (trim (Reply.content r)))).

Definition cleanReplies (raw : list RawReply.t) : list Reply.t :=
  filter keepReply (map cleanReply raw).

(** [replies.slice(0, n)] for an integer [n >= 0] or [Infinity]. *)
Definition slice0 (A : Type) (n : number) (l : list A) : list A :=
  match n with
  | Int z => firstn (Z.to_nat z) l
  | Infinity => l
  end.

(** [expectedReplies >= 0] *)
Definition nonneg (n : number) : bool :=
  match n with
  | Int z => (0 <=? z)%Z
  | Infinity => true
  end.

(** [limitedReplies]: "if the page shows a Replies count, align to it". *)
Definition limitReplies (expected : option number) (replies : list Reply.t)
  : list Reply.t :=
  match expected with
  | Some n => if nonneg n then slice0 n replies else replies
  | None => replies
  end.

(** The main post: cleaned content and author, inferred from the content
    when the selector gave none. *)
Definition mainPost (snap : Snapshot) : jsstring * jsstring :=
  let mainContent :=
    cleanLines (mainContentRaw snap)
      (mkCtx (option_map trim (snap_title snap))
             (option_map trim (mainAuthor snap))
             (option_map trim (mainTime snap))) in
  let author := trim (orEmpty (mainAuthor snap)) in
  if negb (truthy author) && truthy mainContent then
    let inferred := extractAuthorFromContent mainContent in
    let author :=
      match inf_author inferred with
      | Some a => if truthy a then a else author
      | None => author
      end in
    let mainContent :=
      if truthy (inf_content inferred) then inf_content inferred
      else mainContent in
    (author, mainContent)
  else (author, mainContent).

(** The [return] of [scrapeDiscussionDetail]. *)
Definition build (url : jsstring) (snap : Snapshot) : DiscussionDetail.t :=
  let (author, mainContent) := mainPost snap in
  let replies := cleanReplies (repliesRaw snap) in
  let limitedReplies := limitReplies (expectedReplies snap) replies in
  DiscussionDetail.mk
    (trim (orEmpty (snap_title snap)))
    url
    author
    (normalizeWhitespace (orEmpty (mainRole snap)))
    (trim (orEmpty (mainTime snap)))
    (trim mainContent)
    (viewCount snap)
    0
    (length limitedReplies)
    limitedReplies.

End Detail.

(* ================================================================== *)
(** ** Page accessor and effects *)
(* ================================================================== *)

(** The argument of [delay]: a fixed time, or [Math.random() * span + base]. *)
Inductive duration : Type :=
| Fixed (ms : N)
| Random (base span : N).

(** What the scraper does to the page and the console, in order. *)
Inductive event : Type :=
| Goto (url : jsstring)
| Click (sel : jsstring) (i : nat)
| Wheel (dy : N)
| Delay (d : duration)
| WaitForSelector
| ScrollEval
| LogError (url : jsstring).

(** A computation on a page of type [P]: its value or the exception it
    throws, the page afterwards, the events emitted. *)
Definition M (P E A : Type) : Type := P -> (E + A) * P * list event.

Definition ret {P E A} (a : A) : M P E A := fun p => (inr a, p, []).

Definition throw {P E A} (e : E) : M P E A := fun p => (inl e, p, []).

Definition bind {P E A B} (m : M P E A) (f : A -> M P E B) : M P E B :=
  fun p =>
    match m p with
    | (inl e, p1, t1) => (inl e, p1, t1)
    | (inr a, p1, t1) =>
        match f a p1 with
        | (r, p2, t2) => (r, p2, t1 ++ t2)
        end
    end.

(** [try { m } catch (err) { h err }] *)
Definition tryCatch {P E A} (m : M P E A) (h : E -> M P E A) : M P E A :=
  fun p =>
    match m p with
    | (inl e, p1, t1) =>
        match h e p1 with
        | (r, p2, t2) => (r, p2, t1 ++ t2)
        end
    | (inr a, p1, t1) => (inr a, p1, t1)
    end.

(** A page operation that cannot fail, with the event it leaves. *)
Definition act {P E} (ev : event) (f : P -> P) : M P E unit :=
  fun p => (inr tt, f p, [ev]).

(** A page operation that may throw. *)
Definition attempt {P E} (ev : event) (f : P -> P * option E) : M P E unit :=
  fun p =>
    match f p with
    | (p1, Some e) => (inl e, p1, [ev])
    | (p1, None) => (inr tt, p1, [ev])
    end.

(** A read of the page. *)
Definition peek {P E A} (f : P -> A) : M P E A := fun p => (inr (f p), p, []).

Declare Scope scraper_scope.
Delimit Scope scraper_scope with scraper.
Notation "x <- m ;; k" := (bind m (fun x => k))
  (at level 61, m at next level, right associativity) : scraper_scope.
Notation "m ;; k" := (bind m (fun _ => k))
  (at level 61, right associativity) : scraper_scope.

Definition trace_of {P E A} (o : (E + A) * P * list event) : list event := snd o.
Definition page_of {P E A} (o : (E + A) * P * list event) : P := snd (fst o).
Definition value_of {P E A} (o : (E + A) * P * list event) : E + A := fst (fst o).

Definition is_click (ev : event) : bool :=
  match ev with Click _ _ => true | _ => false end.

Definition is_wheel (ev : event) : bool :=
  match ev with Wheel _ => true | _ => false end.

(** Control activations and rounds of a run of the revealer, read off
    its events: one [Click] per activation, one [Wheel] per round. *)
Definition activations (t : list event) : nat := length (filter is_click t).
Definition rounds (t : list event) : nat := length (filter is_wheel t).

(** The page accessor: the Playwright page as the scraper uses it.
    [count] (awaited without a catch: [inl] when the promise rejects),
    [isVisible] ([None] when the promise rejects), [click] (rejections
    are swallowed at the call) and [wheel] (awaited without a catch, with
    the exception when it rejects) are the calls of [expandAllContent];
    [goto] stands for [page.goto], [waitFor] for [page.waitForSelector],
    [autoScroll] for the evaluated scroll loop and [observe] for the reads
    that follow the expansion.  [sleep] is the passing of time in
    [delay]. *)
Class Accessor (Page exn : Type) : Type := {
  count : Page -> jsstring -> exn + nat;
  isVisible : Page -> jsstring -> nat -> option bool;
  click : Page -> jsstring -> nat -> Page;
  wheel : Page -> N -> Page * option exn;
  sleep : duration -> Page -> Page;
  goto : jsstring -> Page -> Page * option exn;
  waitFor : Page -> Page * option exn;
  autoScroll : Page -> Page * option exn;
  observe : Page -> exn + Snapshot
}.

Module Scraper.
Section WithAccessor.
Local Open Scope scraper_scope.

Context {Page exn : Type} {accessor : Accessor Page exn}.

Local Abbreviation Eff := (M Page exn).

(** [await delay(ms)] *)
Definition delay (d : duration) : Eff unit := act (Delay d) (sleep d).

Definition selectors : list jsstring :=
  [ js "button:has-text('Show More')";
    js "button:has-text('Show more')";
    js "a:has-text('Show More')";
    js "a:has-text('Show more')";
    js "button:has-text('Read More')";
    js "button:has-text('Read more')";
    js "a:has-text('Read More')";
    js "a:has-text('Read more')";
    js "button:has-text('Load more replies')";
    js "a:has-text('Load more replies')";
    js "[data-testid*='show-more']";
    js "[data-testid*='load-more']";
    js "[aria-expanded='false']:has-text('Show More')";
    js "[aria-expanded='false']:has-text('Show more')";
    js "[aria-expanded='false']:has-text('more')" ].

(** [await el.isVisible().catch(() => false)] *)
Definition visibleNow (sel : jsstring) (i : nat) : Eff bool :=
  peek (fun p => match isVisible p sel i with Some b => b | None => false end).

(** [for (let i = ...; i < count; i++)], with [todo = count - i]. *)
Fixpoint clickMatches (sel : jsstring) (i todo : nat) (clickedAny : bool)
  : Eff bool :=
  match todo with
  | 0 => ret clickedAny
  | S todo' =>
      v <- visibleNow sel i ;;
      if v then
        act (Click sel i) (fun p => click p sel i) ;;
        delay (Fixed 150%N) ;;
        clickMatches sel (S i) todo' true
      else clickMatches sel (S i) todo' clickedAny
  end.

(** [for (const sel of selectors)] *)
Fixpoint clickSelectors (sels : list jsstring) (clickedAny : bool) : Eff bool :=
  match sels with
  | [] => ret clickedAny
  | sel :: sels' =>
      r <- peek (fun p => count p sel) ;;
      match r with
      | inl e => throw e
      | inr n =>
          clickedAny' <- clickMatches sel 0 n clickedAny ;;
          clickSelectors sels' clickedAny'
      end
  end.

(** [for (let round = ...; round < 50; round++)], with [budget = 50 - round]. *)
Fixpoint expandRounds (budget : nat) : Eff unit :=
  match budget with
  | 0 => ret tt
  | S budget' =>
      clickedAny <- clickSelectors selectors false ;;
      attempt (Wheel 1200%N) (fun p => wheel p 1200%N) ;;
      delay (Fixed 200%N) ;;
      if negb clickedAny then ret tt else expandRounds budget'
  end.

Definition expandAllContent : Eff unit := expandRounds 50.

Definition scrapeDiscussionDetail (url : jsstring) : Eff DiscussionDetail.t :=
  attempt (Goto url) (goto url) ;;
  delay (Random 1000%N 2000%N) ;;
  attempt WaitForSelector waitFor ;;
  expandAllContent ;;
  attempt ScrollEval autoScroll ;;
  expandAllContent ;;
  r <- peek observe ;;
  match r with
  | inl e => throw e
  | inr snap => ret (Detail.build url snap)
  end.

(** [for (const s of summaries) if (s.url && !collected.has(s.url))
    collected.set(s.url, s)] *)
Definition collectFromCurrentPage (summaries : list DiscussionSummary.t)
    (collected : JsMap.t DiscussionSummary.t) : JsMap.t DiscussionSummary.t :=
  fold_left
    (fun collected s =>
       if truthy (DiscussionSummary.url s)
          && negb (JsMap.has collected (DiscussionSummary.url s))
       then JsMap.set collected (DiscussionSummary.url s) s
       else collected)
    summaries collected.

(** The store after the successive calls of [collectFromCurrentPage] of
    a crawl; [sightings] lists what [$$eval] returned at each call. *)
Definition crawl (sightings : list (list DiscussionSummary.t))
  : JsMap.t DiscussionSummary.t :=
  fold_left (fun collected summaries => collectFromCurrentPage summaries collected)
    sightings (JsMap.empty DiscussionSummary.t).

(** The body of [for (const d of collected.values())]. *)
Definition scrapeOne (d : DiscussionSummary.t)
    (allDetails : list DiscussionDetail.t) : Eff (list DiscussionDetail.t) :=
  delay (Random 1000%N 3000%N) ;;
  tryCatch
    (fullDetail <- scrapeDiscussionDetail (DiscussionSummary.url d) ;;
     let fullDetail := DiscussionDetail.set_views (DiscussionSummary.views d) fullDetail in
     let fullDetail := DiscussionDetail.set_likes (DiscussionSummary.likes d) fullDetail in
     ret (allDetails ++ [fullDetail]))
    (fun err =>
       act (LogError (DiscussionSummary.url d)) (fun p => p) ;;
       delay (Fixed 5000%N) ;;
       ret allDetails).

Fixpoint scrapeEach (ds : list DiscussionSummary.t)
    (allDetails : list DiscussionDetail.t) : Eff (list DiscussionDetail.t) :=
  match ds with
  | [] => ret allDetails
  | d :: ds' =>
      allDetails' <- scrapeOne d allDetails ;;
      scrapeEach ds' allDetails'
  end.

(** The second half of [scrapeDiscussionList]: open each collected
    discussion and return [allDetails]. *)
Definition scrapeDiscussionList (collected : JsMap.t DiscussionSummary.t)
  : Eff (list DiscussionDetail.t) :=
  scrapeEach (JsMap.values collected) [].

End WithAccessor.
End Scraper.

(* ================================================================== *)
(** ** Notions for the facts on the matcher *)
(* ================================================================== *)

Module RegexDefs.

(** The code unit before the position reached by consuming [w]. *)
Fixpoint after (prev : option ascii) (w : jsstring) : option ascii :=
  match w with
  | [] => prev
  | x :: w' => after (Some x) w'
  end.

(** A greedy run of the class [p], between [lo] and [hi] code units,
    longest first. *)
Fixpoint greedy (A : Type) (p : ascii -> bool) (lo : nat) (hi : option nat)
    (prev : option ascii) (s : jsstring) (c : caps) (k : cont A) : option A :=
  if hi_is_zero hi then k prev s c else
  match s with
  | x :: s' =>
      if p x then
        match greedy p (pred lo) (dec_hi hi) (Some x) s' c k with
        | Some a => Some a
        | None => if Nat.eqb lo 0 then k prev s c else None
        end
      else if Nat.eqb lo 0 then k prev s c else None
  | [] => if Nat.eqb lo 0 then k prev s c else None
  end.

(** Equality of code units under the i flag. *)
Definition eqb_ci (x c : ascii) : bool :=
  Ascii.eqb (canonicalize x) (canonicalize c).

(** [s] starts with the text [w], case ignored. *)
Fixpoint startsWith_ci (w s : jsstring) : bool :=
  match w, s with
  | [], _ => true
  | c :: w', x :: s' => eqb_ci x c && startsWith_ci w' s'
  | _ :: _, [] => false
  end.

(** [s] contains the text [w], case ignored. *)
Fixpoint mentions (w s : jsstring) : bool :=
  startsWith_ci w s ||
  match s with
  | [] => false
  | _ :: s' => mentions w s'
  end.

(** The head of [s], if any, is not in the class [p]. *)
Definition stops (p : ascii -> bool) (s : jsstring) : bool :=
  match s with
  | x :: _ => negb (p x)
  | [] => true
  end.

(** Length of the leading run of the class [p]. *)
Fixpoint leading (p : ascii -> bool) (s : jsstring) : nat :=
  match s with
  | x :: s' => if p x then S (leading p s') else 0
  | [] => 0
  end.

(** No match starts anywhere in [s], read after [prev]. *)
Fixpoint nowhere (r : regex) (prev : option ascii) (s : jsstring) : Prop :=
  exec_at r prev s = None /\
  match s with
  | [] => True
  | x :: s' => nowhere r (Some x) s'
  end.

(** No match starts inside [pre], read before [s]. *)
Fixpoint nowhere_before (r : regex) (prev : option ascii)
    (pre s : jsstring) : Prop :=
  match pre with
  | [] => True
  | x :: pre' =>
      exec_at r prev (pre ++ s) = None /\ nowhere_before r (Some x) pre' s
  end.

End RegexDefs.

(* ================================================================== *)
(** ** Notions for the facts on the text normaliser *)
(* ================================================================== *)

Module CleanDefs.
Import RegexDefs.

Definition SP : ascii := " "%char.

(** [\r], [\n] or [\t]. *)
Definition is_break (x : ascii) : bool :=
  Ascii.eqb x CR || Ascii.eqb x LF || Ascii.eqb x TAB.

(** No two whitespace code units side by side. *)
Fixpoint single_spaced (s : jsstring) : bool :=
  match s with
  | x :: s' =>
      match s' with
      | y :: _ => negb (is_space x && is_space y) && single_spaced s'
      | [] => true
      end
  | [] => true
  end.

(** A tidy line: not empty, no whitespace at either end, no two
    whitespace units in a row, no line break or tab. *)
Definition tidy (l : jsstring) : bool :=
  match l with
  | [] => false
  | x :: _ => negb (is_space x)
  end
  && negb (is_space (last l SP))
  && single_spaced l
  && forallb (fun x => negb (is_break x)) l.

(** No inline widget residue: the line contains none of the words that
    the inline patterns start from, case ignored. *)
Definition inline_free (l : jsstring) : bool :=
  negb (mentions (js "Like") l)
  && negb (mentions (js "Repl") l)
  && negb (mentions (js "sorted") l).




(** [w] and [v] are the same text, case ignored. *)
Fixpoint same_ci (w v : jsstring) : bool :=
  match w, v with
  | [], [] => true
  | x :: w', c :: v' => eqb_ci x c && same_ci w' v'
  | _, _ => false
  end.

(** The text [w] has no code unit that a space matches under the i flag. *)
Definition spaceless (w : jsstring) : bool :=
  forallb (fun c => negb (eqb_ci SP c)) w.

(** A text with no whitespace at all. *)
Definition solid (w : jsstring) : bool :=
  truthy w && forallb (fun x => negb (is_space x)) w.


Definition no_ctx : Ctx := mkCtx None None None.

(** The blacklisted openers long enough to match the token pattern. *)
Definition openers : list jsstring :=
  [ js "Has"; js "Thanks"; js "Hey"; js "Hello" ].

End CleanDefs.

(** Texts with standalone words in them, for the inline patterns. *)
Module InlineDefs.
Import RegexDefs CleanDefs.

(** The words and texts that follow a text, single spaces between them:
    [ w1 b1 w2 b2 ...]. *)
Fixpoint tailpart (l : list (jsstring * jsstring)) : jsstring :=
  match l with
  | [] => []
  | (w, b) :: l' => SP :: w ++ SP :: b ++ tailpart l'
  end.

(** A text with words in it: [a w1 b1 w2 b2 ...]. *)
Definition weave (a : jsstring) (l : list (jsstring * jsstring)) : jsstring :=
  a ++ tailpart l.

(** What a pass leaves of a word: a space for a word that it hits. *)
Definition blank (hits : jsstring -> bool) (w : jsstring) : jsstring :=
  if hits w then [SP] else w.

(** [Like] in any case, alone or with a space and digits after it. *)
Definition like_word (w : jsstring) : bool :=
  same_ci (firstn 4 w) (js "Like")
  && match skipn 4 w with
     | [] => true
     | x :: ds => Ascii.eqb x SP && (0 <? length ds) && forallb is_digit ds
     end.

Definition reply_word (w : jsstring) : bool := same_ci w (js "Reply").

(** A standalone [Like], with or without digits, or [Reply], in any
    case, and the text after it: the text is tidy and free of inline
    residue, and after a [Like] without digits it does not start with a
    digit. *)
Definition woven (wb : jsstring * jsstring) : bool :=
  let (w, b) := wb in
  tidy b && inline_free b
  && (if like_word w
      then (0 <? length (skipn 4 w)) || stops is_digit b
      else reply_word w).

End InlineDefs.

(* ================================================================== *)
(** ** Observations on a run *)
(* ================================================================== *)

(** The URLs navigated to, the failures logged and the elevated delays of
    a run, read off its events. *)
Definition visited (t : list event) : list jsstring :=
  flat_map (fun ev => match ev with Goto u => [u] | _ => [] end) t.

Definition failures (t : list event) : list jsstring :=
  flat_map (fun ev => match ev with LogError u => [u] | _ => [] end) t.

Definition is_elevated (ev : event) : bool :=
  match ev with
  | Delay (Fixed ms) => N.eqb ms 5000
  | _ => false
  end.

Definition elevated (t : list event) : nat := length (filter is_elevated t).

(** The events of one pass over the selectors: clicks and their 150 ms
    pauses. *)
Definition click_event (ev : event) : bool :=
  match ev with
  | Click _ _ => true
  | Delay (Fixed ms) => N.eqb ms 150
  | _ => false
  end.

(** The events of the revealer. *)
Definition revealer_event (ev : event) : bool :=
  match ev with
  | Click _ _ | Wheel _ => true
  | Delay (Fixed ms) => N.eqb ms 150 || N.eqb ms 200
  | _ => false
  end.

(** The events of the detail extractor after its navigation. *)
Definition detail_event (ev : event) : bool :=
  match ev with
  | Delay (Random _ _) | WaitForSelector | ScrollEval => true
  | _ => revealer_event ev
  end.

Module Outcome.
Section WithAccessor.
Local Open Scope scraper_scope.
Import Scraper.
Context {Page exn : Type} {accessor : Accessor Page exn}.

(** [await el.isVisible().catch(() => false)] as a function of the page. *)
Definition shown (p : Page) (sel : jsstring) (i : nat) : bool :=
  match isVisible p sel i with Some b => b | None => false end.

(** No control of the revealer is visible on the page: every selector
    is counted, and none of its matches is visible. *)
Definition quiet (p : Page) : Prop :=
  forall sel, In sel Scraper.selectors ->
    exists n, count p sel = inr n
              /\ forall i, i < n -> isVisible p sel i <> Some true.

(** The scroll step of a round is not rejected on the page. *)
Definition scrolls (p : Page) : Prop := snd (wheel p 1200%N) = None.

(** The page after the scroll step and the pause that end a round. *)
Definition settle (p : Page) : Page :=
  sleep (Fixed 200%N) (fst (wheel p 1200%N)).

(** Static content: the scroll step and the pause that end a round
    change nothing of a page that shows no control and can be scrolled. *)
Definition static : Prop :=
  forall p : Page, quiet p -> scrolls p -> quiet (settle p) /\ scrolls (settle p).

(** [count] and [wheel] are never rejected. *)
Definition steady : Prop :=
  (forall (p : Page) sel, exists n, count p sel = inr n)
  /\ (forall (p : Page) dy, snd (wheel p dy) = None).

(** The exception is one that [count] or [wheel] raised. *)
Definition rejection (e : exn) : Prop :=
  (exists (q : Page) sel, count q sel = inl e)
  \/ (exists (q : Page) dy, snd (wheel q dy) = Some e).

(** [fullDetail.views = d.views; fullDetail.likes = d.likes] *)
Definition overwrite (d : DiscussionSummary.t) (full : DiscussionDetail.t)
  : DiscussionDetail.t :=
  DiscussionDetail.set_likes (DiscussionSummary.likes d)
    (DiscussionDetail.set_views (DiscussionSummary.views d) full).

(** The outcome of one discussion in the driver loop: the record pushed
    to [allDetails], or [None] when the extraction threw. *)
Definition settled (d : DiscussionSummary.t)
    (o : option DiscussionDetail.t) : Prop :=
  match o with
  | Some full' =>
      exists snap,
        full' = overwrite d (Detail.build (DiscussionSummary.url d) snap)
  | None => True
  end.

Definition pushed (os : list (option DiscussionDetail.t))
  : list DiscussionDetail.t :=
  flat_map (fun o => match o with Some x => [x] | None => [] end) os.

Fixpoint omitted (ds : list DiscussionSummary.t)
    (os : list (option DiscussionDetail.t)) : list jsstring :=
  match ds, os with
  | d :: ds', None :: os' => DiscussionSummary.url d :: omitted ds' os'
  | _ :: ds', Some _ :: os' => omitted ds' os'
  | _, _ => []
  end.

(** What follows the navigation in [scrapeDiscussionDetail]. *)
Definition afterGoto (url : jsstring) : M Page exn DiscussionDetail.t :=
  delay (Random 1000%N 2000%N) ;;
  attempt WaitForSelector waitFor ;;
  expandAllContent ;;
  attempt ScrollEval autoScroll ;;
  expandAllContent ;;
  r <- peek observe ;;
  match r with
  | inl e => throw e
  | inr snap => ret (Detail.build url snap)
  end.

(** The body of the loop of [collectFromCurrentPage]. *)
Definition sight (collected : JsMap.t DiscussionSummary.t)
    (s : DiscussionSummary.t) : JsMap.t DiscussionSummary.t :=
  if truthy (DiscussionSummary.url s)
     && negb (JsMap.has collected (DiscussionSummary.url s))
  then JsMap.set collected (DiscussionSummary.url s) s
  else collected.

(** The first sighting of [u] in a sequence of summaries. *)
Definition firstSighting (u : jsstring) (l : list DiscussionSummary.t)
  : option DiscussionSummary.t :=
  find (fun s => JS.eqb u (DiscussionSummary.url s)) l.

End WithAccessor.
End Outcome.

(** The computation returns normally from every page. *)
Definition returns {P E A} (m : M P E A) : Prop :=
  forall p, exists a, value_of (m p) = inr a.

(** Every event of the computation satisfies [Q]. *)
Definition emits {P E A} (Q : event -> bool) (m : M P E A) : Prop :=
  forall p, forallb Q (trace_of (m p)) = true.

(** The value of the computation, when it returns, satisfies [Q]. *)
Definition yields {P E A} (Q : A -> Prop) (m : M P E A) : Prop :=
  forall p a, value_of (m p) = inr a -> Q a.

(* ================================================================== *)
(** ** Sample pages and listings *)
(* ================================================================== *)

Module Sample.

Definition summary (title path : string) (views likes : nat)
  : DiscussionSummary.t :=
  DiscussionSummary.mk (js title) (js path) (js "someone") (js "1 day ago")
    views likes 0.

(** A first listing page with rows A, B, C and a second one with C again
    (other counters) and D. *)
Definition rowA := summary "A" "/discussions/a" 10 1.
Definition rowB := summary "B" "/discussions/b" 20 2.
Definition rowC := summary "C" "/discussions/c" 30 3.
Definition rowC' := summary "C later" "/discussions/c" 31 4.
Definition rowD := summary "D" "/discussions/d" 40 5.
Definition firstPage := [rowA; rowB; rowC].
Definition nextPage := [rowC'; rowD].

Definition rawReply (author content : string) : RawReply.t :=
  RawReply.mk (js author) (js "") (js "2 hours ago") (js content) 0.

(** A discussion page that declares one reply and renders three
    candidates, the last of them bare widget text. *)
Definition thread : Snapshot :=
  mkSnapshot (Some (js "Booking form")) (Some (js "maria")) (Some (js "3 days ago"))
    None (js "How do I change the booking form")
    [ rawReply "lee" "Open the settings page";
      rawReply "" "kim: it is under requests";
      rawReply "" "Like" ]
    (Some (Int 1)) 0.

(** A page with [p] collapsed sections behind one "Show more" button;
    a click opens one section, and the button goes with the last one.
    Navigation fails on the URL [/gone]. *)
#[local] Instance folded : Accessor nat unit := {|
  count := fun p sel =>
    inr (if JS.eqb sel (js "button:has-text('Show more')") then 1 else 0);
  isVisible := fun p sel i => Some (0 <? p);
  click := fun p sel i => pred p;
  wheel := fun p dy => (p, None);
  sleep := fun d p => p;
  goto := fun url p =>
    if JS.eqb url (js "/gone") then (0, Some tt) else (2, None);
  waitFor := fun p => (p, None);
  autoScroll := fun p => (p, None);
  observe := fun p => inr thread
|}.

(** A page whose "Show more" button stays visible whatever is clicked. *)
#[local] Instance stubborn : Accessor unit unit := {|
  count := fun p sel =>
    inr (if JS.eqb sel (js "button:has-text('Show more')") then 1 else 0);
  isVisible := fun p sel i => Some true;
  click := fun p sel i => p;
  wheel := fun p dy => (p, None);
  sleep := fun d p => p;
  goto := fun url p => (p, None);
  waitFor := fun p => (p, None);
  autoScroll := fun p => (p, None);
  observe := fun p => inr thread
|}.

Definition gone : DiscussionSummary.t := summary "Gone" "/gone" 7 7.

End Sample.

(* ================================================================== *)
(** ** Notions for the facts on texts *)
(* ================================================================== *)

Module ShapeDefs.
Import CleanDefs.

(** The code units of a text that are not whitespace, in order. *)
Definition ink (s : jsstring) : jsstring :=
  filter (fun x => negb (is_space x)) s.

(** [a] is [b] with some elements left out. *)
Inductive subseq (A : Type) : list A -> list A -> Prop :=
| subseq_nil : subseq [] []
| subseq_keep (x : A) (a b : list A) : subseq a b -> subseq (x :: a) (x :: b)
| subseq_skip (x : A) (a b : list A) : subseq a b -> subseq a (x :: b).

(** A text is settled when it is empty or tidy. *)
Definition settled_text (s : jsstring) : bool :=
  match s with [] => true | _ => tidy s end.

(** The matches of [r] hold whitespace only. *)
Definition white (r : regex) : Prop :=
  forall prev s rest cs,
    exec_at r prev s = Some (rest, cs) ->
    exists w, s = w ++ rest /\ forallb is_space w = true.

(** A match ends at a suffix of the input. *)
Definition reaches (A : Type) (k : cont A) (s : jsstring) (a : A) : Prop :=
  exists prev' w s' c', s = w ++ s' /\ k prev' s' c' = Some a.

End ShapeDefs.

(* ================================================================== *)
(** ** Numbers read from the page *)
(* ================================================================== *)

Module Numbers.

(** A Number as [parseInt] returns it: [NaN], an integer ([Num 0] stands
    for both zeros) or an infinity. *)
Inductive jsnum : Type :=
| NaN
| Num (z : Z)
| Inf (negative : bool).

(** The value of a code unit as a digit: [0-9], then [a-z] or [A-Z] for
    ten to thirty-five. *)
Definition digitValue (c : ascii) : option N :=
  if is_digit c then Some (code c - 48)%N
  else if is_lower c then Some (code c - 87)%N
  else if is_upper c then Some (code c - 55)%N
  else None.

(** The values of the longest prefix of radix-[R] digits. *)
Fixpoint radixDigits (R : N) (s : jsstring) : list N :=
  match s with
  | c :: s' =>
      match digitValue c with
      | Some d => if (d <? R)%N then d :: radixDigits R s' else []
      | None => []
      end
  | [] => []
  end.

Definition mathInt (R : N) (ds : list N) : N :=
  fold_left (fun acc d => acc * R + d)%N ds 0%N.

(** The double nearest to a natural number, ties to even; [None] past
    the largest double. *)
Definition round53 (n : N) : option N :=
  if (n <? 2 ^ 53)%N then Some n else
  let e := (N.log2 n - 52)%N in
  let q := N.shiftr n e in
  let r := (n - N.shiftl q e)%N in
  let half := N.shiftl 1 (e - 1) in
  let q' :=
    if (r <? half)%N then q
    else if (half <? r)%N then (q + 1)%N
    else if N.even q then q else (q + 1)%N in
  let v := N.shiftl q' e in
  if (v <? 2 ^ 1024)%N then Some v else None.

(** [parseInt(string, radix)]; [radix] is [0] when the argument is
    absent. *)
Definition parseInt (string : jsstring) (radix : N) : jsnum :=
  let input := trimStart string in
  let '(negative, input) :=
    match input with
    | c :: tl =>
        if Ascii.eqb c "-" then (true, tl)
        else if Ascii.eqb c "+" then (false, tl)
        else (false, input)
    | [] => (false, input)
    end in
  if negb (radix =? 0)%N && ((radix <? 2)%N || (36 <? radix)%N) then NaN else
  let stripPrefix := (radix =? 0)%N || (radix =? 16)%N in
  let R0 := if (radix =? 0)%N then 10%N else radix in
  let '(R, input) :=
    if stripPrefix then
      match input with
      | z :: x :: tl =>
          if Ascii.eqb z "0" && (Ascii.eqb x "x" || Ascii.eqb x "X")
          then (16%N, tl) else (R0, input)
      | _ => (R0, input)
      end
    else (R0, input) in
  match radixDigits R input with
  | [] => NaN
  | ds =>
      match round53 (mathInt R ds) with
      | Some v => Num (if negative then - Z.of_N v else Z.of_N v)
      | None => Inf negative
      end
  end.

(** [n || 0] *)
Definition orZero (n : jsnum) : jsnum :=
  match n with
  | NaN => Num 0
  | _ => n
  end.

(** [/\D/g] and [text.replace(/\D/g, "")]. *)
Definition re_nondigit : regex := Class (fun x => negb (is_digit x)).

Definition digitsOnly (text : jsstring) : jsstring :=
  replaceAll re_nondigit [] text.

(** The number written by a run of decimal digits. *)
Definition decimal (ds : jsstring) : N :=
  fold_left (fun acc c => acc * 10 + (code c - 48))%N ds 0%N.

End Numbers.

(* ================================================================== *)
(** ** What the page callbacks compute *)
(* ================================================================== *)

Module Harvest.
Import Numbers.

(** [s.replace(re, rep)] for a pattern without the g flag: the leftmost
    match, the end of the input included, is replaced. *)
Fixpoint replace_first (r : regex) (rep : jsstring) (prev : option ascii)
    (s : jsstring) : jsstring :=
  match exec_at r prev s with
  | Some (rest, _) => rep ++ rest
  | None =>
      match s with
      | [] => []
      | x :: s' => x :: replace_first r rep (Some x) s'
      end
  end.

Definition replaceFirst (r : regex) (rep s : jsstring) : jsstring :=
  replace_first r rep None s.

(** [el.querySelector(sel)?.textContent?.trim() || ""]; [None] when
    there is no such element or no text. *)
Definition textOf (t : option jsstring) : jsstring :=
  match t with
  | Some v => trim v
  | None => []
  end.

(** [/^\d+\s+Repl(?:y|ies)?\s*/i] *)
Definition re_lead_count : regex :=
  seqs [Bol; plus digit; plus space; lit_i "Repl";
        opt (Alt (chr_i "y") (lit_i "ies")); star space].

(** [/Replies?\s+sorted\s+by\s+\w+\s*/gi] *)
Definition re_pre_replies_sorted : regex :=
  seqs [lit_i "Replie"; opt (chr_i "s"); plus space; lit_i "sorted";
        plus space; lit_i "by"; plus space; plus wordc; star space].

(** [/sorted\s+by\s+(most|newest|oldest)\s+\w*\s*/gi] *)
Definition re_pre_sorted_by : regex :=
  seqs [lit_i "sorted"; plus space; lit_i "by"; plus space; re_order 1;
        plus space; star wordc; star space].

(** "Pre-filter obvious UI noise before processing". *)
Definition prefilter (content : jsstring) : jsstring :=
  let content := replaceFirst re_lead_count [] content in
  let content := replaceAll re_pre_replies_sorted [] content in
  replaceAll re_pre_sorted_by [] content.

(** What the reply callback reads from a matched element: the inner
    text of the body container ([None] without container), the inner
    text of the element itself, and the texts of the author link, the
    time, the rank badge and the kudos button. *)
Record ReplyElement : Type := mkReplyElement {
  el_body : option jsstring;
  el_innerText : option jsstring;
  el_author : option jsstring;
  el_time : option jsstring;
  el_role : option jsstring;
  el_likeText : option jsstring
}.

(** The object that the reply callback returns. *)
Record Candidate : Type := mkCandidate {
  cand_author : jsstring;
  cand_role : jsstring;
  cand_time : jsstring;
  cand_content : jsstring;
  cand_likes : jsnum
}.

(** [parseInt(likeText.replace(/\D/g, "")) || 0] *)
Definition likesOf (likeText : jsstring) : jsnum :=
  orZero (parseInt (digitsOnly likeText) 0).

(** The callback of [elements.slice(1).map]. *)
Definition candidateOf (el : ReplyElement) : Candidate :=
  let content :=
    match el_body el with
    | Some inner => trim inner
    | None => trim (Detail.orEmpty (el_innerText el))
    end in
  mkCandidate (textOf (el_author el)) (textOf (el_role el))
    (textOf (el_time el)) (prefilter content)
    (likesOf (textOf (el_likeText el))).

Definition replySelectors : list jsstring :=
  [ js "article";
    js "li[data-testid^='message']";
    js "[data-testid='message-view']";
    js ".lia-message-view";
    js "[class*='message']" ].

(** [for (const selector of replySelectors)]: [query] gives the elements
    that [$$eval] finds for a selector, or [None] when it throws. *)
Fixpoint trySelectors (query : jsstring -> option (list ReplyElement))
    (sels : list jsstring) (repliesRaw : list Candidate) : list Candidate :=
  match sels with
  | [] => repliesRaw
  | selector :: sels' =>
      match query selector with
      | Some elements =>
          let repliesRaw := map candidateOf (skipn 1 elements) in
          if 0 <? length repliesRaw then repliesRaw
          else trySelectors query sels' repliesRaw
      | None => trySelectors query sels' repliesRaw
      end
  end.

Definition collectReplies (query : jsstring -> option (list ReplyElement))
  : list Candidate :=
  trySelectors query replySelectors [].

(** [/(\d+)/] *)
Definition re_number : regex := Group 1 (plus digit).

(** The callback of [textContent().then]: the declared reply count read
    from the text of the label, [None] for [undefined]. *)
Definition labelCount (t : option jsstring) : option jsnum :=
  match t with
  | Some text =>
      match match_ re_number text with
      | Some m =>
          match capture 1 m with
          | Some d => Some (parseInt d 10)
          | None => Some NaN
          end
      | None => None
      end
  | None => None
  end.

(** [parseInt(el.querySelector(sel)?.textContent?.replace(/\D/g, "") || "0")]
    of the listing callback. *)
Definition counterOf (text : option jsstring) : jsnum :=
  let digits :=
    match text with
    | Some v => if truthy (digitsOnly v) then digitsOnly v else js "0"
    | None => js "0"
    end in
  parseInt digits 0.

(** A selector that gives no candidate: it throws or matches at most the
    main post. *)
Definition barren (query : jsstring -> option (list ReplyElement))
    (selector : jsstring) : bool :=
  match query selector with
  | Some (_ :: _ :: _) => false
  | _ => true
  end.

(** A Number that is an integer from zero on or plus infinity. *)
Definition countable (n : jsnum) : bool :=
  match n with
  | Num z => (0 <=? z)%Z
  | Inf negative => negb negative
  | NaN => false
  end.

End Harvest.

(* ================================================================== *)
(** ** List crawler: listing pages *)
(* ================================================================== *)

(** The listing page as [scrapeDiscussionList] uses it, beside the
    accessor of the discussion page: [gotoIdle] stands for [page.goto]
    until the network is idle, [waitForItems] for [waitForSelector] with
    its rejection swallowed, [summariesOf] for the [$$eval] over the rows,
    [moreVisible] for [isVisible] of the first load-more button ([None]
    when the promise rejects), [loadMore] for the click (rejection
    swallowed) together with [waitForLoadState], [scrollHeight] for the
    evaluated height of the body, [nextHref] for the [href] of the first
    next link ([None] for [null] and for a rejection) and [resolve] for
    [new URL(href, current).toString()]. *)
Class Listing (Page exn : Type) : Type := {
  gotoIdle : jsstring -> Page -> Page * option exn;
  waitForItems : Page -> Page;
  summariesOf : Page -> exn + list DiscussionSummary.t;
  moreVisible : Page -> option bool;
  loadMore : Page -> Page * option exn;
  scrollHeight : Page -> exn + N;
  nextHref : Page -> option jsstring;
  resolve : jsstring -> jsstring -> exn + jsstring
}.

Module Crawler.
Section WithListing.
Local Open Scope scraper_scope.
Import Scraper.

Context {Page exn : Type} {accessor : Accessor Page exn}
        {listing : Listing Page exn}.

Local Abbreviation Eff := (M Page exn).

(** A read of the page that may throw. *)
Definition read {A} (f : Page -> exn + A) : Eff A :=
  r <- peek f ;;
  match r with
  | inl e => throw e
  | inr v => ret v
  end.

(** [collectFromCurrentPage()] on the page at hand. *)
Definition collectStep (collected : JsMap.t DiscussionSummary.t)
  : Eff (JsMap.t DiscussionSummary.t) :=
  summaries <- read summariesOf ;;
  ret (collectFromCurrentPage summaries collected).

Definition loadMoreSelector : jsstring :=
  js "button:has-text('Load more'), button:has-text('Show more'), [data-testid*='load-more']".

(** The first loop of [tryLoadMoreAndScroll], with [budget = 20 - i]. *)
Fixpoint loadMoreLoop (budget : nat) (collected : JsMap.t DiscussionSummary.t)
  : Eff (JsMap.t DiscussionSummary.t) :=
  match budget with
  | 0 => ret collected
  | S budget' =>
      visible <- peek (fun p => match moreVisible p with
                                | Some b => b
                                | None => false
                                end) ;;
      if negb visible then ret collected else
      attempt (Click loadMoreSelector 0) loadMore ;;
      delay (Fixed 500%N) ;;
      collected' <- collectStep collected ;;
      loadMoreLoop budget' collected'
  end.

(** The second loop, "until height stops growing". *)
Fixpoint scrollLoop (budget : nat) (collected : JsMap.t DiscussionSummary.t)
  : Eff (JsMap.t DiscussionSummary.t) :=
  match budget with
  | 0 => ret collected
  | S budget' =>
      prev <- read scrollHeight ;;
      attempt (Wheel 2000%N) (fun p => wheel p 2000%N) ;;
      delay (Fixed 500%N) ;;
      next <- read scrollHeight ;;
      collected' <- collectStep collected ;;
      if (next <=? prev)%N then ret collected'
      else scrollLoop budget' collected'
  end.

Definition tryLoadMoreAndScroll (collected : JsMap.t DiscussionSummary.t)
  : Eff (JsMap.t DiscussionSummary.t) :=
  collected' <- loadMoreLoop 20 collected ;;
  scrollLoop 20 collected'.

(** [visitedPages.add(u)] on a [Set] kept in insertion order. *)
Definition add (set : list jsstring) (u : jsstring) : list jsstring :=
  if has set u then set else set ++ [u].

(** [while (current)]: one listing page per turn.  The loop has no bound
    of its own; [fuel] bounds the turns, and [None] is returned when it
    runs out. *)
Fixpoint pages (fuel : nat) (current : option jsstring)
    (visitedPages : list jsstring) (collected : JsMap.t DiscussionSummary.t)
  : Eff (option (JsMap.t DiscussionSummary.t)) :=
  match current with
  | None => ret (Some collected)
  | Some u =>
      if negb (truthy u) then ret (Some collected)
      else if has visitedPages u then ret (Some collected)
      else
        match fuel with
        | 0 => ret None
        | S fuel' =>
            attempt (Goto u) (gotoIdle u) ;;
            let visitedPages := add visitedPages u in
            act WaitForSelector waitForItems ;;
            collected <- collectStep collected ;;
            collected <- tryLoadMoreAndScroll collected ;;
            href <- peek nextHref ;;
            match href with
            | Some h =>
                if truthy h then
                  next <- read (fun _ => resolve h u) ;;
                  pages fuel' (Some next) visitedPages collected
                else pages fuel' None visitedPages collected
            | None => pages fuel' None visitedPages collected
            end
        end
  end.

(** [scrapeDiscussionList(page, topicUrl)]: the listing pages, then the
    discussions. *)
Definition scrapeDiscussionListFrom (fuel : nat) (topicUrl : jsstring)
  : Eff (option (list DiscussionDetail.t)) :=
  r <- pages fuel (Some topicUrl) [] (JsMap.empty DiscussionSummary.t) ;;
  match r with
  | Some collected =>
      allDetails <- scrapeDiscussionList collected ;;
      ret (Some allDetails)
  | None => ret None
  end.

End WithListing.
End Crawler.

(** Every next link that a page shows resolves, against a URL of
    [site], to a URL of [site]. *)
Definition within {Page exn : Type} {listing : Listing Page exn}
    (site : list jsstring) : Prop :=
  forall (q : Page) h u next,
    nextHref q = Some h -> In u site -> resolve h u = inr next ->
    In next site.

(** The store obtained from [collected] by successive sightings. *)
Definition grown (collected : JsMap.t DiscussionSummary.t)
    (sightings : list (list DiscussionSummary.t))
  : JsMap.t DiscussionSummary.t :=
  fold_left (fun c summaries => Scraper.collectFromCurrentPage summaries c)
    sightings collected.

Definition is_goto (ev : event) : bool :=
  match ev with Goto _ => true | _ => false end.

(** The run makes at most [a] control activations and [w] scroll steps. *)
Definition capped {P E A} (a w : nat) (m : M P E A) : Prop :=
  forall p, activations (trace_of (m p)) <= a /\ rounds (trace_of (m p)) <= w.

(** A run that returns has made [w] scroll steps or more. *)
Definition scrolled {P E A} (w : nat) (m : M P E A) : Prop :=
  forall p a, value_of (m p) = inr a -> w <= rounds (trace_of (m p)).

(** [summaries] is what the row callback gives at some state of the
    page. *)
Definition sighted {Page exn : Type} {listing : Listing Page exn}
    (summaries : list DiscussionSummary.t) : Prop :=
  exists q : Page, summariesOf q = inr summaries.

(** The value of a run that returns is the store [c] grown by sightings
    of the page. *)
Definition extends {Page exn : Type} {listing : Listing Page exn}
    (c : JsMap.t DiscussionSummary.t)
    (m : M Page exn (JsMap.t DiscussionSummary.t)) : Prop :=
  forall p c',
    value_of (m p) = inr c' ->
    exists sightings, c' = grown c sightings /\ Forall sighted sightings.

Definition extends_opt {Page exn : Type} {listing : Listing Page exn}
    (c : JsMap.t DiscussionSummary.t)
    (m : M Page exn (option (JsMap.t DiscussionSummary.t))) : Prop :=
  forall p c',
    value_of (m p) = inr (Some c') ->
    exists sightings, c' = grown c sightings /\ Forall sighted sightings.

(** The store holds every row that has a URL. *)
Definition holds (c : JsMap.t DiscussionSummary.t)
    (rows : list DiscussionSummary.t) : Prop :=
  forall d, In d rows -> truthy (DiscussionSummary.url d) = true ->
            JsMap.has c (DiscussionSummary.url d) = true.

(** The store holds every row that the page shows. *)
Definition shows {Page exn : Type} {listing : Listing Page exn}
    (c : JsMap.t DiscussionSummary.t) (p : Page) : Prop :=
  exists rows, summariesOf p = inr rows /\ holds c rows.

(** From a page that satisfies [Pre], a run that returns leaves a value
    and a page that satisfy [Post]. *)
Definition hoare {P E A} (Pre : P -> Prop) (m : M P E A)
    (Post : A -> P -> Prop) : Prop :=
  forall p, Pre p -> forall a, value_of (m p) = inr a -> Post a (page_of (m p)).

Definition anywhere {P : Type} (p : P) : Prop := True.

(** The store that the page loop returns holds every row that the page
    shows at the end. *)
Definition shows_opt {Page exn : Type} {listing : Listing Page exn}
    (r : option (JsMap.t DiscussionSummary.t)) (p : Page) : Prop :=
  match r with
  | Some c => shows c p
  | None => True
  end.

(** No navigation in the run. *)
Definition stays {P E A} (m : M P E A) : Prop :=
  emits (fun ev => negb (is_goto ev)) m.

(** A turn of the page loop, with what follows it as [k]. *)
Definition turn {Page exn R : Type} {accessor : Accessor Page exn}
    {listing : Listing Page exn}
    (k : option jsstring -> JsMap.t DiscussionSummary.t -> M Page exn R)
    (u : jsstring) (c : JsMap.t DiscussionSummary.t) : M Page exn R :=
  bind (attempt (Goto u) (gotoIdle u))
    (fun _ =>
       bind (act WaitForSelector waitForItems)
         (fun _ =>
            bind (Crawler.collectStep c)
              (fun c1 =>
                 bind (Crawler.tryLoadMoreAndScroll c1)
                   (fun c2 =>
                      bind (peek nextHref)
                        (fun href =>
                           match href with
                           | Some h =>
                               if truthy h then
                                 bind (Crawler.read (fun _ => resolve h u))
                                   (fun next => k (Some next) c2)
                               else k None c2
                           | None => k None c2
                           end))))).

(** Where a turn leads: nowhere, or to a URL that a next link shown by
    a page resolves to. *)
Definition leads {Page exn : Type} {listing : Listing Page exn}
    (u : jsstring) (next : option jsstring) : Prop :=
  match next with
  | Some n => exists (q : Page) h, nextHref q = Some h /\ resolve h u = inr n
  | None => True
  end.

(** The outcomes of the discussions in a run of the driver loop from the
    page [p]: the record pushed, or [None] for a discussion whose
    extraction threw. *)
Fixpoint outcomes {Page exn : Type} {accessor : Accessor Page exn}
    (ds : list DiscussionSummary.t) (p : Page)
  : list (option DiscussionDetail.t) :=
  match ds with
  | [] => []
  | d :: ds' =>
      let o := Scraper.scrapeDiscussionDetail (DiscussionSummary.url d)
                 (sleep (Random 1000%N 3000%N) p) in
      match value_of o with
      | inr full =>
          Some (Outcome.overwrite d full) :: outcomes ds' (page_of o)
      | inl _ => None :: outcomes ds' (sleep (Fixed 5000%N) (page_of o))
      end
  end.

(** A topic of two listing pages on one origin: the first links to the
    second by a query, the second back to the first by its path.
    Navigation to any other address is refused. *)
Module Site.

Definition origin : jsstring := js "https://community.example".
Definition home : jsstring := js "https://community.example/topics".
Definition second : jsstring := js "https://community.example/topics?page=2".
Definition site : list jsstring := [home; second].

(** The part of a URL before its query. *)
Fixpoint beforeQuery (s : jsstring) : jsstring :=
  match s with
  | [] => []
  | x :: s' => if Ascii.eqb x "?" then [] else x :: beforeQuery s'
  end.

(** [new URL(href, base).toString()] for the links of the sample: the
    base is a URL of the sample's origin without fragment, and the link
    is empty, a query or an absolute path; any other pair is refused. *)
Definition resolveLink (h u : jsstring) : unit + jsstring :=
  if startsWith origin u then
    match h with
    | [] => inr u
    | x :: _ =>
        if Ascii.eqb x "?" then inr (beforeQuery u ++ h)
        else if Ascii.eqb x "/" then inr (origin ++ h)
        else inl tt
    end
  else inl tt.

#[local] Instance paged : Listing nat unit := {|
  gotoIdle := fun url p =>
    if JS.eqb url home then (100, None)
    else if JS.eqb url second then (200, None)
    else (p, Some tt);
  waitForItems := fun p => p;
  summariesOf := fun p =>
    if p =? 100 then inr Sample.firstPage
    else if p =? 200 then inr Sample.nextPage
    else inr [];
  moreVisible := fun p => Some false;
  loadMore := fun p => (p, None);
  scrollHeight := fun p => inr 900%N;
  nextHref := fun p =>
    if p =? 100 then Some (js "?page=2")
    else if p =? 200 then Some (js "/topics")
    else None;
  resolve := resolveLink
|}.

End Site.

(** The record of a run that returns is built from what the page shows
    at the end of the run. *)
Definition from_final_page {Page exn : Type} {accessor : Accessor Page exn}
    (url : jsstring) (o : (exn + DiscussionDetail.t) * Page * list event)
  : Prop :=
  forall full,
    value_of o = inr full ->
    exists snap, observe (page_of o) = inr snap /\ full = Detail.build url snap.

(* ================================================================== *)
(** ** Sample candidates *)
(* ================================================================== *)

Module Pages.
Import Harvest.

(** A discussion page whose first selector finds the main post alone,
    whose second selector throws and whose third finds the main post and
    two replies. *)
Definition post (author body : string) : ReplyElement :=
  mkReplyElement (Some (js body)) None (Some (js author)) (Some (js "1h"))
    None (Some (js "3 likes")).

Definition query (selector : jsstring) : option (list ReplyElement) :=
  if JS.eqb selector (js "article") then Some [post "maria" "Question"]
  else if JS.eqb selector (js "li[data-testid^='message']") then None
  else Some [ post "maria" "Question"; post "lee" "2 Replies First answer";
              post "kim" "Second answer" ].

End Pages.

(* ================================================================== *)
(** ** Proxy configuration *)
(* ================================================================== *)

Module Proxy.

(** [s.split(sep)] for a separator of one code unit; [cur] is the
    current piece, reversed. *)
Fixpoint split_on (sep : ascii) (s : jsstring) (cur : jsstring)
  : list jsstring :=
  match s with
  | [] => [rev cur]
  | x :: s' =>
      if Ascii.eqb x sep then rev cur :: split_on sep s' []
      else split_on sep s' (x :: cur)
  end.

Definition splitOn (sep : ascii) (s : jsstring) : list jsstring :=
  split_on sep s [].

Definition proxyFlag : jsstring := js "--proxy=".

(** [process.argv.find(arg => arg.startsWith('--proxy='))?.split('=')[1]] *)
Definition proxyArg (argv : list jsstring) : option jsstring :=
  match find (startsWith proxyFlag) argv with
  | Some arg => nth_error (splitOn "=" arg) 1
  | None => None
  end.

(** [process.env.PROXY_URL || ...]; [None] for [undefined]. *)
Definition proxyString (env : option jsstring) (argv : list jsstring)
  : option jsstring :=
  match env with
  | Some v => if truthy v then Some v else proxyArg argv
  | None => proxyArg argv
  end.

(** The properties of a [URL] that the configuration reads. *)
Record Url : Type := mkUrl {
  protocol : jsstring;
  host : jsstring;
  username : jsstring;
  password : jsstring
}.

Record ProxyConfig : Type := mkProxyConfig {
  server : jsstring;
  cfg_username : option jsstring;
  cfg_password : option jsstring
}.

(** [s || undefined] *)
Definition orUndefined (s : jsstring) : option jsstring :=
  if truthy s then Some s else None.

Definition configOf (url : Url) : ProxyConfig :=
  mkProxyConfig (protocol url ++ js "//" ++ host url)
    (orUndefined (username url)) (orUndefined (password url)).

(** [getProxyConfig()]: the configuration, [None] for [undefined], and
    the proxy texts warned about.  [parseURL] stands for [new URL],
    [None] when it throws. *)
Definition getProxyConfig (parseURL : jsstring -> option Url)
    (env : option jsstring) (argv : list jsstring)
  : option ProxyConfig * list jsstring :=
  match proxyString env argv with
  | Some proxy =>
      if negb (truthy proxy) then (None, [])
      else
        match parseURL proxy with
        | Some url => (Some (configOf url), [])
        | None => (None, [proxy])
        end
  | None => (None, [])
  end.

End Proxy.

(* ================================================================== *)
(** ** User agents *)
(* ================================================================== *)

Module Agent.
Import Numbers.

Definition userAgents : list jsstring :=
  [ js "Mozilla/5.0 (Windows NT 10.0; Win64; x64) AppleWebKit/537.36 (KHTML, like Gecko) Chrome/120.0.0.0 Safari/537.36";
    js "Mozilla/5.0 (Windows NT 10.0; Win64; x64) AppleWebKit/537.36 (KHTML, like Gecko) Chrome/119.0.0.0 Safari/537.36";
    js "Mozilla/5.0 (Macintosh; Intel Mac OS X 10_15_7) AppleWebKit/537.36 (KHTML, like Gecko) Chrome/120.0.0.0 Safari/537.36";
    js "Mozilla/5.0 (X11; Linux x86_64) AppleWebKit/537.36 (KHTML, like Gecko) Chrome/120.0.0.0 Safari/537.36";
    js "Mozilla/5.0 (Windows NT 10.0; Win64; x64; rv:121.0) Gecko/20100101 Firefox/121.0" ].

(** A double from zero up to one, as [Math.random()] gives: the number
    [mantissa / 2 ^ exponent]. *)
Record fraction : Type := mkFraction {
  mantissa : N;
  exponent : N
}.

(** The fraction is a double below one. *)
Definition proper (r : fraction) : bool :=
  (mantissa r <? 2 ^ 53)%N && (mantissa r <? 2 ^ exponent r)%N
  && (exponent r <=? 1074)%N.

(** [Math.floor(r * n)]: the product is rounded to the nearest double,
    which is [round53] of the product of the mantissa over the same
    power of two. *)
Definition floorTimes (r : fraction) (n : N) : N :=
  match round53 (mantissa r * n) with
  | Some v => (v / 2 ^ exponent r)%N
  | None => 0%N
  end.

(** [userAgents[Math.floor(Math.random() * userAgents.length)]], [None]
    for [undefined]. *)
Definition getRandomUserAgent (random : fraction) : option jsstring :=
  nth_error userAgents
    (N.to_nat (floorTimes random (N.of_nat (length userAgents)))).

End Agent.

(* ================================================================== *)
(** ** Facts on strings *)
(* ================================================================== *)

Module JSFacts.

Lemma eqb_eq (a b : jsstring) : JS.eqb a b = true <-> a = b.
Proof.
  revert b. induction a as [|x a IH]; intros [|y b]; simpl;
    try (split; congruence).
  rewrite andb_true_iff, Ascii.eqb_eq, IH. split.
  - intros [-> ->]. reflexivity.
  - intros H. injection H as -> ->. auto.
Qed.

Lemma eqb_refl (a : jsstring) : JS.eqb a a = true.
Proof. now apply eqb_eq. Qed.

Lemma eqb_neq (a b : jsstring) : JS.eqb a b = false <-> a <> b.
Proof.
  rewrite <- eqb_eq. destruct (JS.eqb a b); split; congruence.
Qed.

End JSFacts.

(* ================================================================== *)
(** ** Facts on the matcher *)
(* ================================================================== *)

Module RegexFacts.
Import RegexDefs.

Section WithAnswer.
Variable A : Type.
Implicit Types (k : cont A) (r : regex) (s w : jsstring) (c : caps).

Lemma run_seqs_cons r (rs : list regex) prev s c k :
  run (seqs (r :: rs)) prev s c k
  = run r prev s c (fun prev' s' c' => run (seqs rs) prev' s' c' k).
Proof. destruct rs; reflexivity. Qed.

Lemma rep_class (p : ascii -> bool) k (fuel : nat) :
  forall lo hi prev s c,
    lo + length s <= fuel ->
    rep_loop (fun prev' s' c' k' => run (Class p) prev' s' c' k') k
      fuel lo hi prev s c
    = greedy p lo hi prev s c k.
Proof.
  induction fuel as [|fuel IH]; intros lo hi prev s c Hf.
  - assert (lo = 0) by lia. assert (s = []) by (destruct s; simpl in *; [reflexivity|lia]).
    subst. simpl. now destruct (hi_is_zero hi).
  - cbn [rep_loop]. destruct s as [|x s]; cbn [greedy run].
    + destruct (hi_is_zero hi); [reflexivity|]. destruct lo; reflexivity.
    + destruct (hi_is_zero hi); [reflexivity|].
      destruct lo as [|lo]; cbn [Nat.eqb pred].
      * destruct (p x); [|reflexivity].
        assert (L : (length s <? length (x :: s)) = true)
          by (apply Nat.ltb_lt; simpl; lia).
        rewrite L, IH by (simpl in *; lia). reflexivity.
      * destruct (p x); [|reflexivity].
        rewrite IH by (simpl in *; lia).
        now destruct (greedy p lo (dec_hi hi) (Some x) s c k).
Qed.

Lemma run_rep_class (p : ascii -> bool) (lo : nat) (hi : option nat)
    prev s c k :
  run (Rep lo hi (Class p)) prev s c k = greedy p lo hi prev s c k.
Proof. cbn [run]. now apply rep_class. Qed.

(** The longest run is tried first. *)
Lemma greedy_longest (p : ascii -> bool) w :
  forall (lo : nat) prev s c k (a : A),
    forallb p w = true -> stops p s = true -> lo <= length w ->
    k (after prev w) s c = Some a ->
    greedy p lo None prev (w ++ s) c k = Some a.
Proof.
  induction w as [|x w IH]; intros lo prev s c k a Hw Hs Hl Hk.
  - simpl in Hl. assert (lo = 0) by lia. subst. simpl in *.
    destruct s as [|y s]; simpl in *; [exact Hk|].
    apply negb_true_iff in Hs. now rewrite Hs.
  - simpl in Hw. apply andb_true_iff in Hw. destruct Hw as [Hx Hw].
    cbn [app greedy hi_is_zero dec_hi option_map]. rewrite Hx.
    rewrite (IH (pred lo) (Some x) s c k a); auto. simpl in Hl. lia.
Qed.

(** A literal text under the i flag. *)
Lemma run_lit_i w :
  forall prev s c k,
    run (seqs (map chr_i w)) prev s c k
    = if startsWith_ci w s then k (after prev (firstn (length w) s))
                                  (skipn (length w) s) c
      else None.
Proof.
  induction w as [|x w IH]; intros prev s c k; [reflexivity|].
  cbn [map]. rewrite run_seqs_cons. cbn [run chr_i].
  destruct s as [|y s]; [reflexivity|].
  cbn [startsWith_ci length firstn skipn after]. unfold eqb_ci.
  destruct (Ascii.eqb (canonicalize y) (canonicalize x)); [|reflexivity].
  simpl. apply IH.
Qed.

(** The continuation is only entered on suffixes of the input. *)
Lemma rep_loop_none
    (body : option ascii -> jsstring -> caps -> cont A -> option A) k
    (Q : jsstring -> Prop) :
  (forall x s, Q (x :: s) -> Q s) ->
  (forall prev s c k',
     Q s -> (forall prev' s' c', Q s' -> k' prev' s' c' = None) ->
     body prev s c k' = None) ->
  (forall prev s c, Q s -> k prev s c = None) ->
  forall fuel lo hi prev s c,
    Q s -> rep_loop body k fuel lo hi prev s c = None.
Proof.
  intros Qs Hb Hk. induction fuel as [|fuel IH]; intros lo hi prev s c HQ.
  - simpl. destruct (hi_is_zero hi); now apply Hk.
  - cbn [rep_loop]. destruct (hi_is_zero hi); [now apply Hk|].
    destruct lo as [|lo].
    + rewrite Hb; [now apply Hk | exact HQ |].
      intros prev' s' c' HQ'. destruct (length s' <? length s); [|reflexivity].
      now apply IH.
    + apply Hb; [exact HQ|]. intros prev' s' c' HQ'. now apply IH.
Qed.

Lemma run_none (Q : jsstring -> Prop) :
  (forall x s, Q (x :: s) -> Q s) ->
  forall r prev s c k,
    Q s -> (forall prev' s' c', Q s' -> k prev' s' c' = None) ->
    run r prev s c k = None.
Proof.
  intros Qs. induction r as [|p|r1 IH1 r2 IH2|r1 IH1 r2 IH2|lo hi r IH|i r IH| | |];
    intros prev s c k HQ Hk; cbn [run].
  - now apply Hk.
  - destruct s as [|x s]; [reflexivity|].
    destruct (p x); [|reflexivity]. apply Hk. eapply Qs. exact HQ.
  - apply IH1; [exact HQ|]. intros prev' s' c' HQ'. now apply IH2.
  - rewrite IH1 by assumption. now apply IH2.
  - apply rep_loop_none with (Q := Q); assumption.
  - apply IH; [exact HQ|]. intros prev' s' c' HQ'. now apply Hk.
  - destruct prev; [reflexivity|]. now apply Hk.
  - destruct s; [|reflexivity]. now apply Hk.
  - destruct (at_boundary prev s); [|reflexivity]. now apply Hk.
Qed.

(** *** The fuel of the quantifier loop *)

(** The matcher reads its continuation only at inputs no longer than its
    own. *)
Lemma rep_loop_ext
    (body : option ascii -> jsstring -> caps -> cont A -> option A) k1 k2
    (n : nat) :
  (forall prev s c k k',
     length s <= n ->
     (forall prev' s' c', length s' <= length s -> k prev' s' c' = k' prev' s' c') ->
     body prev s c k = body prev s c k') ->
  (forall prev s c, length s <= n -> k1 prev s c = k2 prev s c) ->
  forall fuel lo hi prev s c,
    length s <= n ->
    rep_loop body k1 fuel lo hi prev s c = rep_loop body k2 fuel lo hi prev s c.
Proof.
  intros Hb Hk. induction fuel as [|fuel IH]; intros lo hi prev s c Hs.
  - simpl. destruct (hi_is_zero hi); now apply Hk.
  - cbn [rep_loop]. destruct (hi_is_zero hi); [now apply Hk|].
    destruct lo as [|lo].
    + rewrite Hk by exact Hs.
      rewrite (Hb prev s c _
                 (fun prev' s' c' =>
                    if length s' <? length s
                    then rep_loop body k2 fuel 0 (dec_hi hi) prev' s' c'
                    else None)); [reflexivity | exact Hs |].
      intros prev' s' c' Hs'. destruct (length s' <? length s); [|reflexivity].
      apply IH. lia.
    + apply Hb; [exact Hs|]. intros prev' s' c' Hs'. apply IH. lia.
Qed.

Lemma run_ext r :
  forall prev s c k1 k2,
    (forall prev' s' c', length s' <= length s -> k1 prev' s' c' = k2 prev' s' c') ->
    run r prev s c k1 = run r prev s c k2.
Proof.
  induction r as [|p|r1 IH1 r2 IH2|r1 IH1 r2 IH2|lo hi r IH|i r IH| | |];
    intros prev s c k1 k2 H; cbn [run].
  - now apply H.
  - destruct s as [|x s]; [reflexivity|].
    destruct (p x); [|reflexivity]. apply H. simpl. lia.
  - apply IH1. intros prev' s' c' Hs'. apply IH2.
    intros prev'' s'' c'' Hs''. apply H. lia.
  - rewrite (IH1 prev s c k1 k2 H), (IH2 prev s c k1 k2 H). reflexivity.
  - apply rep_loop_ext with (n := length s); [| exact H | lia].
    intros prev' s' c' k k' _ Hk. now apply IH.
  - apply IH. intros prev' s' c' Hs'. now apply H.
  - destruct prev; [reflexivity|]. now apply H.
  - destruct s; [|reflexivity]. now apply H.
  - destruct (at_boundary prev s); [|reflexivity]. now apply H.
Qed.

(** More fuel than [lo + length s] changes nothing: the loop never stops
    for want of fuel. *)
Lemma rep_loop_fuel r k (fuel1 : nat) :
  forall fuel2 lo hi prev s c,
    lo + length s <= fuel1 -> lo + length s <= fuel2 ->
    rep_loop (fun prev' s' c' k' => run r prev' s' c' k') k fuel1 lo hi prev s c
    = rep_loop (fun prev' s' c' k' => run r prev' s' c' k') k fuel2 lo hi prev s c.
Proof.
  induction fuel1 as [|fuel1 IH]; intros fuel2 lo hi prev s c H1 H2.
  - assert (lo = 0) by lia.
    assert (s = []) by (destruct s; simpl in *; [reflexivity | lia]).
    subst. destruct fuel2 as [|fuel2]; [reflexivity|].
    cbn [rep_loop]. destruct (hi_is_zero hi); [reflexivity|].
    rewrite run_none with (Q := fun _ => True); auto.
  - destruct fuel2 as [|fuel2].
    + assert (lo = 0) by lia.
      assert (s = []) by (destruct s; simpl in *; [reflexivity | lia]).
      subst. cbn [rep_loop]. destruct (hi_is_zero hi); [reflexivity|].
      rewrite run_none with (Q := fun _ => True); auto.
    + cbn [rep_loop]. destruct (hi_is_zero hi); [reflexivity|].
      destruct lo as [|lo].
      * rewrite (run_ext r prev s c _
                   (fun prev' s' c' =>
                      if length s' <? length s
                      then rep_loop (fun prev0 s0 c0 k' => run r prev0 s0 c0 k')
                             k fuel2 0 (dec_hi hi) prev' s' c'
                      else None)); [reflexivity|].
        intros prev' s' c' Hs'.
        destruct (length s' <? length s) eqn:L; [|reflexivity].
        apply Nat.ltb_lt in L. apply IH; simpl in *; lia.
      * apply run_ext. intros prev' s' c' Hs'. apply IH; simpl in *; lia.
Qed.

End WithAnswer.

Lemma mentions_tail (w : jsstring) (x : ascii) (s : jsstring) :
  mentions w (x :: s) = false -> mentions w s = false.
Proof. simpl. intros H. now apply orb_false_iff in H. Qed.

Lemma mentions_head (w s : jsstring) :
  mentions w s = false -> startsWith_ci w s = false.
Proof. destruct s; simpl; intros H; now apply orb_false_iff in H. Qed.

(** A sequence with a literal text in it finds no match in an input that
    does not contain the text. *)
Lemma run_seqs_none (A : Type) (w : jsstring) (post : list regex)
    (pre : list regex) :
  forall prev s c (k : cont A),
    mentions w s = false ->
    run (seqs (pre ++ seqs (map chr_i w) :: post)) prev s c k = None.
Proof.
  induction pre as [|r pre IH]; intros prev s c k H.
  - cbn [app]. rewrite run_seqs_cons, run_lit_i.
    now rewrite (mentions_head _ _ H).
  - cbn [app]. rewrite run_seqs_cons.
    apply run_none with (Q := fun s => mentions w s = false).
    + intros x s0. apply mentions_tail.
    + exact H.
    + intros prev' s' c' H'. now apply IH.
Qed.

Lemma startsWith_ci_app (w w' s : jsstring) :
  startsWith_ci (w ++ w') s = true -> startsWith_ci w s = true.
Proof.
  revert s. induction w as [|c w IH]; intros s; [reflexivity|].
  destruct s as [|x s]; simpl; [congruence|].
  rewrite !andb_true_iff. intros [E H]. split; [exact E|]. now apply IH.
Qed.

Lemma mentions_app (w w' s : jsstring) :
  mentions w s = false -> mentions (w ++ w') s = false.
Proof.
  induction s as [|x s IH]; simpl.
  - rewrite !orb_false_r. intros H.
    destruct (startsWith_ci (w ++ w') []) eqn:E; [|reflexivity].
    apply startsWith_ci_app in E. congruence.
  - rewrite !orb_false_iff. intros [H1 H2]. split; [|now apply IH].
    destruct (startsWith_ci (w ++ w') (x :: s)) eqn:E; [|reflexivity].
    apply startsWith_ci_app in E. congruence.
Qed.

(** *** Search, replace and split *)

Lemma consumed_app (w s : jsstring) : consumed (w ++ s) s = w.
Proof.
  unfold consumed. rewrite length_app.
  replace (length w + length s - length s) with (length w) by lia.
  now rewrite firstn_app, firstn_all, Nat.sub_diag, app_nil_r.
Qed.



Lemma replace_nowhere (r : regex) (rep : jsstring) (s : jsstring) :
  forall prev, nowhere r prev s -> replace_from r rep prev s 0 = s.
Proof.
  induction s as [|x s IH]; intros prev [H1 H2]; cbn [replace_from].
  - now rewrite H1.
  - rewrite H1. f_equal. now apply IH.
Qed.

Lemma replace_skip (r : regex) (rep : jsstring) (w : jsstring) :
  forall prev s,
    replace_from r rep prev (w ++ s) (length w)
    = replace_from r rep (after prev w) s 0.
Proof.
  induction w as [|x w IH]; intros prev s; [reflexivity|].
  cbn [app length replace_from after]. apply IH.
Qed.

(** A match [w] at the current position is replaced and the scan goes on
    behind it. *)
Lemma replace_match (r : regex) (rep : jsstring) (x : ascii) (w s : jsstring)
    (prev : option ascii) (cs : caps) :
  exec_at r prev (x :: w ++ s) = Some (s, cs) ->
  replace_from r rep prev (x :: w ++ s) 0
  = rep ++ replace_from r rep (after prev (x :: w)) s 0.
Proof.
  intros H.
  assert (L : length (x :: w ++ s) - length s = S (length w))
    by (cbn [length]; rewrite length_app; lia).
  cbn [replace_from]. rewrite H. cbv beta iota. rewrite L.
  now rewrite replace_skip.
Qed.

Lemma replace_miss (r : regex) (rep : jsstring) (x : ascii) (s : jsstring)
    (prev : option ascii) :
  exec_at r prev (x :: s) = None ->
  replace_from r rep prev (x :: s) 0
  = x :: replace_from r rep (Some x) s 0.
Proof. intros H. cbn [replace_from]. now rewrite H. Qed.

End RegexFacts.

(* ================================================================== *)
(** ** Author inference *)
(* ================================================================== *)

Module AuthorFacts.
Import RegexDefs CleanDefs RegexFacts.

(** Case analysis over the 256 code units. *)
Ltac each_ascii x :=
  destruct x as [[] [] [] [] [] [] [] []]; vm_compute; try reflexivity;
  try congruence.

Lemma sep_not_word (x : ascii) : is_sep_char x = true -> is_word x = false.
Proof. each_ascii x. Qed.

Lemma sep_not_token (x : ascii) :
  is_sep_char x = true -> x <> "-"%char -> is_token_char x = false.
Proof. each_ascii x. Qed.

Lemma last_cons (x a b : ascii) (t : jsstring) :
  last (x :: t) a = last (x :: t) b.
Proof.
  revert x. induction t as [|y t IH]; intros x; [reflexivity|].
  change (last (y :: t) a = last (y :: t) b). apply IH.
Qed.

Lemma after_last (a : ascii) (t : jsstring) :
  after (Some a) t = Some (last t a).
Proof.
  revert a. induction t as [|x t IH]; intros a; [reflexivity|].
  cbn [after]. rewrite IH. destruct t as [|y t]; [reflexivity|].
  change (last (x :: y :: t) a) with (last (y :: t) a).
  f_equal. apply last_cons.
Qed.

Lemma after_app (prev : option ascii) (a b : jsstring) :
  after prev (a ++ b) = after (after prev a) b.
Proof. revert prev. induction a; intros prev; simpl; auto. Qed.

Lemma search_here (r : regex) (prev : option ascii) (s : jsstring)
    (m : jsstring * caps) :
  exec_at r prev s = Some m -> search r prev s = Some m.
Proof. intros H. destruct s; simpl; now rewrite H. Qed.

(** A pattern that starts with [^] only matches at the start. *)
Lemma search_bol (rs : list regex) (s : jsstring) :
  forall x, search (seqs (Bol :: rs)) (Some x) s = None.
Proof.
  induction s as [|y s IH]; intros x; cbn [search]; unfold exec_at;
    rewrite run_seqs_cons; cbn [run]; [reflexivity | apply IH].
Qed.

Lemma search_anchored (rs : list regex) (s : jsstring) :
  search (seqs (Bol :: rs)) None s = exec_at (seqs (Bol :: rs)) None s.
Proof.
  destruct s as [|x s]; cbn [search];
    destruct (exec_at (seqs (Bol :: rs)) None _); try reflexivity.
  apply search_bol.
Qed.

(** The match of the author pattern on a token, a separator run and a
    remainder. *)
Lemma author_match (a y : ascii) (t sep rest : jsstring) :
  is_alpha a = true ->
  forallb is_token_char t = true -> 2 <= length t ->
  is_word (last t a) = true ->
  forallb is_sep_char (y :: sep) = true -> y <> "-"%char ->
  stops is_sep_char rest = true ->
  forallb (fun x => negb (is_line_terminator x)) rest = true ->
  match_ re_author ((a :: t) ++ (y :: sep) ++ rest)
  = Some [(2, rest); (1, a :: t)].
Proof.
  intros Ha Ht Hl Hw Hsep Hy Hrest Hdot.
  assert (Hy' : is_sep_char y = true)
    by (simpl in Hsep; now apply andb_true_iff in Hsep).
  assert (E : exec_at re_author None ((a :: t) ++ (y :: sep) ++ rest)
              = Some ([], [(2, rest); (1, a :: t)])).
  { unfold exec_at, re_author.
    rewrite run_seqs_cons. cbn [run].
    rewrite run_seqs_cons. cbn [run app]. rewrite Ha.
    unfold at_least.
    change (rep_loop _ _ _ _ _ _ _ _)
      with (run (Rep 2 None (Class is_token_char)) (Some a)
              (t ++ (y :: sep) ++ rest) []
              (fun prev' s' c' =>
                 run (seqs [WordB; plus (Class is_sep_char);
                            Group 2 (star dot); Eol]) prev' s'
                   ((1, consumed (a :: t ++ (y :: sep) ++ rest) s') :: c')
                   (fun _ s'' c'' => Some (s'', c'')))).
    rewrite run_rep_class.
    apply greedy_longest; [exact Ht | | exact Hl |].
    { cbn [app stops]. now rewrite sep_not_token. }
    change (consumed (a :: t ++ y :: sep ++ rest) (y :: sep ++ rest))
      with (consumed ((a :: t) ++ (y :: sep ++ rest)) (y :: sep ++ rest)).
    rewrite consumed_app, after_last.
    rewrite run_seqs_cons. cbn [run].
    unfold at_boundary. cbn [word_before word_after app].
    rewrite Hw, (sep_not_word _ Hy'). cbn [xorb].
    rewrite run_seqs_cons. unfold plus. rewrite run_rep_class.
    change (y :: sep ++ rest) with ((y :: sep) ++ rest) at 1.
    apply greedy_longest; [exact Hsep | exact Hrest | simpl; lia |].
    rewrite run_seqs_cons. cbn [run]. unfold star, dot.
    change (rep_loop _ _ _ _ _ _ _ _)
      with (run (Rep 0 None (Class (fun x => negb (is_line_terminator x))))
              (after (Some (last t a)) (y :: sep)) rest [(1, a :: t)]
              (fun prev' s' c' =>
                 run (seqs [Eol]) prev' s' ((2, consumed rest s') :: c')
                   (fun _ s'' c'' => Some (s'', c'')))).
    rewrite run_rep_class.
    rewrite <- (app_nil_r rest) at 1.
    apply greedy_longest; [exact Hdot | reflexivity | lia |].
    cbn [seqs run]. unfold consumed. cbn [length].
    now rewrite Nat.sub_0_r, firstn_all. }
  unfold match_. unfold re_author in *. rewrite search_anchored, E.
  reflexivity.
Qed.

Lemma greedy_short (A : Type) (p : ascii -> bool) (s : jsstring) :
  forall (lo : nat) prev c (k : cont A),
    leading p s < lo -> greedy p lo None prev s c k = None.
Proof.
  induction s as [|x s IH]; intros lo prev c k H; cbn [greedy hi_is_zero].
  - destruct lo; [simpl in H; lia | reflexivity].
  - simpl in H. destruct (p x).
    + destruct lo as [|lo]; [lia|]. cbn [pred dec_hi option_map].
      rewrite IH by lia. reflexivity.
    + destruct lo; [lia | reflexivity].
Qed.

Lemma alpha_token (x : ascii) : is_alpha x = true -> is_token_char x = true.
Proof. each_ascii x. Qed.

(** No match when the leading token run has fewer than three units. *)
Lemma author_no_match (content : jsstring) :
  leading is_token_char content < 3 -> match_ re_author content = None.
Proof.
  intros H. unfold match_, re_author. rewrite search_anchored. unfold exec_at.
  rewrite run_seqs_cons. cbn [run].
  rewrite run_seqs_cons. cbn [run].
  destruct content as [|x s]; [reflexivity|].
  destruct (is_alpha x) eqn:Hx; [|reflexivity].
  unfold at_least.
  change (rep_loop _ _ _ _ _ _ _ _)
    with (run (Rep 2 None (Class is_token_char)) (Some x) s []
            (fun prev' s' c' =>
               run (seqs [WordB; plus (Class is_sep_char);
                          Group 2 (star dot); Eol]) prev' s'
                 ((1, consumed (x :: s) s') :: c')
                 (fun _ s'' c'' => Some (s'', c'')))).
  rewrite run_rep_class, greedy_short; [reflexivity|].
  simpl in H. rewrite (alpha_token _ Hx) in H. lia.
Qed.

(** The result on a token, a separator run and a remainder. *)
Lemma extract_token (a y : ascii) (t sep rest : jsstring) :
  is_alpha a = true ->
  forallb is_token_char t = true -> 2 <= length t ->
  is_word (last t a) = true ->
  forallb is_sep_char (y :: sep) = true -> y <> "-"%char ->
  stops is_sep_char rest = true ->
  forallb (fun x => negb (is_line_terminator x)) rest = true ->
  extractAuthorFromContent ((a :: t) ++ (y :: sep) ++ rest)
  = if has blacklist (a :: t)
    then mkInferred None ((a :: t) ++ (y :: sep) ++ rest)
    else mkInferred (Some (a :: t)) (trim rest).
Proof.
  intros Ha Ht Hl Hw Hsep Hy Hrest Hdot.
  unfold extractAuthorFromContent.
  rewrite author_match by assumption.
  cbn [capture Nat.eqb]. now destruct (has blacklist (a :: t)).
Qed.

(** *** A token run that ends in hyphens *)

Lemma token_not_word (x : ascii) : is_token_char x = false -> is_word x = false.
Proof. each_ascii x. Qed.

Lemma hyphen_token (x : ascii) :
  Ascii.eqb "-" x = true -> is_token_char x = true.
Proof. each_ascii x. Qed.

Lemma hyphen_sep (x : ascii) :
  Ascii.eqb "-" x = true -> is_sep_char x = true.
Proof. each_ascii x. Qed.

Lemma hyphen_not_word (x : ascii) :
  Ascii.eqb "-" x = true -> is_word x = false.
Proof. each_ascii x. Qed.

Lemma forallb_impl (p q : ascii -> bool) (s : jsstring) :
  (forall x, p x = true -> q x = true) ->
  forallb p s = true -> forallb q s = true.
Proof.
  intros H. induction s as [|x s IH]; [reflexivity|]. simpl. intros E.
  apply andb_true_iff in E. destruct E as [E1 E2].
  now rewrite (H _ E1), IH.
Qed.

Lemma after_hyphens (h : jsstring) :
  forall prev x,
    forallb (Ascii.eqb "-"%char) (x :: h) = true ->
    word_before (after prev (x :: h)) = false.
Proof.
  induction h as [|y h IH]; intros prev x H.
  - simpl in H. apply andb_true_iff in H. destruct H as [H _].
    cbn [after word_before]. now apply hyphen_not_word.
  - change (after prev (x :: y :: h)) with (after (Some x) (y :: h)).
    apply IH. simpl in H. apply andb_true_iff in H. now destruct H.
Qed.

(** Every prefix of the run fails: the run as a whole fails. *)
Lemma greedy_all_fail (A : Type) (p : ascii -> bool) (h : jsstring) :
  forall prev s c (k : cont A),
    forallb p h = true -> stops p s = true ->
    (forall h1 h2, h = h1 ++ h2 -> k (after prev h1) (h2 ++ s) c = None) ->
    greedy p 0 None prev (h ++ s) c k = None.
Proof.
  induction h as [|x h IH]; intros prev s c k Hh Hs Hk.
  - pose proof (Hk [] [] eq_refl) as E. cbn [app after] in E |- *.
    destruct s as [|y s]; cbn [greedy hi_is_zero Nat.eqb]; [exact E|].
    simpl in Hs. apply negb_true_iff in Hs. now rewrite Hs.
  - simpl in Hh. apply andb_true_iff in Hh. destruct Hh as [Hx Hh].
    cbn [app greedy hi_is_zero dec_hi option_map pred]. rewrite Hx.
    rewrite IH; [| exact Hh | exact Hs |].
    + cbn [Nat.eqb]. apply (Hk [] (x :: h) eq_refl).
    + intros h1 h2 ->. apply (Hk (x :: h1) h2 eq_refl).
Qed.

(** The run gives back the code units after [w] when the continuation
    refuses every longer prefix. *)
Lemma greedy_backtrack (A : Type) (p : ascii -> bool) (w : jsstring) :
  forall lo prev h s c (k : cont A) (a : A),
    forallb p w = true -> forallb p h = true -> stops p s = true ->
    lo <= length w ->
    (forall x h1 h2,
       h = (x :: h1) ++ h2 ->
       k (after prev (w ++ x :: h1)) (h2 ++ s) c = None) ->
    k (after prev w) (h ++ s) c = Some a ->
    greedy p lo None prev (w ++ h ++ s) c k = Some a.
Proof.
  induction w as [|y w IH]; intros lo prev h s c k a Hw Hh Hs Hl Hk Ha.
  - simpl in Hl. assert (lo = 0) by lia. subst lo. cbn [app after] in *.
    destruct h as [|x h].
    + change (greedy p 0 None prev ([] ++ s) c k = Some a).
      now apply greedy_longest.
    + simpl in Hh. apply andb_true_iff in Hh. destruct Hh as [Hx Hh].
      cbn [app greedy hi_is_zero dec_hi option_map pred]. rewrite Hx.
      rewrite greedy_all_fail; [exact Ha | exact Hh | exact Hs |].
      intros h1 h2 ->. apply (Hk x h1 h2 eq_refl).
  - simpl in Hw. apply andb_true_iff in Hw. destruct Hw as [Hy Hw].
    cbn [app greedy hi_is_zero dec_hi option_map]. rewrite Hy.
    rewrite (IH (pred lo) (Some y) h s c k a); auto.
    simpl in Hl. lia.
Qed.

Lemma word_after_hyphens (h2 u : jsstring) :
  forallb (Ascii.eqb "-"%char) h2 = true ->
  stops is_token_char u = true ->
  word_after (h2 ++ u) = false.
Proof.
  intros H Hu. destruct h2 as [|y h2].
  - destruct u as [|z u]; [reflexivity|]. cbn [app word_after].
    simpl in Hu. apply negb_true_iff in Hu. now apply token_not_word.
  - simpl in H. apply andb_true_iff in H. destruct H as [H _].
    cbn [app word_after]. now apply hyphen_not_word.
Qed.

(** The match of the author pattern on a token, hyphens, further
    separators and a remainder: the hyphens are read as separators. *)
Lemma author_match_hyphens (a : ascii) (t h s rest : jsstring) :
  is_alpha a = true ->
  forallb is_token_char t = true -> 2 <= length t ->
  is_word (last t a) = true ->
  forallb (Ascii.eqb "-"%char) h = true -> h <> [] ->
  forallb is_sep_char s = true ->
  stops is_token_char (s ++ rest) = true ->
  stops is_sep_char rest = true ->
  forallb (fun x => negb (is_line_terminator x)) rest = true ->
  match_ re_author ((a :: t) ++ h ++ s ++ rest)
  = Some [(2, rest); (1, a :: t)].
Proof.
  intros Ha Ht Hl Hw Hh Hne Hs Hstop Hrest Hdot.
  assert (E : exec_at re_author None ((a :: t) ++ h ++ s ++ rest)
              = Some ([], [(2, rest); (1, a :: t)])).
  { unfold exec_at, re_author.
    rewrite run_seqs_cons. cbn [run].
    rewrite run_seqs_cons. cbn [run app]. rewrite Ha.
    unfold at_least.
    change (rep_loop _ _ _ _ _ _ _ _)
      with (run (Rep 2 None (Class is_token_char)) (Some a)
              (t ++ h ++ s ++ rest) []
              (fun prev' s' c' =>
                 run (seqs [WordB; plus (Class is_sep_char);
                            Group 2 (star dot); Eol]) prev' s'
                   ((1, consumed (a :: t ++ h ++ s ++ rest) s') :: c')
                   (fun _ s'' c'' => Some (s'', c'')))).
    rewrite run_rep_class.
    apply greedy_backtrack;
      [exact Ht | exact (forallb_impl _ _ _ hyphen_token Hh) | exact Hstop
      | exact Hl | |].
    { intros x h1 h2 ->. rewrite run_seqs_cons. cbn [run].
      rewrite forallb_app in Hh. apply andb_true_iff in Hh.
      destruct Hh as [Hh1 Hh2].
      unfold at_boundary. rewrite after_app.
      rewrite after_hyphens by exact Hh1.
      now rewrite word_after_hyphens by assumption. }
    destruct h as [|y h]; [now elim Hne|].
    assert (Hy : Ascii.eqb "-" y = true)
      by (simpl in Hh; now apply andb_true_iff in Hh).
    change (consumed (a :: t ++ (y :: h) ++ s ++ rest) ((y :: h) ++ s ++ rest))
      with (consumed ((a :: t) ++ ((y :: h) ++ s ++ rest))
              ((y :: h) ++ s ++ rest)).
    rewrite consumed_app, after_last.
    rewrite run_seqs_cons. cbn [run].
    unfold at_boundary. cbn [word_before word_after app].
    rewrite Hw, (hyphen_not_word _ Hy). cbn [xorb].
    rewrite run_seqs_cons. unfold plus. rewrite run_rep_class.
    change (y :: h ++ s ++ rest) with ((y :: h) ++ s ++ rest).
    rewrite app_assoc.
    apply greedy_longest;
      [ rewrite forallb_app, Hs, (forallb_impl _ _ _ hyphen_sep Hh);
        reflexivity
      | exact Hrest | simpl; lia |].
    rewrite run_seqs_cons. cbn [run]. unfold star, dot.
    change (rep_loop _ _ _ _ _ _ _ _)
      with (run (Rep 0 None (Class (fun x => negb (is_line_terminator x))))
              (after (Some (last t a)) ((y :: h) ++ s)) rest [(1, a :: t)]
              (fun prev' s' c' =>
                 run (seqs [Eol]) prev' s' ((2, consumed rest s') :: c')
                   (fun _ s'' c'' => Some (s'', c'')))).
    rewrite run_rep_class.
    rewrite <- (app_nil_r rest) at 1.
    apply greedy_longest; [exact Hdot | reflexivity | lia |].
    cbn [seqs run]. unfold consumed. cbn [length].
    now rewrite Nat.sub_0_r, firstn_all. }
  unfold match_. unfold re_author in *. rewrite search_anchored, E.
  reflexivity.
Qed.

Lemma extract_token_hyphens (a : ascii) (t h s rest : jsstring) :
  is_alpha a = true ->
  forallb is_token_char t = true -> 2 <= length t ->
  is_word (last t a) = true ->
  forallb (Ascii.eqb "-"%char) h = true -> h <> [] ->
  forallb is_sep_char s = true ->
  stops is_token_char (s ++ rest) = true ->
  stops is_sep_char rest = true ->
  forallb (fun x => negb (is_line_terminator x)) rest = true ->
  extractAuthorFromContent ((a :: t) ++ h ++ s ++ rest)
  = if has blacklist (a :: t)
    then mkInferred None ((a :: t) ++ h ++ s ++ rest)
    else mkInferred (Some (a :: t)) (trim rest).
Proof.
  intros Ha Ht Hl Hw Hh Hne Hs Hstop Hrest Hdot.
  unfold extractAuthorFromContent.
  rewrite author_match_hyphens by assumption.
  cbn [capture Nat.eqb]. now destruct (has blacklist (a :: t)).
Qed.

End AuthorFacts.

(* ================================================================== *)
(** ** Text cleaning *)
(* ================================================================== *)

Module CleanFacts.
Import RegexDefs RegexFacts CleanDefs JSFacts AuthorFacts.

(** *** Splitting into lines *)

Lemma newline_miss (prev : option ascii) (x : ascii) (s : jsstring) :
  is_line_terminator x = false -> exec_at re_newline prev (x :: s) = None.
Proof.
  intros H. unfold exec_at, re_newline, opt, chr. cbn [run].
  cbn [rep_loop hi_is_zero Nat.add length run].
  assert (E1 : Ascii.eqb CR x = false) by (revert H; each_ascii x).
  assert (E2 : Ascii.eqb LF x = false) by (revert H; each_ascii x).
  now rewrite E1, E2.
Qed.

Lemma newline_hit (prev : option ascii) (s : jsstring) :
  exec_at re_newline prev (LF :: s) = Some (s, []).
Proof. reflexivity. Qed.

Lemma split_line (l : jsstring) :
  forall prev cur rest,
    forallb (fun x => negb (is_line_terminator x)) l = true ->
    split_from re_newline prev (l ++ LF :: rest) cur 0
    = (rev cur ++ l) :: split_from re_newline (Some LF) rest [] 0.
Proof.
  induction l as [|x l IH]; intros prev cur rest H.
  - cbn [app split_from]. rewrite newline_hit.
    replace (length (LF :: rest) - length rest) with 1
      by (cbn [length]; lia).
    now rewrite app_nil_r.
  - simpl in H. apply andb_true_iff in H. destruct H as [Hx H].
    apply negb_true_iff in Hx.
    cbn [app split_from]. rewrite newline_miss by exact Hx.
    rewrite IH by exact H. cbn [rev]. now rewrite <- app_assoc.
Qed.

Lemma split_last (l : jsstring) :
  forall prev cur,
    forallb (fun x => negb (is_line_terminator x)) l = true ->
    split_from re_newline prev l cur 0 = [rev cur ++ l].
Proof.
  induction l as [|x l IH]; intros prev cur H.
  - cbn [split_from]. now rewrite app_nil_r.
  - simpl in H. apply andb_true_iff in H. destruct H as [Hx H].
    apply negb_true_iff in Hx.
    cbn [split_from]. rewrite newline_miss by exact Hx.
    rewrite IH by exact H. cbn [rev]. now rewrite <- app_assoc.
Qed.

Lemma split_from_join (ls : list jsstring) :
  forall l prev,
    Forall (fun l => forallb (fun x => negb (is_line_terminator x)) l = true)
      (l :: ls) ->
    split_from re_newline prev (join [LF] (l :: ls)) [] 0 = l :: ls.
Proof.
  induction ls as [|l' ls IH]; intros l prev H.
  - cbn [join]. rewrite split_last; [reflexivity|]. now inversion H.
  - change (join [LF] (l :: l' :: ls)) with (l ++ LF :: join [LF] (l' :: ls)).
    inversion H as [|? ? Hl Hls]; subst.
    rewrite split_line by exact Hl. cbn [rev app].
    now rewrite IH.
Qed.

Lemma tidy_parts (l : jsstring) :
  tidy l = true ->
  (exists x l', l = x :: l' /\ is_space x = false)
  /\ is_space (last l SP) = false
  /\ single_spaced l = true
  /\ forallb (fun x => negb (is_break x)) l = true.
Proof.
  unfold tidy. rewrite !andb_true_iff, !negb_true_iff.
  intros [[[H1 H2] H3] H4]. repeat split; try assumption.
  destruct l as [|x l']; [discriminate|].
  apply negb_true_iff in H1. now exists x, l'.
Qed.

Lemma break_terminator (x : ascii) :
  is_break x = false -> is_line_terminator x = false.
Proof. each_ascii x. Qed.

Lemma break_space (x : ascii) : is_space x = false -> is_break x = false.
Proof. each_ascii x. Qed.

Lemma tidy_one_line (l : jsstring) :
  tidy l = true ->
  forallb (fun x => negb (is_line_terminator x)) l = true.
Proof.
  intros H. apply tidy_parts in H. destruct H as (_ & _ & _ & H).
  rewrite forallb_forall in *. intros x Hx. specialize (H x Hx).
  apply negb_true_iff in H. apply negb_true_iff. now apply break_terminator.
Qed.

Lemma trimStart_id (x : ascii) (l : jsstring) :
  is_space x = false -> trimStart (x :: l) = x :: l.
Proof. intros H. simpl. now rewrite H. Qed.

Lemma last_rev_head (l : jsstring) (x : ascii) :
  l <> [] -> exists l', rev l = last l x :: l'.
Proof.
  intros H. destruct (exists_last H) as (l0 & y & ->).
  rewrite rev_app_distr, last_last. simpl. now exists (rev l0).
Qed.

Lemma trim_tidy (l : jsstring) : tidy l = true -> trim l = l.
Proof.
  intros H. apply tidy_parts in H.
  destruct H as ((x & l' & -> & Hx) & Hlast & _ & _).
  unfold trim, trimEnd. rewrite trimStart_id by exact Hx.
  destruct (last_rev_head (l := x :: l') SP) as [r E]; [discriminate|].
  rewrite E, trimStart_id by exact Hlast.
  rewrite <- E. apply rev_involutive.
Qed.

Lemma tidy_truthy (l : jsstring) : tidy l = true -> truthy l = true.
Proof. destruct l; [discriminate | reflexivity]. Qed.

(** The lines of a text made of tidy lines are these lines. *)
Lemma splitLines_join (ls : list jsstring) :
  Forall (fun l => tidy l = true) ls ->
  splitLines (join [LF] ls) = ls.
Proof.
  intros H. unfold splitLines.
  destruct ls as [|l ls]; [reflexivity|].
  assert (E : split re_newline (join [LF] (l :: ls)) = l :: ls).
  { unfold split.
    assert (N : join [LF] (l :: ls) <> []).
    { inversion H as [|? ? Hl _]; subst.
      destruct l as [|x l]; [discriminate|]. destruct ls; discriminate. }
    destruct (join [LF] (l :: ls)) as [|y s] eqn:J; [now elim N|].
    rewrite <- J. apply split_from_join.
    eapply Forall_impl; [|exact H]. apply tidy_one_line. }
  rewrite E. clear E.
  induction H as [|l0 ls0 Hl Hls IH]; [reflexivity|].
  cbn [map filter]. rewrite (trim_tidy _ Hl), (tidy_truthy _ Hl).
  f_equal. exact IH.
Qed.



(** *** Texts that the inline patterns leave alone *)

Lemma startsWith_ci_space (w : jsstring) :
  forall x y,
    w <> [] -> spaceless w = true ->
    startsWith_ci w (x ++ SP :: y) = startsWith_ci w x.
Proof.
  induction w as [|c w IH]; intros x y Hw Hs; [now elim Hw|].
  simpl in Hs. apply andb_true_iff in Hs. destruct Hs as [Hc Hs].
  apply negb_true_iff in Hc.
  destruct x as [|a x]; cbn [app startsWith_ci].
  - now rewrite Hc.
  - destruct w as [|c' w]; [reflexivity|].
    rewrite IH; [reflexivity | discriminate | exact Hs].
Qed.

Lemma mentions_nil (w : jsstring) : w <> [] -> mentions w [] = false.
Proof. destruct w; [intros H; now elim H | reflexivity]. Qed.

Lemma mentions_space (w : jsstring) (x y : jsstring) :
  w <> [] -> spaceless w = true ->
  mentions w (x ++ SP :: y) = mentions w x || mentions w y.
Proof.
  intros Hw Hs. induction x as [|a x IH].
  - rewrite (mentions_nil Hw). cbn [app mentions orb].
    change (SP :: y) with ([] ++ SP :: y) at 1.
    rewrite startsWith_ci_space by assumption.
    destruct w; [now elim Hw | reflexivity].
  - cbn [app mentions]. rewrite IH.
    change (a :: x ++ SP :: y) with ((a :: x) ++ SP :: y).
    rewrite startsWith_ci_space by assumption.
    now rewrite orb_assoc.
Qed.


(** A sequence with a literal text in it matches nowhere in an input
    that does not contain the text. *)
Lemma nowhere_unmentioned (w : jsstring) (pre post : list regex)
    (s : jsstring) :
  forall prev,
    mentions w s = false ->
    nowhere (seqs (pre ++ seqs (map chr_i w) :: post)) prev s.
Proof.
  induction s as [|x s IH]; intros prev H; cbn [nowhere]; split; try exact I;
    try (unfold exec_at; now apply run_seqs_none).
  apply IH. eapply mentions_tail. exact H.
Qed.

Lemma replace_unmentioned (w : jsstring) (pre post : list regex)
    (rep s : jsstring) :
  mentions w s = false ->
  replaceAll (seqs (pre ++ seqs (map chr_i w) :: post)) rep s = s.
Proof.
  intros H. unfold replaceAll. apply replace_nowhere.
  now apply nowhere_unmentioned.
Qed.

Lemma inline_free_parts (l : jsstring) :
  inline_free l = true ->
  mentions (js "Like") l = false
  /\ mentions (js "Repl") l = false
  /\ mentions (js "sorted") l = false.
Proof.
  unfold inline_free. rewrite !andb_true_iff, !negb_true_iff. tauto.
Qed.

(** The five inline replacements leave such a text as it is. *)
Lemma replace_like_id (s : jsstring) :
  mentions (js "Like") s = false -> replaceAll re_like [SP] s = s.
Proof.
  intros H.
  apply (replace_unmentioned (js "Like") [WordB]
           [WordB; opt (Seq (star space) (plus digit))] [SP] s H).
Qed.

Lemma replace_reply_id (s : jsstring) :
  mentions (js "Repl") s = false -> replaceAll re_reply [SP] s = s.
Proof.
  intros H.
  apply (replace_unmentioned (js "Reply") [WordB] [WordB] [SP] s).
  now apply (mentions_app (js "Repl") (js "y")).
Qed.

Lemma replace_reply_count_id (s : jsstring) :
  mentions (js "Repl") s = false ->
  replaceAll re_inline_reply_count [SP] s = s.
Proof.
  intros H.
  apply (replace_unmentioned (js "Repl") [WordB; plus digit; plus space]
           [opt (Alt (chr_i "y") (lit_i "ies")); WordB] [SP] s H).
Qed.

Lemma replace_replies_sorted_id (s : jsstring) :
  mentions (js "Repl") s = false ->
  replaceAll re_inline_replies_sorted [SP] s = s.
Proof.
  intros H.
  apply (replace_unmentioned (js "Replie") [WordB]
           [opt (chr_i "s"); plus space; lit_i "sorted"; plus space;
            lit_i "by"; plus space; plus wordc] [SP] s).
  now apply (mentions_app (js "Repl") (js "ie")).
Qed.

Lemma replace_sorted_by_id (s : jsstring) :
  mentions (js "sorted") s = false ->
  replaceAll re_inline_sorted_by [SP] s = s.
Proof.
  intros H.
  apply (replace_unmentioned (js "sorted") [WordB]
           [plus space; lit_i "by"; plus space; re_order 1; plus space;
            star wordc] [SP] s H).
Qed.

(** *** Whitespace *)

Lemma spaces_miss (prev : option ascii) (s : jsstring) :
  match s with
  | x :: y :: _ => is_space x && is_space y = false
  | _ => True
  end ->
  exec_at re_spaces prev s = None.
Proof.
  intros H. unfold exec_at, re_spaces, at_least, space.
  rewrite run_rep_class.
  destruct s as [|x [|y s]]; cbn [greedy hi_is_zero dec_hi option_map pred Nat.eqb].
  - reflexivity.
  - now destruct (is_space x).
  - destruct (is_space x); [|reflexivity]. simpl in H. rewrite H. reflexivity.
Qed.

Lemma nowhere_spaces (s : jsstring) :
  forall prev, single_spaced s = true -> nowhere re_spaces prev s.
Proof.
  induction s as [|x s IH]; intros prev H; cbn [nowhere]; split;
    try exact I; try (now apply spaces_miss).
  - apply spaces_miss. destruct s as [|y s]; [exact I|].
    cbn [single_spaced] in H. apply andb_true_iff in H.
    now apply negb_true_iff.
  - apply IH. destruct s as [|y s]; [reflexivity|].
    cbn [single_spaced] in H. now apply andb_true_iff in H.
Qed.

Lemma breaks_miss (prev : option ascii) (s : jsstring) :
  stops is_break s = true -> exec_at re_breaks prev s = None.
Proof.
  intros H. unfold exec_at, re_breaks, plus.
  change (fun x => Ascii.eqb x CR || Ascii.eqb x LF || Ascii.eqb x TAB)
    with is_break.
  rewrite run_rep_class.
  destruct s as [|x s]; cbn [greedy hi_is_zero Nat.eqb]; [reflexivity|].
  simpl in H. apply negb_true_iff in H. now rewrite H.
Qed.

Lemma nowhere_breaks (s : jsstring) :
  forall prev,
    forallb (fun x => negb (is_break x)) s = true -> nowhere re_breaks prev s.
Proof.
  induction s as [|x s IH]; intros prev H; cbn [nowhere]; split;
    try exact I; try (now apply breaks_miss).
  - apply breaks_miss. simpl in *. now apply andb_true_iff in H.
  - apply IH. simpl in H. now apply andb_true_iff in H.
Qed.

Lemma normalizeWhitespace_tidy (s : jsstring) :
  tidy s = true -> normalizeWhitespace s = s.
Proof.
  intros H. unfold normalizeWhitespace, replaceAll.
  pose proof (tidy_parts _ H) as (_ & _ & Hs & Hb).
  rewrite replace_nowhere with (r := re_breaks) by now apply nowhere_breaks.
  rewrite replace_nowhere by now apply nowhere_spaces.
  now apply trim_tidy.
Qed.


(** *** Joined lines *)

Lemma single_spaced_app (a b : jsstring) (x y : ascii) :
  single_spaced (a ++ [x]) = true -> single_spaced (y :: b) = true ->
  is_space x && is_space y = false ->
  single_spaced (a ++ x :: y :: b) = true.
Proof.
  intros Ha Hb Hxy. induction a as [|z a IH].
  - cbn [app single_spaced] in *. rewrite Hxy. exact Hb.
  - destruct a as [|z' a].
    + cbn [app single_spaced] in *.
      apply andb_true_iff in Ha. destruct Ha as [Ha _].
      rewrite Ha, Hxy. exact Hb.
    + cbn [app single_spaced] in Ha |- *.
      apply andb_true_iff in Ha. destruct Ha as [Ha1 Ha2].
      rewrite Ha1. apply IH. exact Ha2.
Qed.

Lemma single_spaced_snoc (a : jsstring) (x : ascii) :
  single_spaced a = true -> is_space (last a SP) = false ->
  a <> [] -> single_spaced (a ++ [x]) = true.
Proof.
  intros Ha Hl Hn. induction a as [|z a IH]; [now elim Hn|].
  destruct a as [|z' a].
  - cbn [app single_spaced last] in *. now rewrite Hl.
  - cbn [app single_spaced] in Ha |- *.
    apply andb_true_iff in Ha. destruct Ha as [Ha1 Ha2].
    rewrite Ha1. apply IH; [exact Ha2 | exact Hl | discriminate].
Qed.

Lemma last_app_cons (a b : jsstring) (y d : ascii) :
  last (a ++ y :: b) d = last (y :: b) d.
Proof.
  induction a as [|z a IH]; [reflexivity|].
  change ((z :: a) ++ y :: b) with (z :: (a ++ y :: b)).
  destruct (a ++ y :: b) eqn:E; [destruct a; discriminate|].
  exact IH.
Qed.

(** Two tidy texts with one space between them make a tidy text. *)
Lemma tidy_space (a b : jsstring) :
  tidy a = true -> tidy b = true -> tidy (a ++ SP :: b) = true.
Proof.
  intros Ha Hb.
  pose proof (tidy_parts _ Ha) as ((x & a' & Ea & Hx) & Hla & Hsa & Hba).
  pose proof (tidy_parts _ Hb) as ((y & b' & Eb & Hy) & Hlb & Hsb & Hbb).
  unfold tidy. rewrite !andb_true_iff. repeat split.
  - subst a. cbn [app]. now rewrite Hx.
  - subst b. rewrite last_app_cons.
    change (last (SP :: y :: b') SP) with (last (y :: b') SP).
    now rewrite Hlb.
  - subst b. apply single_spaced_app.
    + apply single_spaced_snoc; [exact Hsa | exact Hla | subst a; discriminate].
    + exact Hsb.
    + rewrite Hy. apply andb_false_r.
  - rewrite forallb_app. rewrite Hba. cbn [forallb]. now rewrite Hbb.
Qed.

Lemma tidy_join (l : jsstring) (ls : list jsstring) :
  Forall (fun l => tidy l = true) (l :: ls) ->
  tidy (join [SP] (l :: ls)) = true.
Proof.
  revert l. induction ls as [|l' ls IH]; intros l H.
  - now inversion H.
  - change (join [SP] (l :: l' :: ls)) with (l ++ SP :: join [SP] (l' :: ls)).
    inversion H; subst. apply tidy_space; [assumption|]. now apply IH.
Qed.




(** *** Cleaned text is on one line *)

Lemma replace_from_chars (Q : ascii -> bool) (r : regex) (rep s : jsstring) :
  forallb Q rep = true ->
  forall prev skip,
    forallb Q s = true ->
    forallb Q (replace_from r rep prev s skip) = true.
Proof.
  intros Hrep. induction s as [|x s IH]; intros prev skip Hs;
    cbn [replace_from].
  - destruct skip; [|reflexivity].
    now destruct (exec_at r prev []).
  - simpl in Hs. apply andb_true_iff in Hs. destruct Hs as [Hx Hs].
    destruct skip as [|n]; [|now apply IH].
    destruct (exec_at r prev (x :: s)) as [[rest cs]|].
    + destruct (length (x :: s) - length rest);
        rewrite forallb_app, Hrep; cbn [forallb andb];
        rewrite ?Hx; now apply IH.
    + cbn [forallb]. rewrite Hx. now apply IH.
Qed.

Lemma greedy_consumes (p : ascii -> bool) (s : jsstring) :
  forall lo prev c rest c',
    greedy p lo None prev s c (fun _ s' c0 => Some (s', c0)) = Some (rest, c') ->
    lo + length rest <= length s.
Proof.
  induction s as [|x s IH]; intros lo prev c rest c' H;
    cbn [greedy hi_is_zero dec_hi option_map] in H.
  - destruct lo; [|discriminate]. simpl in H. injection H as <- _. simpl. lia.
  - destruct (p x).
    + destruct (greedy p (pred lo) None (Some x) s c
                  (fun _ s' c0 => Some (s', c0))) as [[rest0 c0]|] eqn:E.
      * injection H as <- _. apply IH in E. simpl. lia.
      * destruct lo; [|discriminate]. simpl in H. injection H as <- _.
        simpl. lia.
    + destruct lo; [|discriminate]. simpl in H. injection H as <- _.
      simpl. lia.
Qed.

Lemma greedy_total (p : ascii -> bool) (s : jsstring) :
  forall prev c,
    greedy p 0 None prev s c (fun _ s' c0 => Some (s', c0)) <> None.
Proof.
  induction s as [|x s IH]; intros prev c;
    cbn [greedy hi_is_zero dec_hi option_map pred Nat.eqb]; [discriminate|].
  destruct (p x); [|discriminate].
  now destruct (greedy p 0 None (Some x) s c (fun _ s' c0 => Some (s', c0))).
Qed.

(** What the pattern for line breaks and tabs does at a position. *)
Lemma breaks_at (prev : option ascii) (x : ascii) (s : jsstring) :
  if is_break x
  then exists rest cs,
         exec_at re_breaks prev (x :: s) = Some (rest, cs)
         /\ length rest <= length s
  else exec_at re_breaks prev (x :: s) = None.
Proof.
  unfold exec_at, re_breaks, plus.
  change (fun x => Ascii.eqb x CR || Ascii.eqb x LF || Ascii.eqb x TAB)
    with is_break.
  rewrite run_rep_class.
  destruct (is_break x) eqn:B.
  - destruct (greedy is_break 1 None prev (x :: s) []
                (fun _ s' c' => Some (s', c'))) as [[rest cs]|] eqn:E.
    + exists rest, cs. split; [reflexivity|].
      apply greedy_consumes in E. simpl in E. lia.
    + exfalso. cbn [greedy hi_is_zero dec_hi option_map pred Nat.eqb] in E.
      rewrite B in E.
      pose proof (greedy_total is_break s (Some x) []) as T.
      destruct (greedy is_break 0 None (Some x) s []
                  (fun _ s' c0 => Some (s', c0))); [discriminate | now elim T].
  - cbn [greedy hi_is_zero Nat.eqb]. now rewrite B.
Qed.

Lemma breaks_gone (s : jsstring) :
  forall prev skip,
    forallb (fun x => negb (is_break x))
      (replace_from re_breaks [SP] prev s skip) = true.
Proof.
  induction s as [|x s IH]; intros prev skip; cbn [replace_from].
  - destruct skip; [|reflexivity].
    now destruct (exec_at re_breaks prev []).
  - destruct skip as [|n]; [|apply IH].
    pose proof (breaks_at prev x s) as B.
    destruct (is_break x) eqn:Bx.
    + destruct B as (rest & cs & -> & L).
      replace (length (x :: s) - length rest)
        with (S (length s - length rest)) by (cbn [length]; lia).
      cbn [app forallb]. apply IH.
    + rewrite B. cbn [forallb]. rewrite Bx. apply IH.
Qed.

Lemma trimStart_chars (Q : ascii -> bool) (s : jsstring) :
  forallb Q s = true -> forallb Q (trimStart s) = true.
Proof.
  induction s as [|x s IH]; [reflexivity|]. intros H. cbn [trimStart].
  destruct (is_space x); [|exact H].
  simpl in H. apply andb_true_iff in H. now apply IH.
Qed.

Lemma forallb_rev (Q : ascii -> bool) (s : jsstring) :
  forallb Q (rev s) = forallb Q s.
Proof.
  induction s as [|x s IH]; [reflexivity|].
  cbn [rev forallb]. rewrite forallb_app, IH. cbn [forallb].
  rewrite andb_true_r. apply andb_comm.
Qed.

Lemma trim_chars (Q : ascii -> bool) (s : jsstring) :
  forallb Q s = true -> forallb Q (trim s) = true.
Proof.
  intros H. unfold trim, trimEnd. rewrite forallb_rev.
  apply trimStart_chars. rewrite forallb_rev. now apply trimStart_chars.
Qed.

Lemma normalizeWhitespace_one_line (s : jsstring) :
  forallb (fun x => negb (is_line_terminator x)) (normalizeWhitespace s) = true.
Proof.
  unfold normalizeWhitespace, replaceAll. apply trim_chars.
  apply replace_from_chars; [reflexivity|].
  change (js " ") with [SP].
  pose proof (breaks_gone s None 0) as B.
  rewrite forallb_forall in *. intros x Hx. specialize (B x Hx).
  apply negb_true_iff in B. apply negb_true_iff. now apply break_terminator.
Qed.

(** Whatever the raw text, the cleaned text holds no line terminator. *)
Lemma cleanLines_one_line (raw : jsstring) (ctx : Ctx) :
  forallb (fun x => negb (is_line_terminator x)) (cleanLines raw ctx) = true.
Proof. unfold cleanLines. apply normalizeWhitespace_one_line. Qed.

(** *** The line filter *)




Lemma same_ci_length (w v : jsstring) :
  same_ci w v = true -> length w = length v.
Proof.
  revert v. induction w as [|x w IH]; intros [|c v]; simpl; try congruence.
  rewrite andb_true_iff. intros [_ H]. f_equal. now apply IH.
Qed.

(** A literal text under the i flag consumes a text that is the same,
    case ignored. *)
Lemma run_lit_same (A : Type) (w v s : jsstring) (prev : option ascii)
    (c : caps) (k : cont A) :
  same_ci w v = true ->
  run (seqs (map chr_i v)) prev (w ++ s) c k = k (after prev w) s c.
Proof.
  intros H. rewrite run_lit_i.
  assert (L := same_ci_length _ _ H).
  assert (S : startsWith_ci v (w ++ s) = true).
  { clear L. revert v H. induction w as [|x w IH]; intros [|y v] H;
      simpl in *; try congruence.
    apply andb_true_iff in H. destruct H as [H1 H2].
    rewrite H1. now apply IH. }
  rewrite S, <- L, firstn_app, firstn_all, Nat.sub_diag, app_nil_r.
  rewrite skipn_app, skipn_all, Nat.sub_diag. reflexivity.
Qed.

Lemma canonicalize_space (x : ascii) : is_space (canonicalize x) = is_space x.
Proof. each_ascii x. Qed.

Lemma canonicalize_digit (x : ascii) : is_digit (canonicalize x) = is_digit x.
Proof. each_ascii x. Qed.

Lemma eqb_ci_space (x c : ascii) :
  eqb_ci x c = true -> is_space x = is_space c.
Proof.
  unfold eqb_ci. intros H. apply Ascii.eqb_eq in H.
  now rewrite <- (canonicalize_space x), H, canonicalize_space.
Qed.

Lemma space_not_digit (x : ascii) : is_space x = true -> is_digit x = false.
Proof. each_ascii x. Qed.

(** The head of a text that is [c :: v], case ignored, is no whitespace
    when [c] is none. *)
Lemma stops_space_same (w v s : jsstring) (c : ascii) :
  same_ci w (c :: v) = true -> is_space c = false ->
  stops is_space (w ++ s) = true.
Proof.
  destruct w as [|x w]; simpl; [congruence|].
  rewrite andb_true_iff. intros [H _] Hc.
  now rewrite (eqb_ci_space _ _ H), Hc.
Qed.

Lemma stops_digit_spaces (ws s : jsstring) :
  ws <> [] -> forallb is_space ws = true -> stops is_digit (ws ++ s) = true.
Proof.
  destruct ws as [|x ws]; [intros H; now elim H|]. simpl.
  rewrite andb_true_iff. intros _ [H _]. now rewrite space_not_digit.
Qed.






Lemma run_group (A : Type) (i : nat) (r : regex) (prev : option ascii)
    (s : jsstring) (c : caps) (k : cont A) :
  run (Group i r) prev s c k
  = run r prev s c (fun prev' s' c' => k prev' s' ((i, consumed s s') :: c')).
Proof. reflexivity. Qed.







(** *** The drop rules of the line filter *)






End CleanFacts.

Module AuthorTheorems.
Import RegexDefs CleanDefs RegexFacts JSFacts AuthorFacts CleanFacts.
Import Detail.

(** C10. The blacklist is compared with case: the lower-case openers
    [hello] and [thanks] are taken as authors and removed from the
    content, where [Hello] and [Thanks] leave the content without author;
    and so for every blacklisted opener of three letters or more before a
    space and a remainder on one line. *)
Theorem blacklist_case_sensitive :
  extractAuthorFromContent (js "hello everyone")
  = mkInferred (Some (js "hello")) (js "everyone")
  /\ extractAuthorFromContent (js "Hello everyone")
     = mkInferred None (js "Hello everyone")
  /\ extractAuthorFromContent (js "thanks for the help")
     = mkInferred (Some (js "thanks")) (js "for the help")
  /\ extractAuthorFromContent (js "Thanks for the help")
     = mkInferred None (js "Thanks for the help")
  /\ (forall w rest,
        In w openers ->
        stops is_sep_char rest = true ->
        forallb (fun x => negb (is_line_terminator x)) rest = true ->
        has blacklist w = true
        /\ has blacklist (toLowerCase w) = false
        /\ extractAuthorFromContent (w ++ " "%char :: rest)
           = mkInferred None (w ++ " "%char :: rest)
        /\ extractAuthorFromContent (toLowerCase w ++ " "%char :: rest)
           = mkInferred (Some (toLowerCase w)) (trim rest)).
Proof.
  do 4 (split; [vm_compute; reflexivity|]).
  intros w rest Hw Hrest Hdot.
  assert (E : forall a t,
             is_alpha a = true -> forallb is_token_char t = true ->
             2 <= length t -> is_word (last t a) = true ->
             extractAuthorFromContent ((a :: t) ++ " "%char :: rest)
             = if has blacklist (a :: t)
               then mkInferred None ((a :: t) ++ " "%char :: rest)
               else mkInferred (Some (a :: t)) (trim rest)).
  { intros a t Ha Ht Hl Hlast.
    apply extract_token with (y := " "%char) (sep := []); try assumption;
      [reflexivity | discriminate]. }
  simpl in Hw. destruct Hw as [<-|[<-|[<-|[<-|[]]]]];
    (split; [reflexivity|]); (split; [reflexivity|]); split;
    match goal with
    | |- extractAuthorFromContent (?x ++ _) = _ =>
        let v := eval vm_compute in x in
        change x with v
    end;
    rewrite E by (reflexivity || (simpl; lia)); reflexivity.
Qed.

Lemma blacklist_case_sensitive_witness :
  In (js "Hey") openers
  /\ extractAuthorFromContent (js "hey" ++ " "%char :: js "all, quick question")
     = mkInferred (Some (js "hey")) (js "all, quick question").
Proof.
  assert (I : In (js "Hey") openers) by (simpl; tauto).
  split; [exact I|].
  apply (proj2 (proj2 (proj2 (proj2 blacklist_case_sensitive)))
           (js "Hey") (js "all, quick question") I);
    reflexivity.
Defined.

End AuthorTheorems.

Module CleanTheorems.
Import RegexDefs CleanDefs CleanFacts.





End CleanTheorems.

(* ================================================================== *)
(** ** Inline words inside a sentence *)
(* ================================================================== *)

Module InlineFacts.
Import RegexDefs RegexFacts CleanDefs CleanFacts AuthorFacts InlineDefs.

Lemma replace_before (r : regex) (rep : jsstring) (pre : jsstring) :
  forall prev s,
    nowhere_before r prev pre s ->
    replace_from r rep prev (pre ++ s) 0
    = pre ++ replace_from r rep (after prev pre) s 0.
Proof.
  induction pre as [|x pre IH]; intros prev s H; [reflexivity|].
  destruct H as [H1 H2]. cbn [app after].
  rewrite replace_miss by exact H1. f_equal. now apply IH.
Qed.

(** *** Case does not matter to the patterns *)

Lemma canonicalize_idem (x : ascii) :
  canonicalize (canonicalize x) = canonicalize x.
Proof. each_ascii x. Qed.

Lemma canonicalize_word (x : ascii) : is_word (canonicalize x) = is_word x.
Proof. each_ascii x. Qed.

Lemma eqb_ci_word (x c : ascii) : eqb_ci x c = true -> is_word x = is_word c.
Proof.
  unfold eqb_ci. intros H. apply Ascii.eqb_eq in H.
  now rewrite <- (canonicalize_word x), H, canonicalize_word.
Qed.

Lemma same_ci_canon (w v : jsstring) :
  same_ci w v = true -> map canonicalize w = map canonicalize v.
Proof.
  revert v. induction w as [|x w IH]; intros [|c v]; simpl; try congruence.
  rewrite andb_true_iff. unfold eqb_ci. intros [H1 H2].
  apply Ascii.eqb_eq in H1. rewrite H1. f_equal. now apply IH.
Qed.

Lemma startsWith_ci_canon (t s : jsstring) :
  startsWith_ci t (map canonicalize s) = startsWith_ci t s.
Proof.
  revert s. induction t as [|c t IH]; intros [|x s]; simpl; try reflexivity.
  unfold eqb_ci. now rewrite canonicalize_idem, IH.
Qed.

Lemma mentions_canon (t s : jsstring) :
  mentions t (map canonicalize s) = mentions t s.
Proof.
  induction s as [|x s IH]; [reflexivity|].
  cbn [map mentions]. rewrite IH.
  change (canonicalize x :: map canonicalize s)
    with (map canonicalize (x :: s)).
  now rewrite startsWith_ci_canon.
Qed.

Lemma same_ci_mentions (t w v : jsstring) :
  same_ci w v = true -> mentions t w = mentions t v.
Proof.
  intros H. rewrite <- (mentions_canon t w), <- (mentions_canon t v).
  now rewrite (same_ci_canon _ _ H).
Qed.

Lemma same_ci_solid (w v : jsstring) :
  same_ci w v = true -> solid v = true -> solid w = true.
Proof.
  unfold solid. rewrite !andb_true_iff. intros H [T F]. split.
  - destruct w, v; simpl in *; congruence.
  - clear T. revert v H F. induction w as [|x w IH]; intros [|c v] H F;
      simpl in *; try congruence.
    apply andb_true_iff in H. destruct H as [H1 H2].
    apply andb_true_iff in F. destruct F as [F1 F2].
    rewrite (eqb_ci_space _ _ H1), F1. simpl. now apply IH with (v := v).
Qed.

Lemma solid_single_spaced (w : jsstring) :
  forallb (fun x => negb (is_space x)) w = true -> single_spaced w = true.
Proof.
  induction w as [|x w IH]; [reflexivity|]. simpl.
  rewrite andb_true_iff, negb_true_iff. intros [Hx Hw].
  destruct w as [|y w]; [reflexivity|]. rewrite Hx. simpl. now apply IH.
Qed.

Lemma solid_last (w : jsstring) (d : ascii) :
  w <> [] -> forallb (fun x => negb (is_space x)) w = true ->
  is_space (last w d) = false.
Proof.
  intros Hn H. rewrite forallb_forall in H.
  apply negb_true_iff, H. destruct (exists_last Hn) as (w' & y & ->).
  rewrite last_last. apply in_or_app. right. now left.
Qed.

Lemma solid_tidy (w : jsstring) : solid w = true -> tidy w = true.
Proof.
  unfold solid, tidy. rewrite !andb_true_iff. intros [T F].
  destruct w as [|x w]; [discriminate|].
  repeat split.
  - simpl in F. now apply andb_true_iff in F.
  - apply negb_true_iff, solid_last; [discriminate | exact F].
  - now apply solid_single_spaced.
  - rewrite forallb_forall in *. intros y Hy. specialize (F y Hy).
    apply negb_true_iff in F. apply negb_true_iff. now apply break_space.
Qed.

Lemma same_ci_word_head (w v s : jsstring) (c : ascii) :
  same_ci w (c :: v) = true -> is_word c = true -> word_after (w ++ s) = true.
Proof.
  destruct w as [|x w]; simpl; [congruence|].
  rewrite andb_true_iff. intros [H _] Hc. now rewrite (eqb_ci_word _ _ H).
Qed.

Lemma same_ci_word_last (w v : jsstring) :
  forall prev d,
    same_ci w v = true -> v <> [] -> is_word (last v d) = true ->
    word_before (after prev w) = true.
Proof.
  revert v. induction w as [|x w IH]; intros [|c v] prev d H Hn Hl;
    simpl in H; try congruence.
  apply andb_true_iff in H. destruct H as [H1 H2]. cbn [after].
  destruct v as [|c' v].
  - destruct w; [|discriminate]. simpl in *. now rewrite (eqb_ci_word _ _ H1).
  - apply IH with (v := c' :: v) (d := d); [exact H2 | discriminate |].
    exact Hl.
Qed.

(** *** One word between two texts *)

Section Word.
(** The pattern [\bW\b] followed by [tail], which finds nothing to take
    before a space and a text [b]. *)
Variable W : jsstring.
Variable tail : list regex.
Variable b : jsstring.
Hypothesis W_solid : solid W = true.
Hypothesis W_spaceless : spaceless W = true.
Hypothesis W_first : word_after W = true.
Hypothesis W_last : is_word (last W SP) = true.
Hypothesis tail_idle :
  forall prev c (k : cont (jsstring * caps)),
    run (seqs tail) prev (SP :: b) c k = k prev (SP :: b) c.

Let r : regex := seqs (WordB :: seqs (map chr_i W) :: WordB :: tail).

Lemma W_nonempty : W <> [].
Proof.
  intros E. pose proof W_solid as H. rewrite E in H. discriminate H.
Qed.

Lemma word_miss (prev : option ascii) (s : jsstring) :
  startsWith_ci W s = false -> exec_at r prev s = None.
Proof.
  intros H. unfold exec_at, r. rewrite run_seqs_cons. cbn [run].
  destruct (at_boundary prev s); [|reflexivity].
  now rewrite run_seqs_cons, run_lit_i, H.
Qed.

Lemma word_nowhere (s : jsstring) :
  forall prev, mentions W s = false -> nowhere r prev s.
Proof.
  induction s as [|x s IH]; intros prev H; cbn [nowhere]; split;
    try exact I; try (apply word_miss; now apply mentions_head).
  apply IH. eapply mentions_tail. exact H.
Qed.

Lemma word_nowhere_before (a s : jsstring) :
  forall prev,
    mentions W a = false -> nowhere_before r prev (a ++ [SP]) s.
Proof.
  induction a as [|x a IH]; intros prev H.
  - cbn [app nowhere_before]. split; [|exact I].
    apply word_miss. change (SP :: s) with ([] ++ SP :: s).
    rewrite startsWith_ci_space by (apply W_nonempty || exact W_spaceless).
    pose proof W_nonempty. destruct W; [contradiction | reflexivity].
  - cbn [app nowhere_before]. split.
    + apply word_miss.
      replace (x :: (a ++ [SP]) ++ s) with ((x :: a) ++ SP :: s)
        by (cbn [app]; now rewrite <- app_assoc).
      rewrite startsWith_ci_space by (apply W_nonempty || exact W_spaceless).
      now apply mentions_head.
    + apply IH. eapply mentions_tail. exact H.
Qed.

Lemma word_hit (w : jsstring) (prev : option ascii) :
  same_ci w W = true -> word_before prev = false ->
  exec_at r prev (w ++ SP :: b) = Some (SP :: b, []).
Proof.
  intros H Hp. unfold exec_at, r. rewrite run_seqs_cons. cbn [run].
  assert (H1 : word_after (w ++ SP :: b) = true).
  { pose proof W_nonempty as N. destruct W as [|c v] eqn:E; [contradiction|].
    apply same_ci_word_head with (v := v) (c := c); [exact H | exact W_first]. }
  unfold at_boundary at 1. rewrite Hp, H1. cbn [xorb].
  rewrite run_seqs_cons, run_lit_same by exact H.
  rewrite run_seqs_cons. cbn [run].
  unfold at_boundary. cbn [word_after].
  rewrite (same_ci_word_last w prev SP H W_nonempty W_last).
  change (is_word SP) with false. cbn [xorb].
  apply tail_idle.
Qed.

(** The word goes, a space takes its place. *)
Lemma replace_word (a w : jsstring) :
  mentions W a = false -> mentions W b = false -> same_ci w W = true ->
  replaceAll r [SP] (a ++ SP :: w ++ SP :: b) = a ++ SP :: SP :: SP :: b.
Proof.
  intros Ha Hb Hw. unfold replaceAll.
  change (a ++ SP :: w ++ SP :: b) with (a ++ [SP] ++ (w ++ SP :: b)).
  rewrite app_assoc.
  rewrite replace_before by now apply word_nowhere_before.
  rewrite after_app. cbn [after].
  assert (Hn : w <> []).
  { pose proof W_nonempty. destruct w, W; simpl in *; congruence. }
  destruct w as [|x w]; [now elim Hn|].
  change ((x :: w) ++ SP :: b) with (x :: w ++ SP :: b).
  rewrite replace_match with (cs := [])
    by (apply (word_hit (x :: w)); [exact Hw | reflexivity]).
  rewrite replace_nowhere.
  - rewrite <- !app_assoc. reflexivity.
  - apply word_nowhere. change (SP :: b) with ([] ++ SP :: b).
    rewrite mentions_space by (apply W_nonempty || exact W_spaceless).
    now rewrite (mentions_nil W_nonempty), Hb.
Qed.

End Word.

Lemma mentions_gap (t a b : jsstring) :
  t <> [] -> spaceless t = true ->
  mentions t (a ++ SP :: SP :: SP :: b) = mentions t a || mentions t b.
Proof.
  intros Hn Hs. rewrite mentions_space by assumption.
  change (SP :: SP :: b) with ([] ++ SP :: SP :: b).
  rewrite mentions_space by assumption.
  change (SP :: b) with ([] ++ SP :: b).
  rewrite mentions_space by assumption.
  now rewrite (mentions_nil Hn).
Qed.

Lemma nowhere_before_spaces (a : jsstring) :
  forall prev rest,
    single_spaced (a ++ [SP]) = true ->
    nowhere_before re_spaces prev a (SP :: rest).
Proof.
  induction a as [|x a IH]; intros prev rest H; [exact I|].
  cbn [nowhere_before]. split.
  - apply spaces_miss. destruct a as [|y a]; cbn [app] in *.
    + cbn [single_spaced] in H. apply andb_true_iff in H.
      now apply negb_true_iff.
    + cbn [single_spaced] in H. apply andb_true_iff in H.
      now apply negb_true_iff.
  - apply IH. cbn [app] in H. destruct (a ++ [SP]) eqn:E;
      [destruct a; discriminate|].
    cbn [single_spaced] in H. now apply andb_true_iff in H.
Qed.

(** Three spaces between two tidy texts become one. *)
Lemma collapse_gap (a b : jsstring) :
  tidy a = true -> tidy b = true ->
  replaceAll re_spaces [SP] (a ++ SP :: SP :: SP :: b) = a ++ SP :: b.
Proof.
  intros Ha Hb.
  pose proof (tidy_parts _ Ha) as ((x & a' & Ea & Hx) & Hla & Hsa & _).
  pose proof (tidy_parts _ Hb) as ((y & b' & Eb & Hy) & _ & Hsb & _).
  unfold replaceAll. rewrite replace_before.
  - change (SP :: SP :: SP :: b) with (SP :: [SP; SP] ++ b).
    rewrite replace_match with (w := [SP; SP]) (cs := []).
    + rewrite replace_nowhere by now apply nowhere_spaces. reflexivity.
    + unfold exec_at, re_spaces, at_least, space. rewrite run_rep_class.
      change (SP :: [SP; SP] ++ b) with ([SP; SP; SP] ++ b).
      apply greedy_longest; [reflexivity | | simpl; lia | reflexivity].
      subst b. simpl. now rewrite Hy.
  - apply nowhere_before_spaces.
    apply single_spaced_snoc; [exact Hsa | exact Hla | subst a; discriminate].
Qed.

(** The optional spaces and digits after [Like] take nothing before a
    space and a text that starts with neither. *)
Lemma like_tail_idle (y : ascii) (b : jsstring) :
  is_space y = false -> is_digit y = false ->
  forall prev c (k : cont (jsstring * caps)),
    run (seqs [opt (Seq (star space) (plus digit))]) prev (SP :: y :: b) c k
    = k prev (SP :: y :: b) c.
Proof.
  intros Hs Hd prev c k. cbn [seqs]. unfold opt. cbn [run].
  cbn [Nat.add length rep_loop hi_is_zero].
  set (K := fun (prev' : option ascii) (s' : jsstring) (c' : caps) => _).
  change (rep_loop _ K _ _ _ _ _ _)
    with (run (star space) prev (SP :: y :: b) c K).
  unfold star, space. rewrite run_rep_class.
  cbn [greedy hi_is_zero dec_hi option_map pred Nat.eqb].
  change (is_space SP) with true. cbv iota. rewrite Hs.
  subst K. cbv beta. unfold plus, digit.
  rewrite !run_rep_class. cbn [greedy hi_is_zero Nat.eqb]. rewrite Hd.
  change (is_digit SP) with false. reflexivity.
Qed.

(** A standalone [Like], in any case, inside a sentence. *)
Lemma like_removed (ctx : Ctx) (a w b : jsstring) :
  tidy a = true -> tidy b = true ->
  inline_free a = true -> inline_free b = true ->
  same_ci w (js "Like") = true -> stops is_digit b = true ->
  keepLine ctx (a ++ SP :: w ++ SP :: b) = true ->
  cleanLines (a ++ SP :: w ++ SP :: b) ctx = a ++ SP :: b.
Proof.
  intros Ta Tb Fa Fb Hw Hd Hk.
  pose proof (inline_free_parts _ Fa) as (A1 & A2 & A3).
  pose proof (inline_free_parts _ Fb) as (B1 & B2 & B3).
  pose proof (tidy_parts _ Tb) as ((y & b' & Eb & Hy) & _ & _ & _).
  assert (Tw : tidy w = true)
    by (apply solid_tidy, same_ci_solid with (v := js "Like");
        [exact Hw | reflexivity]).
  assert (Tl : tidy (a ++ SP :: w ++ SP :: b) = true)
    by (apply tidy_space; [exact Ta | now apply tidy_space]).
  unfold cleanLines.
  change (a ++ SP :: w ++ SP :: b)
    with (join [LF] [a ++ SP :: w ++ SP :: b]) at 1.
  rewrite splitLines_join by (constructor; [exact Tl | constructor]).
  cbn [filter]. rewrite Hk. cbn [join]. unfold stripInline.
  change (js " ") with [SP].
  assert (R : replaceAll re_like [SP] (a ++ SP :: w ++ SP :: b)
              = a ++ SP :: SP :: SP :: b).
  { apply replace_word with (W := js "Like")
                            (tail := [opt (Seq (star space) (plus digit))]);
      try reflexivity; try assumption.
    subst b. apply like_tail_idle; [exact Hy|].
    simpl in Hd. now apply negb_true_iff in Hd. }
  rewrite R.
  assert (G2 : mentions (js "Repl") (a ++ SP :: SP :: SP :: b) = false)
    by (rewrite mentions_gap by (reflexivity || discriminate);
        now rewrite A2, B2).
  assert (G3 : mentions (js "sorted") (a ++ SP :: SP :: SP :: b) = false)
    by (rewrite mentions_gap by (reflexivity || discriminate);
        now rewrite A3, B3).
  rewrite replace_reply_id, replace_reply_count_id,
    replace_replies_sorted_id, replace_sorted_by_id by assumption.
  rewrite collapse_gap by assumption.
  apply normalizeWhitespace_tidy. now apply tidy_space.
Qed.

(** A standalone [Reply], in any case, inside a sentence. *)
Lemma reply_removed (ctx : Ctx) (a w b : jsstring) :
  tidy a = true -> tidy b = true ->
  inline_free a = true -> inline_free b = true ->
  same_ci w (js "Reply") = true ->
  keepLine ctx (a ++ SP :: w ++ SP :: b) = true ->
  cleanLines (a ++ SP :: w ++ SP :: b) ctx = a ++ SP :: b.
Proof.
  intros Ta Tb Fa Fb Hw Hk.
  pose proof (inline_free_parts _ Fa) as (A1 & A2 & A3).
  pose proof (inline_free_parts _ Fb) as (B1 & B2 & B3).
  assert (Tw : tidy w = true)
    by (apply solid_tidy, same_ci_solid with (v := js "Reply");
        [exact Hw | reflexivity]).
  assert (Tl : tidy (a ++ SP :: w ++ SP :: b) = true)
    by (apply tidy_space; [exact Ta | now apply tidy_space]).
  unfold cleanLines.
  change (a ++ SP :: w ++ SP :: b)
    with (join [LF] [a ++ SP :: w ++ SP :: b]) at 1.
  rewrite splitLines_join by (constructor; [exact Tl | constructor]).
  cbn [filter]. rewrite Hk. cbn [join]. unfold stripInline.
  change (js " ") with [SP].
  assert (L : mentions (js "Like") (a ++ SP :: w ++ SP :: b) = false).
  { rewrite !mentions_space by (reflexivity || discriminate).
    rewrite (same_ci_mentions (js "Like") _ _ Hw), A1, B1. reflexivity. }
  rewrite (replace_like_id _ L).
  assert (R : replaceAll re_reply [SP] (a ++ SP :: w ++ SP :: b)
              = a ++ SP :: SP :: SP :: b).
  { apply replace_word with (W := js "Reply") (tail := []);
      try reflexivity; try assumption;
      now apply (mentions_app (js "Repl") (js "y")). }
  rewrite R.
  assert (G2 : mentions (js "Repl") (a ++ SP :: SP :: SP :: b) = false)
    by (rewrite mentions_gap by (reflexivity || discriminate);
        now rewrite A2, B2).
  assert (G3 : mentions (js "sorted") (a ++ SP :: SP :: SP :: b) = false)
    by (rewrite mentions_gap by (reflexivity || discriminate);
        now rewrite A3, B3).
  rewrite replace_reply_count_id, replace_replies_sorted_id,
    replace_sorted_by_id by assumption.
  rewrite collapse_gap by assumption.
  apply normalizeWhitespace_tidy. now apply tidy_space.
Qed.

(** *** Any number of words in a line *)

Lemma same_ci_starts (v w s : jsstring) :
  same_ci w v = true -> startsWith_ci v (w ++ s) = true.
Proof.
  revert w. induction v as [|c v IH]; intros [|x w] H; simpl in *;
    try congruence.
  apply andb_true_iff in H. destruct H as [H1 H2]. now rewrite H1, IH.
Qed.

Lemma same_ci_mentioned (v w : jsstring) :
  same_ci w v = true -> mentions v w = true.
Proof.
  intros H. pose proof (same_ci_starts v w [] H) as S. rewrite app_nil_r in S.
  destruct w; simpl; now rewrite S.
Qed.

Section Pass.
Variable W : jsstring.
Variable tail : list regex.
Variable hits : jsstring -> bool.
Hypothesis W_solid : solid W = true.
Hypothesis W_spaceless : spaceless W = true.
Hypothesis W_first : word_after W = true.
Hypothesis W_last : is_word (last W SP) = true.

Let r : regex := seqs (WordB :: seqs (map chr_i W) :: WordB :: tail).

(** A word and what the tail of the pattern takes after it. *)
Lemma word_hit_tail (w extra s : jsstring) (prev : option ascii) :
  same_ci w W = true -> word_before prev = false ->
  word_after (extra ++ s) = false ->
  run (seqs tail) (after prev w) (extra ++ s) []
    (fun _ s' c' => Some (s', c')) = Some (s, []) ->
  exec_at r prev (w ++ extra ++ s) = Some (s, []).
Proof.
  intros H Hp Ha Ht. pose proof (W_nonempty W_solid) as Wn.
  unfold exec_at, r. rewrite run_seqs_cons. cbn [run].
  assert (H1 : word_after (w ++ extra ++ s) = true).
  { destruct W as [|c v] eqn:E; [contradiction|].
    apply same_ci_word_head with (v := v) (c := c); [exact H | exact W_first]. }
  unfold at_boundary at 1. rewrite Hp, H1. cbn [xorb].
  rewrite run_seqs_cons, run_lit_same by exact H.
  rewrite run_seqs_cons. cbn [run].
  unfold at_boundary.
  rewrite (same_ci_word_last w prev SP H Wn W_last), Ha. cbn [xorb].
  exact Ht.
Qed.

(** One pass over a text with words in it: the words that the pass hits
    go, the others stay. *)
Lemma replace_pass (l : list (jsstring * jsstring)) :
  forall a prev,
    mentions W a = false ->
    Forall (fun wb =>
              mentions W (snd wb) = false
              /\ if hits (fst wb)
                 then fst wb <> []
                      /\ forall s,
                           exec_at r (Some SP) (fst wb ++ SP :: snd wb ++ s)
                           = Some (SP :: snd wb ++ s, [])
                 else mentions W (fst wb) = false) l ->
    replace_from r [SP] prev (a ++ tailpart l) 0
    = a ++ tailpart (map (fun wb => (blank hits (fst wb), snd wb)) l).
Proof.
  pose proof (W_nonempty W_solid) as Wn.
  induction l as [|[w b] l IH]; intros a prev Ha Hl.
  - cbn [tailpart map]. rewrite app_nil_r. apply replace_nowhere.
    now apply word_nowhere.
  - inversion Hl as [|x y [Hb Hw] Hl']. subst. cbn [fst snd] in *.
    cbn [tailpart map fst snd]. unfold blank at 1.
    destruct (hits w).
    + destruct Hw as [Hn Hw].
      change (a ++ SP :: w ++ SP :: b ++ tailpart l)
        with (a ++ [SP] ++ (w ++ SP :: b ++ tailpart l)).
      rewrite app_assoc.
      rewrite replace_before
        by now apply word_nowhere_before.
      rewrite after_app. cbn [after].
      destruct w as [|x w]; [now elim Hn|].
      change ((x :: w) ++ SP :: b ++ tailpart l)
        with (x :: w ++ SP :: b ++ tailpart l).
      rewrite replace_match with (cs := []) by apply Hw.
      change (SP :: b ++ tailpart l) with ((SP :: b) ++ tailpart l).
      rewrite IH; [| |exact Hl'].
      * rewrite <- !app_assoc. reflexivity.
      * change (SP :: b) with ([] ++ SP :: b).
        rewrite mentions_space by assumption.
        now rewrite (mentions_nil Wn), Hb.
    + replace (a ++ SP :: w ++ SP :: b ++ tailpart l)
        with ((a ++ SP :: w ++ SP :: b) ++ tailpart l)
        by (rewrite <- !app_assoc; cbn [app]; now rewrite <- !app_assoc).
      rewrite IH; [| |exact Hl'].
      * rewrite <- !app_assoc. cbn [app]. now rewrite <- !app_assoc.
      * rewrite !mentions_space by assumption. now rewrite Ha, Hw, Hb.
Qed.

End Pass.


Lemma tidy_weave (l : list (jsstring * jsstring)) :
  forall a,
    tidy a = true ->
    Forall (fun wb => tidy (fst wb) = true /\ tidy (snd wb) = true) l ->
    tidy (weave a l) = true.
Proof.
  unfold weave.
  induction l as [|[w b] l IH]; intros a Ha Hl.
  - cbn [tailpart]. now rewrite app_nil_r.
  - inversion Hl as [|x y [Hw Hb] Hl']. subst. cbn [tailpart fst snd] in *.
    apply tidy_space; [exact Ha|]. apply tidy_space; [exact Hw|].
    now apply IH.
Qed.

Lemma mentions_gaps (t : jsstring) (l : list (jsstring * jsstring)) :
  t <> [] -> spaceless t = true ->
  forall a,
    mentions t a = false ->
    Forall (fun wb => mentions t (snd wb) = false) l ->
    mentions t (a ++ tailpart (map (fun wb => ([SP], snd wb)) l)) = false.
Proof.
  intros Hn Hs. induction l as [|[w b] l IH]; intros a Ha Hl;
    cbn [map tailpart fst snd].
  - now rewrite app_nil_r.
  - inversion Hl as [|x y Hb Hl']. subst. cbn [snd] in Hb.
    replace (a ++ SP :: [SP] ++ SP :: b ++ tailpart (map (fun wb => ([SP], snd wb)) l))
      with ((a ++ SP :: SP :: SP :: b)
              ++ tailpart (map (fun wb => ([SP], snd wb)) l))
      by (rewrite <- app_assoc; reflexivity).
    apply IH; [|exact Hl'].
    rewrite mentions_gap by assumption. now rewrite Ha, Hb.
Qed.

(** The three spaces left by each word become one. *)
Lemma collapse_gaps (l : list (jsstring * jsstring)) :
  forall a prev,
    tidy a = true ->
    Forall (fun wb => tidy (snd wb) = true) l ->
    replace_from re_spaces [SP] prev
      (a ++ tailpart (map (fun wb => ([SP], snd wb)) l)) 0
    = join [SP] (a :: map snd l).
Proof.
  induction l as [|[w b] l IH]; intros a prev Ha Hl;
    cbn [map tailpart fst snd].
  - rewrite app_nil_r. cbn [join]. apply replace_nowhere, nowhere_spaces.
    now apply tidy_parts in Ha.
  - inversion Hl as [|x0 y0 Hb Hl']. subst. cbn [snd] in Hb.
    pose proof (tidy_parts _ Ha) as ((x & a' & Ea & Hx) & Hla & Hsa & _).
    pose proof (tidy_parts _ Hb) as ((y & b' & Eb & Hy) & _ & _ & _).
    set (L := tailpart (map (fun wb => ([SP], snd wb)) l)).
    change (a ++ SP :: [SP] ++ SP :: b ++ L)
      with (a ++ SP :: [SP; SP] ++ (b ++ L)).
    rewrite replace_before.
    + rewrite replace_match with (w := [SP; SP]) (cs := []).
      * subst L. rewrite IH by assumption.
        destruct l; reflexivity.
      * unfold exec_at, re_spaces, at_least, space. rewrite run_rep_class.
        change (SP :: [SP; SP] ++ b ++ L) with ([SP; SP; SP] ++ (b ++ L)).
        apply greedy_longest; [reflexivity | | simpl; lia | reflexivity].
        subst b. simpl. now rewrite Hy.
    + apply nowhere_before_spaces.
      apply single_spaced_snoc; [exact Hsa | exact Hla | subst a; discriminate].
Qed.

Lemma digit_not_space (x : ascii) : is_digit x = true -> is_space x = false.
Proof. each_ascii x. Qed.

Lemma digit_is_word (x : ascii) : is_digit x = true -> is_word x = true.
Proof. each_ascii x. Qed.

Lemma digits_solid (ds : jsstring) :
  ds <> [] -> forallb is_digit ds = true -> solid ds = true.
Proof.
  intros Hn H. unfold solid. apply andb_true_iff. split.
  - destruct ds; [now elim Hn | reflexivity].
  - apply (forallb_impl is_digit); [|exact H].
    intros x Hx. now rewrite digit_not_space.
Qed.

(** The optional spaces and digits after [Like] take a space and the
    digits that follow it. *)
Lemma like_tail_digits (ds rest : jsstring) :
  ds <> [] -> forallb is_digit ds = true ->
  forall prev c (k : cont (jsstring * caps)) m,
    k (after prev (SP :: ds)) (SP :: rest) c = Some m ->
    run (seqs [opt (Seq (star space) (plus digit))]) prev
      (SP :: ds ++ SP :: rest) c k = Some m.
Proof.
  intros Hn Hd prev c k m Hk. cbn [seqs]. unfold opt. cbn [run].
  cbn [Nat.add length rep_loop hi_is_zero].
  set (K := fun (prev' : option ascii) (s' : jsstring) (c' : caps) => _).
  change (rep_loop _ K _ _ _ _ _ _)
    with (run (star space) prev (SP :: ds ++ SP :: rest) c K).
  unfold star, space. rewrite run_rep_class.
  destruct ds as [|d ds]; [now elim Hn|].
  assert (Hd0 : is_digit d = true)
    by (simpl in Hd; now apply andb_true_iff in Hd).
  change (SP :: (d :: ds) ++ SP :: rest)
    with ([SP] ++ ((d :: ds) ++ SP :: rest)).
  rewrite greedy_longest with (a := m); [reflexivity | reflexivity | | simpl; lia |].
  - cbn [app stops]. now rewrite (digit_not_space _ Hd0).
  - subst K. cbv beta. unfold plus, digit. rewrite run_rep_class.
    rewrite greedy_longest with (a := m);
      [reflexivity | exact Hd | reflexivity | simpl; lia |].
    assert (L : (length (SP :: rest)
                 <? S (length ((d :: ds) ++ SP :: rest))) = true).
    { apply Nat.ltb_lt. rewrite !length_app. simpl. lia. }
    rewrite L.
    destruct (length ((d :: ds) ++ SP :: rest)) eqn:E;
      [rewrite length_app in E; simpl in E; lia|].
    cbn [rep_loop hi_is_zero dec_hi option_map pred].
    exact Hk.
Qed.

Lemma like_word_parts (w : jsstring) :
  like_word w = true ->
  exists w0 extra,
    w = w0 ++ extra /\ same_ci w0 (js "Like") = true
    /\ extra = skipn 4 w
    /\ (extra = []
        \/ exists ds, extra = SP :: ds /\ ds <> []
                      /\ forallb is_digit ds = true).
Proof.
  unfold like_word. rewrite andb_true_iff. intros [H1 H2].
  exists (firstn 4 w), (skipn 4 w).
  split; [symmetry; apply firstn_skipn|]. split; [exact H1|].
  split; [reflexivity|].
  destruct (skipn 4 w) as [|x ds]; [now left|]. right.
  rewrite !andb_true_iff in H2. destruct H2 as [[Hx Hl] Hd].
  apply Ascii.eqb_eq in Hx. subst x. exists ds.
  split; [reflexivity|]. split; [|exact Hd].
  destruct ds; [discriminate | discriminate].
Qed.

Lemma like_word_hit (w b s : jsstring) :
  like_word w = true -> tidy b = true ->
  (0 <? length (skipn 4 w)) || stops is_digit b = true ->
  exec_at re_like (Some SP) (w ++ SP :: b ++ s) = Some (SP :: b ++ s, []).
Proof.
  intros Hw Tb Hd.
  destruct (like_word_parts _ Hw) as (w0 & extra & -> & H0 & Ex & [E|E]).
  - rewrite <- Ex, E in Hd. cbn [length Nat.ltb Nat.leb orb] in Hd.
    subst extra. rewrite app_nil_r.
    pose proof (tidy_parts _ Tb) as ((y & b' & Eb & Hy) & _ & _ & _).
    subst b. simpl in Hd. apply negb_true_iff in Hd.
    change (w0 ++ SP :: (y :: b') ++ s) with (w0 ++ SP :: (y :: b' ++ s)).
    apply (word_hit (js "Like") [opt (Seq (star space) (plus digit))]
             (b := y :: b' ++ s)); try reflexivity; try assumption.
    now apply like_tail_idle.
  - destruct E as (ds & -> & Hn & Hds). clear Hd Ex.
    rewrite <- app_assoc.
    change ((SP :: ds) ++ SP :: b ++ s) with ((SP :: ds) ++ (SP :: b ++ s)).
    apply (word_hit_tail (js "Like")
             [opt (Seq (star space) (plus digit))]);
      try reflexivity; try assumption.
    change ((SP :: ds) ++ SP :: b ++ s) with (SP :: ds ++ SP :: (b ++ s)).
    now apply like_tail_digits.
Qed.

Lemma like_word_tidy (w : jsstring) : like_word w = true -> tidy w = true.
Proof.
  intros Hw.
  destruct (like_word_parts _ Hw) as (w0 & extra & -> & H0 & _ & [E|E]).
  - subst extra. rewrite app_nil_r.
    apply solid_tidy, same_ci_solid with (v := js "Like");
      [exact H0 | reflexivity].
  - destruct E as (ds & -> & Hn & Hds). apply tidy_space.
    + apply solid_tidy, same_ci_solid with (v := js "Like");
        [exact H0 | reflexivity].
    + now apply solid_tidy, digits_solid.
Qed.

Lemma woven_parts (w b : jsstring) :
  woven (w, b) = true ->
  tidy w = true /\ tidy b = true /\ inline_free b = true
  /\ blank reply_word (blank like_word w) = [SP]
  /\ (mentions (js "Like") b = false
      /\ if like_word w
         then w <> []
              /\ forall s,
                   exec_at re_like (Some SP) (w ++ SP :: b ++ s)
                   = Some (SP :: b ++ s, [])
         else mentions (js "Like") w = false)
  /\ (mentions (js "Reply") b = false
      /\ if reply_word (blank like_word w)
         then blank like_word w <> []
              /\ forall s,
                   exec_at re_reply (Some SP)
                     (blank like_word w ++ SP :: b ++ s)
                   = Some (SP :: b ++ s, [])
         else mentions (js "Reply") (blank like_word w) = false).
Proof.
  unfold woven. rewrite !andb_true_iff. intros [[Tb Fb] H].
  pose proof (inline_free_parts _ Fb) as (B1 & B2 & B3).
  assert (BR : mentions (js "Reply") b = false)
    by now apply (mentions_app (js "Repl") (js "y")).
  unfold blank. destruct (like_word w) eqn:L.
  - pose proof (like_word_tidy _ L) as Tw.
    repeat split; try assumption; try reflexivity.
    + intros E. subst w. discriminate.
    + intros s. now apply like_word_hit.
  - pose proof H as R. unfold reply_word in R.
    assert (Tw : tidy w = true)
      by (apply solid_tidy, same_ci_solid with (v := js "Reply");
          [exact R | reflexivity]).
    rewrite H. repeat split; try assumption.
    + now rewrite (same_ci_mentions (js "Like") _ _ R).
    + intros E. subst w. discriminate.
    + intros s.
      pose proof (tidy_parts _ Tb) as ((y & b' & Eb & Hy) & _ & _ & _).
      apply (word_hit (js "Reply") [] (b := b ++ s)); try reflexivity;
        try assumption.
Qed.

(** Every standalone [Like] and [Reply] of a line goes, however many
    there are. *)
Lemma words_removed (ctx : Ctx) (a : jsstring)
    (l : list (jsstring * jsstring)) :
  tidy a = true -> inline_free a = true ->
  forallb woven l = true ->
  keepLine ctx (weave a l) = true ->
  cleanLines (weave a l) ctx = join [SP] (a :: map snd l).
Proof.
  intros Ta Fa Hl Hk.
  pose proof (inline_free_parts _ Fa) as (A1 & A2 & A3).
  rewrite forallb_forall in Hl.
  assert (P : forall wb, In wb l -> woven (fst wb, snd wb) = true).
  { intros [w b] H. now apply Hl. }
  assert (Tl : tidy (weave a l) = true).
  { apply tidy_weave; [exact Ta|]. apply Forall_forall. intros wb H.
    destruct (woven_parts _ _ (P wb H)) as (T1 & T2 & _). now split. }
  unfold cleanLines.
  change (weave a l) with (join [LF] [weave a l]) at 1.
  rewrite splitLines_join by (constructor; [exact Tl | constructor]).
  cbn [filter]. rewrite Hk. cbn [join]. unfold stripInline, weave.
  change (js " ") with [SP].
  assert (R1 : replaceAll re_like [SP] (a ++ tailpart l)
               = a ++ tailpart
                        (map (fun wb => (blank like_word (fst wb), snd wb)) l)).
  { unfold replaceAll.
    apply (@replace_pass (js "Like")
             [opt (Seq (star space) (plus digit))] like_word);
      try reflexivity; try assumption.
    apply Forall_forall. intros wb H.
    destruct (woven_parts _ _ (P wb H)) as (_ & _ & _ & _ & K & _).
    exact K. }
  rewrite R1.
  assert (R2 : replaceAll re_reply [SP]
                 (a ++ tailpart
                         (map (fun wb => (blank like_word (fst wb), snd wb)) l))
               = a ++ tailpart (map (fun wb => ([SP], snd wb)) l)).
  { unfold replaceAll.
    rewrite (@replace_pass (js "Reply") [] reply_word);
      try reflexivity.
    - rewrite map_map. cbn [fst snd]. f_equal. f_equal.
      apply map_ext_in. intros wb H.
      destruct (woven_parts _ _ (P wb H)) as (_ & _ & _ & K & _).
      now rewrite K.
    - now apply (mentions_app (js "Repl") (js "y")).
    - apply Forall_forall. intros wb H. apply in_map_iff in H.
      destruct H as (wb0 & <- & H). cbn [fst snd].
      destruct (woven_parts _ _ (P wb0 H)) as (_ & _ & _ & _ & _ & K).
      exact K. }
  rewrite R2.
  assert (G2 : mentions (js "Repl")
                 (a ++ tailpart (map (fun wb => ([SP], snd wb)) l)) = false).
  { apply mentions_gaps; try reflexivity; try discriminate; [exact A2|].
    apply Forall_forall. intros wb H.
    destruct (woven_parts _ _ (P wb H)) as (_ & _ & F & _).
    now apply inline_free_parts in F. }
  assert (G3 : mentions (js "sorted")
                 (a ++ tailpart (map (fun wb => ([SP], snd wb)) l)) = false).
  { apply mentions_gaps; try reflexivity; try discriminate; [exact A3|].
    apply Forall_forall. intros wb H.
    destruct (woven_parts _ _ (P wb H)) as (_ & _ & F & _).
    now apply inline_free_parts in F. }
  rewrite replace_reply_count_id, replace_replies_sorted_id,
    replace_sorted_by_id by assumption.
  assert (T : Forall (fun wb : jsstring * jsstring => tidy (snd wb) = true) l).
  { apply Forall_forall. intros wb H.
    now destruct (woven_parts _ _ (P wb H)) as (_ & T2 & _). }
  unfold replaceAll. rewrite collapse_gaps by assumption.
  apply normalizeWhitespace_tidy. apply tidy_join.
  constructor; [exact Ta|]. apply Forall_forall. intros b H.
  apply in_map_iff in H. destruct H as (wb & <- & H).
  rewrite Forall_forall in T. now apply T.
Qed.

End InlineFacts.

Module InlineTheorems.
Import RegexDefs CleanDefs CleanTheorems InlineFacts InlineDefs.

(** C9. After joining, every standalone [Like] (with the digits that
    follow it after whitespace) and every standalone [Reply], in any case,
    is taken out of the text also inside a sentence: [I like this feature]
    becomes [I this feature], and [I like it and you like it too] becomes
    [I it and you it too].  In general a line made of a tidy text and
    any number of such words, [Like] with or without digits after a
    space, each followed by a tidy text, all texts free of inline residue,
    leaves the texts joined by single spaces; so does one such word
    between two texts.  A [like] or [reply] inside a longer word stays. *)
Theorem inline_words_deleted :
  cleanLines (js "I like this feature") no_ctx = js "I this feature"
  /\ cleanLines (js "Please reply soon") no_ctx = js "Please soon"
  /\ cleanLines (js "We got Like 12 apples") no_ctx = js "We got apples"
  /\ cleanLines (js "Did you LIKE it? Reply, please") no_ctx
     = js "Did you it? , please"
  /\ cleanLines (js "I dislike unlikely replies") no_ctx
     = js "I dislike unlikely replies"
  /\ cleanLines (js "LikeLike0ReplyReply") no_ctx = js "LikeLike0ReplyReply"
  /\ cleanLines (js "I like it and you like it too") no_ctx
     = js "I it and you it too"
  /\ cleanLines (js "We like to reply, they LIKE to Reply late") no_ctx
     = js "We to , they to late"
  /\ cleanLines (js "Like it or not") no_ctx = js "it or not"
  /\ cleanLines (js "I agree, Like") no_ctx = js "I agree,"
  /\ cleanLines (js "First like" ++ LF :: js "then reply" ++ LF
                   :: js "and like again") no_ctx
     = js "First then and again"
  /\ (forall ctx a l,
        tidy a = true -> inline_free a = true ->
        forallb woven l = true ->
        keepLine ctx (weave a l) = true ->
        cleanLines (weave a l) ctx = join [SP] (a :: map snd l))
  /\ (forall ctx a w b,
        tidy a = true -> tidy b = true ->
        inline_free a = true -> inline_free b = true ->
        same_ci w (js "Like") = true -> stops is_digit b = true ->
        keepLine ctx (a ++ SP :: w ++ SP :: b) = true ->
        cleanLines (a ++ SP :: w ++ SP :: b) ctx = a ++ SP :: b)
  /\ (forall ctx a w b,
        tidy a = true -> tidy b = true ->
        inline_free a = true -> inline_free b = true ->
        same_ci w (js "Reply") = true ->
        keepLine ctx (a ++ SP :: w ++ SP :: b) = true ->
        cleanLines (a ++ SP :: w ++ SP :: b) ctx = a ++ SP :: b).
Proof.
  do 11 (split; [vm_compute; reflexivity|]).
  split; [|split].
  - intros ctx a l. apply words_removed.
  - intros ctx a w b. apply like_removed.
  - intros ctx a w b. apply reply_removed.
Qed.

Lemma inline_words_deleted_witness :
  tidy (js "I") = true /\ tidy (js "this feature") = true
  /\ same_ci (js "LIKE") (js "Like") = true
  /\ keepLine no_ctx (js "I" ++ SP :: js "LIKE" ++ SP :: js "this feature")
     = true
  /\ cleanLines (js "I" ++ SP :: js "LIKE" ++ SP :: js "this feature") no_ctx
     = js "I" ++ SP :: js "this feature"
  /\ forallb woven [(js "like", js "to"); (js "REPLY", js "when they");
                    (js "Like 12", js "it")] = true
  /\ weave (js "We") [(js "like", js "to"); (js "REPLY", js "when they");
                      (js "Like 12", js "it")]
     = js "We like to REPLY when they Like 12 it"
  /\ cleanLines (weave (js "We") [(js "like", js "to");
                                  (js "REPLY", js "when they");
                                  (js "Like 12", js "it")]) no_ctx
     = js "We to when they it".
Proof.
  destruct inline_words_deleted
    as (_ & _ & _ & _ & _ & _ & _ & _ & _ & _ & _ & Many & One & _).
  split; [reflexivity|]. split; [reflexivity|]. split; [reflexivity|].
  split; [vm_compute; reflexivity|].
  split; [|split; [|split]].
  - apply (One no_ctx (js "I") (js "LIKE") (js "this feature"));
      vm_compute; reflexivity.
  - vm_compute. reflexivity.
  - vm_compute. reflexivity.
  - apply (Many no_ctx (js "We") [(js "like", js "to");
                                  (js "REPLY", js "when they");
                                  (js "Like 12", js "it")]);
      vm_compute; reflexivity.
Defined.

End InlineTheorems.

(* ================================================================== *)
(** ** Reply reconciler and empty-reply filter *)
(* ================================================================== *)

Module DetailFacts.
Import Detail.

Lemma limitReplies_incl (e : option number) (l : list Reply.t) (r : Reply.t) :
  In r (limitReplies e l) -> In r l.
Proof.
  unfold limitReplies.
  destruct e as [[z|]|]; simpl; try tauto.
  destruct (0 <=? z)%Z; try tauto.
  intros H. rewrite <- (firstn_skipn (Z.to_nat z) l).
  apply in_or_app. now left.
Qed.

Lemma build_replies (url : jsstring) (snap : Snapshot) :
  DiscussionDetail.replies (build url snap)
  = limitReplies (expectedReplies snap) (cleanReplies (repliesRaw snap)).
Proof. unfold build. destruct (mainPost snap). reflexivity. Qed.

Lemma build_comments (url : jsstring) (snap : Snapshot) :
  DiscussionDetail.comments (build url snap)
  = length (DiscussionDetail.replies (build url snap)).
Proof. unfold build. destruct (mainPost snap). reflexivity. Qed.

Lemma build_likes (url : jsstring) (snap : Snapshot) :
  DiscussionDetail.likes (build url snap) = 0.
Proof. unfold build. destruct (mainPost snap). reflexivity. Qed.

Lemma keepReply_true (r : Reply.t) :
  keepReply r = true ->
  trim (Reply.author r) <> [] \/ trim (Reply.content r) <> [].
Proof.
  unfold keepReply. intros H.
  apply orb_true_iff in H. destruct H as [H|H];
    apply andb_true_iff in H; destruct H as [_ H];
    apply Nat.ltb_lt in H; [left|right]; intros E; rewrite E in H;
    simpl in H; lia.
Qed.

Lemma trim_nil : trim [] = [].
Proof. reflexivity. Qed.

(** C1. For every discussion: with a declared count [z] (an integer
    [>= 0], as [parseInt] of digits gives) the final replies are the first
    [z] extracted replies, so at most [z] and in extraction order; with
    [Infinity] or no declared count the extracted list is kept as it is;
    and [comments] is always the length of the final list. *)
Theorem reply_count_reconciled (url : jsstring) (snap : Snapshot) :
  let d := build url snap in
  let extracted := cleanReplies (repliesRaw snap) in
  (forall z : Z, expectedReplies snap = Some (Int z) -> (0 <= z)%Z ->
     DiscussionDetail.replies d = firstn (Z.to_nat z) extracted
     /\ (Z.of_nat (length (DiscussionDetail.replies d)) <= z)%Z)
  /\ (expectedReplies snap = Some Infinity ->
      DiscussionDetail.replies d = extracted)
  /\ (expectedReplies snap = None ->
      DiscussionDetail.replies d = extracted)
  /\ DiscussionDetail.comments d = length (DiscussionDetail.replies d).
Proof.
  intros d extracted. subst d.
  rewrite build_comments, build_replies. fold extracted.
  repeat split.
  - rewrite H. simpl. apply Z.leb_le in H0. now rewrite H0.
  - rewrite H. simpl. apply Z.leb_le in H0. rewrite H0.
    pose proof (firstn_le_length (Z.to_nat z) extracted). lia.
  - intros H. now rewrite H.
  - intros H. now rewrite H.
Qed.

(** C6. Every reply of the final list has a non-blank author or a
    non-blank content, hence a non-empty author or a non-empty content; a
    reply whose author and content are both empty or blank after cleaning
    and inference is not in the list. *)
Theorem empty_replies_dropped (url : jsstring) (snap : Snapshot) :
  let final := DiscussionDetail.replies (build url snap) in
  (forall r, In r final ->
     trim (Reply.author r) <> [] \/ trim (Reply.content r) <> [])
  /\ (forall r, In r final -> Reply.author r <> [] \/ Reply.content r <> [])
  /\ (forall raw, In raw (repliesRaw snap) ->
      trim (Reply.author (cleanReply raw)) = [] ->
      trim (Reply.content (cleanReply raw)) = [] ->
      ~ In (cleanReply raw) final).
Proof.
  intros final. subst final. rewrite build_replies.
  assert (K : forall r,
             In r (limitReplies (expectedReplies snap)
                     (cleanReplies (repliesRaw snap))) ->
             trim (Reply.author r) <> [] \/ trim (Reply.content r) <> []).
  { intros r H. apply limitReplies_incl in H.
    unfold cleanReplies in H. apply filter_In in H.
    apply keepReply_true. tauto. }
  repeat split.
  - exact K.
  - intros r H. destruct (K r H) as [N|N]; [left|right];
      intros E; rewrite E in N; now apply N.
  - intros raw _ Ha Hc H. destruct (K _ H); tauto.
Qed.

End DetailFacts.

(* ================================================================== *)
(** ** List crawler: the dedup store *)
(* ================================================================== *)


Module CrawlFacts.
Import Scraper Outcome JSFacts.

Local Abbreviation Summary := DiscussionSummary.t.
Local Abbreviation url := DiscussionSummary.url.

Lemma collect_fold (summaries : list Summary) (m : JsMap.t Summary) :
  collectFromCurrentPage summaries m = fold_left sight summaries m.
Proof. reflexivity. Qed.

Lemma crawl_fold (sightings : list (list Summary)) :
  forall m,
    fold_left (fun collected summaries =>
                 collectFromCurrentPage summaries collected) sightings m
    = fold_left sight (concat sightings) m.
Proof.
  induction sightings as [|ss sightings IH]; intros m; [reflexivity|].
  simpl. rewrite fold_left_app, IH. reflexivity.
Qed.

Lemma get_set_absent (m : JsMap.t Summary) (k u : jsstring) (v : Summary) :
  JsMap.get m k = None ->
  JsMap.get (JsMap.set m k v) u
  = if JS.eqb u k then Some v else JsMap.get m u.
Proof.
  induction m as [|[k' v'] m IH]; simpl.
  - intros _. reflexivity.
  - destruct (JS.eqb k k') eqn:E; [discriminate|]. intros H. simpl.
    destruct (JS.eqb u k') eqn:E'.
    + destruct (JS.eqb u k) eqn:E''; [|reflexivity].
      apply eqb_eq in E', E''. subst. rewrite eqb_refl in E. discriminate.
    + now apply IH.
Qed.

Lemma keys_set_absent (m : JsMap.t Summary) (k : jsstring) (v : Summary) :
  JsMap.get m k = None ->
  JsMap.keys (JsMap.set m k v) = JsMap.keys m ++ [k].
Proof.
  unfold JsMap.keys. induction m as [|[k' v'] m IH]; simpl.
  - reflexivity.
  - destruct (JS.eqb k k'); [discriminate|]. intros H. simpl.
    now rewrite IH.
Qed.

Lemma get_none_keys (m : JsMap.t Summary) (k : jsstring) :
  JsMap.get m k = None -> ~ In k (JsMap.keys m).
Proof.
  unfold JsMap.keys. induction m as [|[k' v'] m IH]; simpl; [tauto|].
  destruct (JS.eqb k k') eqn:E; [discriminate|].
  intros H [K|K]; [|now apply IH].
  subst. rewrite eqb_refl in E. discriminate.
Qed.

Lemma has_get (m : JsMap.t Summary) (k : jsstring) :
  JsMap.has m k = false <-> JsMap.get m k = None.
Proof. unfold JsMap.has. destruct (JsMap.get m k); split; congruence. Qed.

(** One sighting: a present key keeps its value, an absent one takes the
    sighted summary when its URL is non-empty. *)
Lemma get_sight (m : JsMap.t Summary) (s : Summary) (u : jsstring) :
  JsMap.get (sight m s) u =
  match JsMap.get m u with
  | Some v => Some v
  | None => if truthy u && JS.eqb u (url s) then Some s else None
  end.
Proof.
  unfold sight.
  destruct (truthy (url s)) eqn:T; simpl.
  - destruct (JsMap.has m (url s)) eqn:H; simpl.
    + unfold JsMap.has in H.
      destruct (JsMap.get m u) eqn:G; [reflexivity|].
      destruct (JS.eqb u (url s)) eqn:E; [|now rewrite andb_false_r].
      apply eqb_eq in E. subst u. rewrite G in H. discriminate.
    + apply has_get in H. rewrite get_set_absent by exact H.
      destruct (JS.eqb u (url s)) eqn:E.
      * apply eqb_eq in E. subst u. now rewrite H, T.
      * rewrite andb_false_r. now destruct (JsMap.get m u).
  - destruct (JsMap.get m u) eqn:G; [reflexivity|].
    destruct (JS.eqb u (url s)) eqn:E; [|now rewrite andb_false_r].
    apply eqb_eq in E. subst u. now rewrite T.
Qed.

Lemma get_fold_sight (l : list Summary) :
  forall (m : JsMap.t Summary) (u : jsstring),
    JsMap.get (fold_left sight l m) u =
    match JsMap.get m u with
    | Some v => Some v
    | None => if truthy u then firstSighting u l else None
    end.
Proof.
  induction l as [|s l IH]; intros m u; simpl.
  - destruct (JsMap.get m u); [reflexivity|]. now destruct (truthy u).
  - rewrite IH, get_sight.
    destruct (JsMap.get m u); [reflexivity|].
    destruct (truthy u); simpl; [|reflexivity].
    now destruct (JS.eqb u (url s)).
Qed.

Lemma NoDup_snoc (k : jsstring) (ks : list jsstring) :
  NoDup ks -> ~ In k ks -> NoDup (ks ++ [k]).
Proof.
  intros N I. apply NoDup_app; [exact N | repeat constructor; intros [] |].
  intros x Hx [<-|[]]. contradiction.
Qed.

Lemma keys_sight_nodup (m : JsMap.t Summary) (s : Summary) :
  NoDup (JsMap.keys m) -> NoDup (JsMap.keys (sight m s)).
Proof.
  intros N. unfold sight.
  destruct (truthy (url s) && negb (JsMap.has m (url s))) eqn:C; [|exact N].
  apply andb_true_iff in C. destruct C as [_ C].
  apply negb_true_iff, has_get in C.
  rewrite keys_set_absent by exact C.
  apply NoDup_snoc; [exact N | now apply get_none_keys].
Qed.

Lemma keys_fold_nodup (l : list Summary) :
  forall m, NoDup (JsMap.keys m) -> NoDup (JsMap.keys (fold_left sight l m)).
Proof.
  induction l as [|s l IH]; intros m N; simpl; [exact N|].
  apply IH. now apply keys_sight_nodup.
Qed.

End CrawlFacts.

Module CrawlTheorems.
Import Scraper Outcome JSFacts CrawlFacts.

Lemma keys_get (m : JsMap.t DiscussionSummary.t) (k : jsstring) :
  In k (JsMap.keys m) -> exists v, JsMap.get m k = Some v.
Proof.
  unfold JsMap.keys. induction m as [|[k' v'] m IH]; simpl; [tauto|].
  intros [->|H].
  - rewrite eqb_refl. now exists v'.
  - destruct (JS.eqb k k'); [now exists v' | now apply IH].
Qed.

Lemma crawl_get (sightings : list (list DiscussionSummary.t)) (u : jsstring) :
  JsMap.get (crawl sightings) u
  = if truthy u then firstSighting u (concat sightings) else None.
Proof.
  unfold crawl. rewrite crawl_fold, get_fold_sight. reflexivity.
Qed.

(** C2. Over any sequence of listing extractions the store has no key
    twice; its keys are the non-empty URLs sighted; each key holds the
    summary of the first sighting of its URL; a call of
    [collectFromCurrentPage] never changes the value of a key already
    present; and rows A, B, C followed by C, D give A, B, C, D with C as
    on the first page. *)
Theorem first_sighting_wins (sightings : list (list DiscussionSummary.t)) :
  let store := crawl sightings in
  let seen := concat sightings in
  NoDup (JsMap.keys store)
  /\ (forall u, In u (JsMap.keys store) <->
                u <> [] /\ exists s, In s seen /\ DiscussionSummary.url s = u)
  /\ (forall u, u <> [] -> JsMap.get store u = firstSighting u seen)
  /\ JsMap.get store [] = None
  /\ (forall summaries collected u v,
        JsMap.get collected u = Some v ->
        JsMap.get (collectFromCurrentPage summaries collected) u = Some v)
  /\ JsMap.values (crawl [Sample.firstPage; Sample.nextPage])
     = [Sample.rowA; Sample.rowB; Sample.rowC; Sample.rowD].
Proof.
  intros store seen. subst store seen.
  split; [|split; [|split; [|split; [|split]]]].
  - unfold crawl. rewrite crawl_fold. apply keys_fold_nodup. constructor.
  - intros u. split.
    + intros H. apply keys_get in H. destruct H as [v H].
      rewrite crawl_get in H. destruct u as [|c u]; [discriminate|].
      split; [discriminate|]. simpl in H. unfold firstSighting in H.
      apply find_some in H. destruct H as [I E]. apply eqb_eq in E.
      now exists v.
    + intros [Hu [s [I E]]].
      destruct (in_dec (list_eq_dec ascii_dec) u (JsMap.keys (crawl sightings)))
        as [K|K]; [exact K|exfalso].
      assert (G : JsMap.get (crawl sightings) u = None).
      { destruct (JsMap.get (crawl sightings) u) eqn:G; [|reflexivity].
        exfalso. apply K. clear - G.
        unfold JsMap.keys. induction (crawl sightings) as [|[k' v'] m IH];
          simpl in *; [discriminate|].
        destruct (JS.eqb u k') eqn:E'; [left; symmetry; now apply eqb_eq|].
        right. now apply IH. }
      rewrite crawl_get in G. destruct u as [|c u]; [now apply Hu|].
      cbn [truthy] in G. unfold firstSighting in G.
      eapply find_none in G; [|exact I]. cbv beta in G.
      rewrite E, eqb_refl in G. discriminate.
  - intros u Hu. rewrite crawl_get.
    destruct u; [exfalso; now apply Hu | reflexivity].
  - now rewrite crawl_get.
  - intros summaries collected u v H.
    rewrite collect_fold, get_fold_sight, H. reflexivity.
  - vm_compute. reflexivity.
Qed.

End CrawlTheorems.

(* ================================================================== *)
(** ** Facts on computations *)
(* ================================================================== *)

Module EffFacts.
Section WithPage.
Local Open Scope scraper_scope.
Context {Page exn : Type}.

Local Abbreviation Eff := (M Page exn).

Lemma bind_inr {A B} (m : Eff A) (f : A -> Eff B) (p p1 : Page) (a : A)
    (t1 : list event) :
  m p = (inr a, p1, t1) ->
  bind m f p
  = (value_of (f a p1), page_of (f a p1), t1 ++ trace_of (f a p1)).
Proof.
  intros H. unfold bind, value_of, page_of, trace_of. rewrite H.
  now destruct (f a p1) as [[r p2] t2].
Qed.

Lemma bind_inl {A B} (m : Eff A) (f : A -> Eff B) (p p1 : Page) (e : exn)
    (t1 : list event) :
  m p = (inl e, p1, t1) -> bind m f p = (inl e, p1, t1).
Proof. intros H. unfold bind. now rewrite H. Qed.

Lemma returns_ret {A} (a : A) : returns (ret a : Eff A).
Proof. intros p. now exists a. Qed.

Lemma returns_peek {A} (f : Page -> A) : returns (peek f : Eff A).
Proof. intros p. now exists (f p). Qed.

Lemma returns_act (ev : event) (f : Page -> Page) :
  returns (act ev f : Eff unit).
Proof. intros p. now exists tt. Qed.

Lemma returns_bind {A B} (m : Eff A) (f : A -> Eff B) :
  returns m -> (forall a, returns (f a)) -> returns (bind m f).
Proof.
  intros Hm Hf p. destruct (Hm p) as [a Ha].
  unfold bind, value_of in *.
  destruct (m p) as [[r p1] t1]. simpl in Ha. subst r.
  destruct (Hf a p1) as [b Hb]. unfold value_of in Hb.
  destruct (f a p1) as [[r p2] t2]. simpl in *. now exists b.
Qed.

Lemma emits_ret {A} (Q : event -> bool) (a : A) : emits Q (ret a : Eff A).
Proof. intros p. reflexivity. Qed.

Lemma emits_throw {A} (Q : event -> bool) (e : exn) :
  emits Q (throw e : Eff A).
Proof. intros p. reflexivity. Qed.

Lemma emits_peek {A} (Q : event -> bool) (f : Page -> A) :
  emits Q (peek f : Eff A).
Proof. intros p. reflexivity. Qed.

Lemma emits_act (Q : event -> bool) (ev : event) (f : Page -> Page) :
  Q ev = true -> emits Q (act ev f : Eff unit).
Proof. intros H p. simpl. now rewrite H. Qed.

Lemma emits_attempt (Q : event -> bool) (ev : event)
    (f : Page -> Page * option exn) :
  Q ev = true -> emits Q (attempt ev f).
Proof.
  intros H p. unfold attempt, trace_of.
  destruct (f p) as [p1 [e|]]; simpl; now rewrite H.
Qed.

Lemma emits_bind {A B} (Q : event -> bool) (m : Eff A) (f : A -> Eff B) :
  emits Q m -> (forall a, emits Q (f a)) -> emits Q (bind m f).
Proof.
  intros Hm Hf p. specialize (Hm p).
  unfold bind, trace_of in *.
  destruct (m p) as [[[e|a] p1] t1]; simpl in *; [exact Hm|].
  specialize (Hf a p1). unfold trace_of in Hf.
  destruct (f a p1) as [[r p2] t2]. simpl in *.
  rewrite forallb_app. now rewrite Hm, Hf.
Qed.

Lemma emits_weaken {A} (Q R : event -> bool) (m : Eff A) :
  (forall ev, Q ev = true -> R ev = true) -> emits Q m -> emits R m.
Proof.
  intros QR H p. specialize (H p).
  rewrite forallb_forall in *. auto.
Qed.

Lemma yields_bind {A B} (Q : B -> Prop) (m : Eff A) (f : A -> Eff B) :
  (forall a, yields Q (f a)) -> yields Q (bind m f).
Proof.
  intros Hf p b. unfold bind, value_of.
  destruct (m p) as [[[e|a] p1] t1]; simpl; [discriminate|].
  specialize (Hf a p1 b). unfold value_of in Hf.
  destruct (f a p1) as [[r p2] t2]. exact Hf.
Qed.

End WithPage.

Lemma visited_app (t1 t2 : list event) :
  visited (t1 ++ t2) = visited t1 ++ visited t2.
Proof. apply flat_map_app. Qed.

Lemma failures_app (t1 t2 : list event) :
  failures (t1 ++ t2) = failures t1 ++ failures t2.
Proof. apply flat_map_app. Qed.

Lemma elevated_app (t1 t2 : list event) :
  elevated (t1 ++ t2) = elevated t1 + elevated t2.
Proof. unfold elevated. now rewrite filter_app, length_app. Qed.

Lemma activations_app (t1 t2 : list event) :
  activations (t1 ++ t2) = activations t1 + activations t2.
Proof. unfold activations. now rewrite filter_app, length_app. Qed.

Lemma rounds_app (t1 t2 : list event) :
  rounds (t1 ++ t2) = rounds t1 + rounds t2.
Proof. unfold rounds. now rewrite filter_app, length_app. Qed.

Lemma click_events_rounds (t : list event) :
  forallb click_event t = true -> rounds t = 0.
Proof.
  induction t as [|ev t IH]; [reflexivity|]. simpl.
  intros H. apply andb_true_iff in H. destruct H as [H1 H2].
  destruct ev; try discriminate; simpl; auto.
Qed.

Lemma detail_events_unmarked (t : list event) :
  forallb detail_event t = true ->
  visited t = [] /\ failures t = [] /\ elevated t = 0.
Proof.
  induction t as [|ev t IH]; [now repeat split|]. simpl.
  intros H. apply andb_true_iff in H. destruct H as [H1 H2].
  destruct (IH H2) as (V & F & E).
  destruct ev as [u|sel i|dy|[ms|b sp]| | |u]; try discriminate;
    unfold elevated in *; simpl; repeat split; auto.
  simpl in H1. apply orb_true_iff in H1.
  destruct H1 as [H1|H1]; apply N.eqb_eq in H1; subst ms; exact E.
Qed.

Lemma click_revealer_event (ev : event) :
  click_event ev = true -> revealer_event ev = true.
Proof.
  destruct ev as [u|sel i|dy|[ms|b sp]| | |u]; simpl; try congruence.
  intros ->. reflexivity.
Qed.

Lemma revealer_detail_event (ev : event) :
  revealer_event ev = true -> detail_event ev = true.
Proof. destruct ev as [u|sel i|dy|[ms|b sp]| | |u]; simpl; congruence. Qed.

End EffFacts.

(* ================================================================== *)
(** ** Content revealer *)
(* ================================================================== *)

Module RevealerFacts.
Section WithAccessor.
Local Open Scope scraper_scope.
Import Scraper Outcome EffFacts.

Context {Page exn : Type} {accessor : Accessor Page exn}.

Local Abbreviation Eff := (M Page exn).

Lemma shown_false (p : Page) (sel : jsstring) (i : nat) :
  shown p sel i = false <-> isVisible p sel i <> Some true.
Proof.
  unfold shown. destruct (isVisible p sel i) as [[|]|]; split;
    congruence.
Qed.

(** One index of the inner loop. *)
Lemma clickMatches_step (sel : jsstring) (i todo : nat) (b : bool) (p : Page) :
  clickMatches (exn := exn) sel i (S todo) b p =
  if shown p sel i then
    let o := clickMatches (exn := exn) sel (S i) todo true
               (sleep (Fixed 150%N) (click p sel i)) in
    (value_of o, page_of o,
     Click sel i :: Delay (Fixed 150%N) :: trace_of o)
  else clickMatches sel (S i) todo b p.
Proof.
  cbn [clickMatches]. unfold bind at 1, visibleNow, peek. fold (shown p sel i).
  destruct (shown p sel i).
  - unfold bind, act, delay, act, value_of, page_of, trace_of.
    destruct (clickMatches sel (S i) todo true
                (sleep (Fixed 150%N) (click p sel i))) as [[r q] t].
    reflexivity.
  - destruct (clickMatches sel (S i) todo b p) as [[r q] t]. reflexivity.
Qed.

Lemma clickMatches_returns (sel : jsstring) (todo : nat) :
  forall i b, returns (clickMatches (exn := exn) sel i todo b).
Proof.
  induction todo as [|todo IH]; intros i b; cbn [clickMatches].
  - apply returns_ret.
  - apply returns_bind; [apply returns_peek|].
    intros [|]; [|apply IH].
    apply returns_bind; [apply returns_act|]. intros _.
    apply returns_bind; [apply returns_act|]. intros _. apply IH.
Qed.

Lemma clickMatches_emits (sel : jsstring) (todo : nat) :
  forall i b, emits click_event (clickMatches (exn := exn) sel i todo b).
Proof.
  induction todo as [|todo IH]; intros i b; cbn [clickMatches].
  - apply emits_ret.
  - apply emits_bind; [apply emits_peek|].
    intros [|]; [|apply IH].
    apply emits_bind; [now apply emits_act|]. intros _.
    apply emits_bind; [now apply emits_act|]. intros _. apply IH.
Qed.

Lemma clickSelectors_emits (sels : list jsstring) :
  forall b, emits click_event (clickSelectors (exn := exn) sels b).
Proof.
  induction sels as [|sel sels IH]; intros b; cbn [clickSelectors].
  - apply emits_ret.
  - apply emits_bind; [apply emits_peek|]. intros [e|n]; [apply emits_throw|].
    apply emits_bind; [apply clickMatches_emits|]. intros c. apply IH.
Qed.

Lemma expandRounds_emits (budget : nat) :
  emits revealer_event (expandRounds (exn := exn) budget).
Proof.
  induction budget as [|budget IH]; cbn [expandRounds].
  - apply emits_ret.
  - apply emits_bind.
    { eapply emits_weaken; [apply click_revealer_event|].
      apply clickSelectors_emits. }
    intros b.
    apply emits_bind; [now apply emits_attempt|]. intros _.
    apply emits_bind; [now apply emits_act|]. intros _.
    destruct b; simpl; [apply IH | apply emits_ret].
Qed.

(** A pass of the inner loop that ends with [clickedAny] false clicked
    nothing, and then every index it looked at was not visible. *)
Lemma clickMatches_false (sel : jsstring) (todo : nat) :
  forall i b p q t,
    clickMatches (exn := exn) sel i todo b p = (inr false, q, t) ->
    b = false /\ q = p /\ t = []
    /\ forall j, i <= j < i + todo -> shown p sel j = false.
Proof.
  induction todo as [|todo IH]; intros i b p q t H.
  - cbn in H. injection H as -> -> ->. repeat split. intros j Hj. lia.
  - rewrite clickMatches_step in H.
    destruct (shown p sel i) eqn:V.
    + cbv zeta in H.
      destruct (clickMatches sel (S i) todo true
                  (sleep (Fixed 150%N) (click p sel i))) as [[r q'] t'] eqn:R.
      unfold value_of in H. cbn [fst snd] in H.
      injection H as -> _ _.
      apply IH in R. destruct R as [R _]. discriminate.
    + apply IH in H. destruct H as (-> & -> & -> & K).
      repeat split. intros j Hj.
      destruct (Nat.eq_dec j i) as [->|N]; [exact V|]. apply K. lia.
Qed.

Lemma clickMatches_none (sel : jsstring) (todo : nat) :
  forall i b p,
    (forall j, i <= j < i + todo -> shown p sel j = false) ->
    clickMatches (exn := exn) sel i todo b p = (inr b, p, []).
Proof.
  induction todo as [|todo IH]; intros i b p K; [reflexivity|].
  rewrite clickMatches_step, (K i) by lia. apply IH.
  intros j Hj. apply K. lia.
Qed.

Lemma clickMatches_sticky (sel : jsstring) (todo : nat) :
  forall i p, value_of (clickMatches (exn := exn) sel i todo true p) = inr true.
Proof.
  induction todo as [|todo IH]; intros i p; [reflexivity|].
  rewrite clickMatches_step. destruct (shown p sel i); [|apply IH].
  cbv zeta. unfold value_of at 1. cbn [fst]. apply IH.
Qed.

(** One selector of the middle loop: the count may be rejected. *)
Lemma clickSelectors_step (sel : jsstring) (sels : list jsstring) (b : bool)
    (p : Page) :
  clickSelectors (exn := exn) (sel :: sels) b p =
  match count p sel with
  | inl e => (inl e, p, [])
  | inr n =>
      let o := clickMatches (exn := exn) sel 0 n b p in
      match value_of o with
      | inr c =>
          let o' := clickSelectors (exn := exn) sels c (page_of o) in
          (value_of o', page_of o', trace_of o ++ trace_of o')
      | inl e => (inl e, page_of o, trace_of o)
      end
  end.
Proof.
  cbn [clickSelectors]. unfold bind at 1, peek.
  destruct (count p sel) as [e|n]; [reflexivity|]. cbv zeta.
  unfold bind, value_of, page_of, trace_of.
  destruct (clickMatches sel 0 n b p) as [[[e|c] q] t];
    cbn [fst snd]; [reflexivity|].
  destruct (clickSelectors sels c q) as [[r q'] t']. reflexivity.
Qed.

Lemma clickSelectors_false (sels : list jsstring) :
  forall b p q t,
    clickSelectors (exn := exn) sels b p = (inr false, q, t) ->
    b = false /\ q = p /\ t = []
    /\ forall sel, In sel sels ->
         exists n, count p sel = inr n
                   /\ forall i, i < n -> shown p sel i = false.
Proof.
  induction sels as [|sel sels IH]; intros b p q t H.
  - cbn in H. injection H as -> -> ->. repeat split. intros sel [].
  - rewrite clickSelectors_step in H.
    destruct (count p sel) as [e|n] eqn:C; [discriminate|]. cbv zeta in H.
    destruct (clickMatches_returns sel n 0 b p) as [c Hc].
    rewrite Hc in H.
    destruct (clickMatches sel 0 n b p) as [[r q1] t1] eqn:R.
    unfold value_of, page_of, trace_of in *. cbn [fst snd] in *. subst r.
    destruct (clickSelectors sels c q1) as [[r q2] t2] eqn:R2.
    cbn [fst snd] in H. injection H as -> -> <-.
    apply IH in R2. destruct R2 as (-> & -> & -> & K2).
    apply clickMatches_false in R. destruct R as (-> & E & -> & K1).
    subst q1. repeat split. intros s [<-|Hs].
    + exists n. split; [exact C|]. intros i Hi. apply K1. lia.
    + now apply K2.
Qed.

Lemma clickSelectors_none (sels : list jsstring) :
  forall b p,
    (forall sel, In sel sels ->
       exists n, count p sel = inr n
                 /\ forall i, i < n -> shown p sel i = false) ->
    clickSelectors (exn := exn) sels b p = (inr b, p, []).
Proof.
  induction sels as [|sel sels IH]; intros b p K; [reflexivity|].
  rewrite clickSelectors_step.
  destruct (K sel (or_introl eq_refl)) as (n & C & V). rewrite C. cbv zeta.
  rewrite clickMatches_none.
  - unfold value_of, page_of, trace_of. cbn [fst snd].
    rewrite IH; [reflexivity|]. intros s Hs. apply K. now right.
  - intros j Hj. apply V. lia.
Qed.

(** The middle loop throws only what [count] raised. *)
Lemma clickSelectors_throws (sels : list jsstring) :
  forall b p e,
    value_of (clickSelectors (exn := exn) sels b p) = inl e -> rejection e.
Proof.
  induction sels as [|sel sels IH]; intros b p e H; [discriminate|].
  rewrite clickSelectors_step in H.
  destruct (count p sel) as [e0|n] eqn:C.
  - unfold value_of in H. cbn [fst] in H. injection H as <-.
    left. now exists p, sel.
  - cbv zeta in H. destruct (clickMatches_returns sel n 0 b p) as [c Hc].
    rewrite Hc in H. unfold value_of at 1 in H. cbn [fst] in H.
    now apply IH in H.
Qed.

Lemma steady_rejection (e : exn) : steady -> rejection e -> False.
Proof.
  intros [Sc Sw] [(q & sel & H)|(q & dy & H)].
  - destruct (Sc q sel) as [n Hn]. congruence.
  - rewrite (Sw q dy) in H. discriminate.
Qed.

Lemma rounds_cons (ev : event) (t : list event) :
  rounds (ev :: t) = (if is_wheel ev then 1 else 0) + rounds t.
Proof. unfold rounds. cbn [filter]. now destruct (is_wheel ev). Qed.

Lemma activations_cons (ev : event) (t : list event) :
  activations (ev :: t) = (if is_click ev then 1 else 0) + activations t.
Proof. unfold activations. cbn [filter]. now destruct (is_click ev). Qed.

(** One round of the outer loop. *)
Lemma expandRounds_step (budget : nat) (p : Page) :
  exists (r : exn + bool) (q : Page) (t : list event),
    clickSelectors (exn := exn) selectors false p = (r, q, t)
    /\ forallb click_event t = true
    /\ expandRounds (exn := exn) (S budget) p =
       match r with
       | inl e => (inl e, q, t)
       | inr c =>
           match snd (wheel q 1200%N) with
           | Some e => (inl e, fst (wheel q 1200%N), t ++ [Wheel 1200%N])
           | None =>
               if c then
                 let o := expandRounds (exn := exn) budget (settle q) in
                 (value_of o, page_of o,
                  t ++ Wheel 1200%N :: Delay (Fixed 200%N) :: trace_of o)
               else (inr tt, settle q,
                     t ++ [Wheel 1200%N; Delay (Fixed 200%N)])
           end
       end.
Proof.
  pose proof (clickSelectors_emits selectors false p) as He.
  destruct (clickSelectors (exn := exn) selectors false p) as [[r q] t] eqn:R.
  unfold trace_of in He. cbn [snd] in He.
  exists r, q, t. repeat split; [exact He|].
  cbn [expandRounds]. unfold bind at 1. rewrite R.
  destruct r as [e|c]; [reflexivity|].
  unfold settle, bind, attempt, delay, act, value_of, page_of, trace_of.
  cbv zeta.
  destruct (wheel q 1200%N) as [q1 [e|]]; cbn [fst snd]; [reflexivity|].
  destruct c; cbn [negb].
  - destruct (expandRounds budget (sleep (Fixed 200%N) q1)) as [[r q2] t2].
    reflexivity.
  - reflexivity.
Qed.

Lemma quiet_shown (p : Page) :
  quiet p <->
  forall sel, In sel selectors ->
    exists n, count p sel = inr n
              /\ forall i, i < n -> shown p sel i = false.
Proof.
  unfold quiet. split; intros H sel Hs; destruct (H sel Hs) as (n & C & V);
    exists n; (split; [exact C|]); intros i Hi; apply shown_false; auto.
Qed.

(** A round on a page that shows no control clicks nothing and is the
    last one: it ends with the scroll step, and throws what the scroll
    step raises. *)
Lemma expandRounds_quiet (budget : nat) (p : Page) :
  quiet p ->
  expandRounds (exn := exn) (S budget) p
  = match snd (wheel p 1200%N) with
    | Some e => (inl e, fst (wheel p 1200%N), [Wheel 1200%N])
    | None => (inr tt, settle p, [Wheel 1200%N; Delay (Fixed 200%N)])
    end.
Proof.
  intros Q. destruct (expandRounds_step budget p) as (r & q & t & R & _ & E).
  rewrite clickSelectors_none in R by now apply quiet_shown.
  injection R as <- <- <-. exact E.
Qed.

Lemma expandRounds_rounds (budget : nat) :
  forall p, rounds (trace_of (expandRounds (exn := exn) budget p)) <= budget.
Proof.
  induction budget as [|budget IH]; intros p; [cbn; lia|].
  destruct (expandRounds_step budget p) as (r & q & t & _ & Ht & E).
  rewrite E. apply click_events_rounds in Ht.
  destruct r as [e|c]; [unfold trace_of; cbn [snd]; lia|].
  destruct (snd (wheel q 1200%N)).
  - unfold trace_of. cbn [snd]. rewrite rounds_app, Ht, rounds_cons.
    cbn. lia.
  - specialize (IH (settle q)).
    destruct c; cbv zeta; unfold trace_of in *; cbn [snd];
      rewrite rounds_app, Ht, !rounds_cons; cbn [is_wheel]; cbn; lia.
Qed.

(** A run that returns before the budget is spent stopped on a round that
    clicked nothing; on static content the page it leaves shows no
    control and can be scrolled. *)
Lemma expandRounds_converged (budget : nat) :
  forall p,
    static ->
    value_of (expandRounds (exn := exn) budget p) = inr tt ->
    rounds (trace_of (expandRounds (exn := exn) budget p)) < budget ->
    quiet (page_of (expandRounds (exn := exn) budget p))
    /\ scrolls (page_of (expandRounds (exn := exn) budget p)).
Proof.
  induction budget as [|budget IH]; intros p St V H; [cbn in H; lia|].
  destruct (expandRounds_step budget p) as (r & q & t & R & Ht & E).
  rewrite E in V, H |- *. apply click_events_rounds in Ht.
  destruct r as [e|c]; [discriminate|].
  destruct (snd (wheel q 1200%N)) eqn:W; [discriminate|].
  destruct c; cbv zeta in V, H |- *;
    unfold value_of, trace_of, page_of in V, H |- *;
    cbn [fst snd] in V, H |- *.
  - apply IH; [exact St | exact V |].
    rewrite rounds_app, Ht, !rounds_cons in H. cbn [is_wheel] in H.
    unfold trace_of. lia.
  - apply clickSelectors_false in R. destruct R as (_ & -> & _ & K).
    apply St; [now apply quiet_shown | exact W].
Qed.

(** The revealer throws only what [count] or [wheel] raised. *)
Lemma expandRounds_throws (budget : nat) :
  forall p e,
    value_of (expandRounds (exn := exn) budget p) = inl e -> rejection e.
Proof.
  induction budget as [|budget IH]; intros p e H; [discriminate|].
  destruct (expandRounds_step budget p) as (r & q & t & R & _ & E).
  rewrite E in H. destruct r as [e0|c].
  - unfold value_of in H. cbn [fst] in H. injection H as <-.
    apply (clickSelectors_throws selectors false p).
    unfold value_of. now rewrite R.
  - destruct (snd (wheel q 1200%N)) as [e0|] eqn:W.
    + unfold value_of in H. cbn [fst] in H. injection H as <-.
      right. now exists q, 1200%N.
    + destruct c; [apply (IH _ _ H) | discriminate].
Qed.

End WithAccessor.
End RevealerFacts.

Module RevealerTheorems.
Import Scraper Outcome EffFacts RevealerFacts.

(** C3. On a page that shows no reveal control, a round of the revealer
    makes no activation and is the last one whatever budget is left: the
    run ends with its scroll step, and returns when that step is not
    rejected.  A first run that returned before its budget on static
    content leaves such a page, so a second run there makes no
    activation and returns after one round.  No run makes more than 50
    rounds; a run throws only an exception that [count] or [wheel]
    raised, never for a spent budget, and where these two are never
    rejected every run returns normally, also one that spends the whole
    budget, as on a page whose control never goes away. *)
Theorem revealer_idempotent :
  (forall (Page exn : Type) (accessor : Accessor Page exn) (p : Page),
     quiet p ->
     (forall budget,
        expandRounds (exn := exn) (S budget) p
        = match snd (wheel p 1200%N) with
          | Some e => (inl e, fst (wheel p 1200%N), [Wheel 1200%N])
          | None => (inr tt, settle p, [Wheel 1200%N; Delay (Fixed 200%N)])
          end)
     /\ activations (trace_of (expandAllContent (exn := exn) p)) = 0
     /\ rounds (trace_of (expandAllContent (exn := exn) p)) = 1
     /\ (scrolls p -> value_of (expandAllContent (exn := exn) p) = inr tt))
  /\ (forall (Page exn : Type) (accessor : Accessor Page exn) (p : Page),
        static ->
        value_of (expandAllContent (exn := exn) p) = inr tt ->
        rounds (trace_of (expandAllContent (exn := exn) p)) < 50 ->
        let p1 := page_of (expandAllContent (exn := exn) p) in
        quiet p1
        /\ value_of (expandAllContent (exn := exn) p1) = inr tt
        /\ activations (trace_of (expandAllContent (exn := exn) p1)) = 0
        /\ rounds (trace_of (expandAllContent (exn := exn) p1)) = 1)
  /\ (forall (Page exn : Type) (accessor : Accessor Page exn) (p : Page),
        rounds (trace_of (expandAllContent (exn := exn) p)) <= 50
        /\ (forall e, value_of (expandAllContent (exn := exn) p) = inl e ->
                      rejection e)
        /\ (steady -> value_of (expandAllContent (exn := exn) p) = inr tt))
  /\ (value_of (expandAllContent (accessor := Sample.stubborn) tt) = inr tt
      /\ rounds (trace_of (expandAllContent (accessor := Sample.stubborn) tt))
         = 50
      /\ activations
           (trace_of (expandAllContent (accessor := Sample.stubborn) tt))
         = 50).
Proof.
  assert (Q : forall (Page exn : Type) (accessor : Accessor Page exn) (p : Page),
             quiet p ->
             activations (trace_of (expandAllContent (exn := exn) p)) = 0
             /\ rounds (trace_of (expandAllContent (exn := exn) p)) = 1
             /\ (scrolls p ->
                 value_of (expandAllContent (exn := exn) p) = inr tt)).
  { intros Page exn accessor p H. unfold expandAllContent, scrolls.
    rewrite expandRounds_quiet by exact H.
    destruct (snd (wheel p 1200%N)); repeat split. discriminate. }
  split; [|split; [|split]].
  - intros Page exn accessor p H. split; [|now apply Q].
    intros budget. now apply expandRounds_quiet.
  - intros Page exn accessor p St V R p1.
    destruct (@expandRounds_converged _ _ _ 50 p St V R) as [H W].
    destruct (Q _ _ _ _ H) as (A & B & C).
    split; [exact H|]. split; [now apply C|]. now split.
  - intros Page exn accessor p. split; [apply expandRounds_rounds|]. split.
    + intros e. apply expandRounds_throws.
    + intros St.
      destruct (value_of (expandAllContent (exn := exn) p)) as [e|[]] eqn:V;
        [|reflexivity].
      exfalso. apply (steady_rejection St (e := e)).
      now apply (@expandRounds_throws _ _ _ 50 p).
  - vm_compute. repeat split.
Qed.

Lemma folded_quiet : quiet (accessor := Sample.folded) 0.
Proof.
  intros sel _. eexists. split; [reflexivity|]. intros i _. discriminate.
Defined.

Lemma folded_static : static (accessor := Sample.folded).
Proof. intros p H W. split; [exact H | reflexivity]. Defined.

Lemma folded_steady : steady (accessor := Sample.folded).
Proof. split; [intros p sel; eexists; reflexivity | reflexivity]. Defined.

Lemma revealer_idempotent_witness :
  quiet (accessor := Sample.folded) 0
  /\ value_of (expandAllContent (accessor := Sample.folded) 3) = inr tt
  /\ rounds (trace_of (expandAllContent (accessor := Sample.folded) 3)) < 50
  /\ activations (trace_of (expandAllContent (accessor := Sample.folded) 0)) = 0
  /\ rounds
       (trace_of
          (expandAllContent (accessor := Sample.folded)
             (page_of (expandAllContent (accessor := Sample.folded) 3)))) = 1
  /\ value_of (expandAllContent (accessor := Sample.folded) 7) = inr tt.
Proof.
  assert (V : value_of (expandAllContent (accessor := Sample.folded) 3)
              = inr tt) by (vm_compute; reflexivity).
  assert (R : rounds (trace_of (expandAllContent (accessor := Sample.folded) 3))
              < 50).
  { vm_compute. repeat constructor. }
  split; [exact folded_quiet|]. split; [exact V|]. split; [exact R|].
  split; [|split].
  - apply (proj1 revealer_idempotent nat unit Sample.folded 0 folded_quiet).
  - apply (proj1 (proj2 revealer_idempotent) nat unit Sample.folded 3
             folded_static V R).
  - apply (proj1 (proj2 (proj2 revealer_idempotent)) nat unit Sample.folded 7).
    exact folded_steady.
Defined.

End RevealerTheorems.

(* ================================================================== *)
(** ** Pipeline driver *)
(* ================================================================== *)

Module DriverFacts.
Section WithAccessor.
Local Open Scope scraper_scope.
Import Scraper Outcome EffFacts.

Context {Page exn : Type} {accessor : Accessor Page exn}.

Local Abbreviation Eff := (M Page exn).

Lemma expandAllContent_emits :
  emits detail_event (expandAllContent (exn := exn)).
Proof.
  eapply emits_weaken; [apply revealer_detail_event|].
  apply RevealerFacts.expandRounds_emits.
Qed.

Lemma scrapeDiscussionDetail_eq (url : jsstring) :
  scrapeDiscussionDetail url = (attempt (Goto url) (goto url) ;; afterGoto url).
Proof. reflexivity. Qed.

Lemma afterGoto_emits (url : jsstring) : emits detail_event (afterGoto url).
Proof.
  unfold afterGoto.
  apply emits_bind; [now apply emits_act|]. intros _.
  apply emits_bind; [now apply emits_attempt|]. intros _.
  apply emits_bind; [apply expandAllContent_emits|]. intros _.
  apply emits_bind; [now apply emits_attempt|]. intros _.
  apply emits_bind; [apply expandAllContent_emits|]. intros _.
  apply emits_bind; [apply emits_peek|]. intros [e|snap].
  - apply emits_throw.
  - apply emits_ret.
Qed.

Lemma scrapeDiscussionDetail_value (url : jsstring) :
  yields (fun full => exists snap, full = Detail.build url snap)
         (scrapeDiscussionDetail url).
Proof.
  unfold scrapeDiscussionDetail.
  do 6 (apply yields_bind; intros ?).
  apply yields_bind. intros [e|snap] p full; unfold value_of; simpl.
  - discriminate.
  - intros H. injection H as <-. now exists snap.
Qed.

Lemma scrapeDiscussionDetail_trace (url : jsstring) (p : Page) :
  let t := trace_of (scrapeDiscussionDetail url p) in
  visited t = [url] /\ failures t = [] /\ elevated t = 0.
Proof.
  rewrite scrapeDiscussionDetail_eq. unfold bind, attempt, trace_of.
  destruct (goto url p) as [p1 [e|]]; simpl; [repeat split|].
  pose proof (afterGoto_emits url p1) as U. unfold trace_of in U.
  destruct (afterGoto url p1) as [[r p2] t2]. simpl in *.
  apply detail_events_unmarked in U. destruct U as (V & F & E).
  rewrite V. repeat split; assumption.
Qed.

(** One turn of the driver loop, by the outcome of the extraction. *)
Lemma scrapeOne_run (d : DiscussionSummary.t)
    (allDetails : list DiscussionDetail.t) (p : Page) :
  let o := scrapeDiscussionDetail (DiscussionSummary.url d)
             (sleep (Random 1000%N 3000%N) p) in
  scrapeOne d allDetails p =
  match value_of o with
  | inr full =>
      (inr (allDetails ++ [overwrite d full]), page_of o,
       Delay (Random 1000%N 3000%N) :: trace_of o)
  | inl _ =>
      (inr allDetails, sleep (Fixed 5000%N) (page_of o),
       Delay (Random 1000%N 3000%N)
         :: trace_of o
            ++ [LogError (DiscussionSummary.url d); Delay (Fixed 5000%N)])
  end.
Proof.
  intros o. subst o.
  unfold scrapeOne, tryCatch, delay, act, value_of, page_of, trace_of.
  unfold bind at 1. cbn beta iota.
  unfold bind at 1.
  destruct (scrapeDiscussionDetail (DiscussionSummary.url d)
              (sleep (Random 1000%N 3000%N) p)) as [[[e|full] p1] t1].
  - cbn. reflexivity.
  - cbn. now rewrite !app_nil_r.
Qed.

Lemma scrapeEach_run (ds : list DiscussionSummary.t) :
  forall (allDetails : list DiscussionDetail.t) (p : Page),
  exists os,
    Forall2 settled ds os
    /\ value_of (scrapeEach ds allDetails p) = inr (allDetails ++ pushed os)
    /\ visited (trace_of (scrapeEach ds allDetails p))
       = map DiscussionSummary.url ds
    /\ failures (trace_of (scrapeEach ds allDetails p)) = omitted ds os
    /\ elevated (trace_of (scrapeEach ds allDetails p))
       = length (omitted ds os).
Proof.
  induction ds as [|d ds IH]; intros allDetails p.
  - exists []. cbn. rewrite app_nil_r. repeat split. constructor.
  - pose proof (scrapeOne_run d allDetails p) as R. cbv zeta in R.
    pose proof (scrapeDiscussionDetail_trace (DiscussionSummary.url d)
                  (sleep (Random 1000%N 3000%N) p)) as T. cbv zeta in T.
    pose proof (@scrapeDiscussionDetail_value (DiscussionSummary.url d)
                  (sleep (Random 1000%N 3000%N) p)) as Y.
    destruct T as (V & F & E).
    set (o := scrapeDiscussionDetail (DiscussionSummary.url d)
                (sleep (Random 1000%N 3000%N) p)) in *.
    cbn [scrapeEach].
    destruct (value_of o) as [e|full] eqn:Ho.
    + erewrite bind_inr by exact R.
      destruct (IH allDetails (sleep (Fixed 5000%N) (page_of o)))
        as (os & S & Hv & Hvis & Hf & He).
      exists (None :: os). unfold value_of, trace_of in *. cbn [fst snd].
      change (Delay (Random 1000%N 3000%N)
                :: snd o ++ [LogError (DiscussionSummary.url d);
                             Delay (Fixed 5000%N)])
        with ([Delay (Random 1000%N 3000%N)]
                ++ snd o ++ [LogError (DiscussionSummary.url d);
                             Delay (Fixed 5000%N)]).
      rewrite !visited_app, !failures_app, !elevated_app.
      rewrite V, F, E, Hvis, Hf, He.
      repeat split; try assumption. now constructor.
    + erewrite bind_inr by exact R.
      destruct (IH (allDetails ++ [overwrite d full]) (page_of o))
        as (os & S & Hv & Hvis & Hf & He).
      exists (Some (overwrite d full) :: os).
      unfold value_of, trace_of in *. cbn [fst snd].
      change (Delay (Random 1000%N 3000%N) :: snd o)
        with ([Delay (Random 1000%N 3000%N)] ++ snd o).
      rewrite !visited_app, !failures_app, !elevated_app.
      rewrite V, F, E, Hvis, Hf, He.
      destruct (Y full eq_refl) as [snap ->].
      repeat split.
      * constructor; [now exists snap | assumption].
      * rewrite Hv. cbn [pushed flat_map app]. now rewrite <- app_assoc.
Qed.

Lemma pushed_omitted_length (ds : list DiscussionSummary.t)
    (os : list (option DiscussionDetail.t)) :
  Forall2 settled ds os ->
  length (pushed os) + length (omitted ds os) = length ds.
Proof.
  induction 1 as [|d o ds os _ _ IH]; [reflexivity|].
  destruct o; cbn [pushed flat_map omitted length app] in *;
    fold (pushed os) in *; lia.
Qed.

(** C7. A discussion whose extraction throws leaves [allDetails] as it
    was, is logged and followed by the 5000 ms delay, and the loop goes on:
    over any store of collected discussions the driver returns normally,
    navigates to every URL of the store in insertion order, returns the records of
    the discussions that did not throw, and has logged and delayed once
    for each one that did. *)
Theorem failure_isolated (collected : JsMap.t DiscussionSummary.t)
    (p : Page) :
  let ds := JsMap.values collected in
  (forall d allDetails q e,
     value_of (scrapeDiscussionDetail (DiscussionSummary.url d)
                 (sleep (Random 1000%N 3000%N) q)) = inl e ->
     value_of (scrapeOne d allDetails q) = inr allDetails
     /\ exists t,
          trace_of (scrapeOne d allDetails q)
          = t ++ [LogError (DiscussionSummary.url d); Delay (Fixed 5000%N)])
  /\ exists os,
       Forall2 settled ds os
       /\ value_of (scrapeDiscussionList collected p) = inr (pushed os)
       /\ visited (trace_of (scrapeDiscussionList collected p))
          = map DiscussionSummary.url ds
       /\ failures (trace_of (scrapeDiscussionList collected p))
          = omitted ds os
       /\ elevated (trace_of (scrapeDiscussionList collected p))
          = length (omitted ds os)
       /\ length (pushed os) + length (omitted ds os) = length ds.
Proof.
  intros ds. unfold scrapeDiscussionList. fold ds.
  split.
  - intros d allDetails q e H. rewrite scrapeOne_run.
    unfold value_of in H |- *.
    destruct (scrapeDiscussionDetail (DiscussionSummary.url d)
                (sleep (Random 1000%N 3000%N) q)) as [[r p1] t1].
    cbn [fst snd] in H. subst r. cbn [fst snd]. split; [reflexivity|].
    unfold trace_of. cbn [fst snd].
    now exists (Delay (Random 1000%N 3000%N) :: t1).
  - destruct (scrapeEach_run ds [] p) as (os & S & Hv & Hvis & Hf & He).
    exists os. repeat split; try assumption.
    now apply pushed_omitted_length.
Qed.

(** C8. The record returned by the detail extractor has [likes = 0];
    when the extraction of a collected discussion returns, the driver
    pushes that record with [views] and [likes] taken from the summary and
    every other field as extracted. *)
Theorem views_likes_from_summary (d : DiscussionSummary.t)
    (allDetails : list DiscussionDetail.t) (p : Page)
    (full : DiscussionDetail.t) :
  value_of (scrapeDiscussionDetail (DiscussionSummary.url d)
              (sleep (Random 1000%N 3000%N) p)) = inr full ->
  DiscussionDetail.likes full = 0
  /\ exists full',
       value_of (scrapeOne d allDetails p) = inr (allDetails ++ [full'])
       /\ DiscussionDetail.views full' = DiscussionSummary.views d
       /\ DiscussionDetail.likes full' = DiscussionSummary.likes d
       /\ DiscussionDetail.title full' = DiscussionDetail.title full
       /\ DiscussionDetail.url full' = DiscussionDetail.url full
       /\ DiscussionDetail.author full' = DiscussionDetail.author full
       /\ DiscussionDetail.authorRole full' = DiscussionDetail.authorRole full
       /\ DiscussionDetail.time full' = DiscussionDetail.time full
       /\ DiscussionDetail.content full' = DiscussionDetail.content full
       /\ DiscussionDetail.comments full' = DiscussionDetail.comments full
       /\ DiscussionDetail.replies full' = DiscussionDetail.replies full.
Proof.
  intros H. split.
  - destruct (scrapeDiscussionDetail_value _ _ H) as [snap ->].
    apply DetailFacts.build_likes.
  - exists (overwrite d full). rewrite scrapeOne_run.
    unfold value_of in H |- *.
    destruct (scrapeDiscussionDetail (DiscussionSummary.url d)
                (sleep (Random 1000%N 3000%N) p)) as [[r p1] t1].
    cbn [fst snd] in H. subst r. cbn [fst snd].
    repeat split.
Qed.

End WithAccessor.
End DriverFacts.

(* ================================================================== *)
(** ** Witnesses *)
(* ================================================================== *)

Module Witnesses.
Import Detail Scraper Outcome.
#[local] Existing Instance Sample.folded.

Lemma reply_count_reconciled_witness :
  expectedReplies Sample.thread = Some (Int 1)
  /\ (0 <= 1)%Z
  /\ (Z.of_nat
        (length (DiscussionDetail.replies (build (js "/discussions/a") Sample.thread)))
      <= 1)%Z.
Proof.
  split; [reflexivity|]. split; [lia|].
  apply (proj1 (DetailFacts.reply_count_reconciled (js "/discussions/a")
                  Sample.thread) 1%Z eq_refl).
  lia.
Defined.

Lemma empty_replies_dropped_witness :
  In (Sample.rawReply "" "Like") (repliesRaw Sample.thread)
  /\ ~ In (cleanReply (Sample.rawReply "" "Like"))
          (DiscussionDetail.replies (build (js "/discussions/a") Sample.thread)).
Proof.
  assert (I : In (Sample.rawReply "" "Like") (repliesRaw Sample.thread)).
  { simpl. tauto. }
  split; [exact I|].
  apply (proj2 (proj2 (DetailFacts.empty_replies_dropped (js "/discussions/a")
                         Sample.thread)) _ I).
  - vm_compute. reflexivity.
  - vm_compute. reflexivity.
Defined.

Lemma first_sighting_wins_witness :
  js "/discussions/c" <> []
  /\ JsMap.get (crawl [Sample.firstPage; Sample.nextPage]) (js "/discussions/c")
     = Some Sample.rowC.
Proof.
  assert (Hu : js "/discussions/c" <> []) by discriminate.
  split; [exact Hu|].
  rewrite (proj1 (proj2 (proj2 (CrawlTheorems.first_sighting_wins
                                  [Sample.firstPage; Sample.nextPage])))
             (js "/discussions/c") Hu).
  vm_compute. reflexivity.
Defined.

Lemma failure_isolated_witness :
  value_of (scrapeDiscussionDetail (accessor := Sample.folded)
              (DiscussionSummary.url Sample.gone)
              (sleep (Random 1000%N 3000%N) 0)) = inl tt
  /\ value_of (scrapeOne (accessor := Sample.folded) Sample.gone [] 0) = inr [].
Proof.
  assert (H : value_of (scrapeDiscussionDetail (accessor := Sample.folded)
                          (DiscussionSummary.url Sample.gone)
                          (sleep (Random 1000%N 3000%N) 0)) = inl tt).
  { vm_compute. reflexivity. }
  split; [exact H|].
  apply (proj1 (DriverFacts.failure_isolated (accessor := Sample.folded)
                  (crawl [Sample.firstPage; Sample.nextPage]) 0)
           Sample.gone [] 0 tt H).
Defined.

Lemma views_likes_from_summary_witness :
  value_of (scrapeDiscussionDetail (accessor := Sample.folded)
              (DiscussionSummary.url Sample.rowA)
              (sleep (Random 1000%N 3000%N) 0))
  = inr (build (js "/discussions/a") Sample.thread)
  /\ DiscussionDetail.likes (build (js "/discussions/a") Sample.thread) = 0.
Proof.
  assert (H : value_of (scrapeDiscussionDetail (accessor := Sample.folded)
                          (DiscussionSummary.url Sample.rowA)
                          (sleep (Random 1000%N 3000%N) 0))
              = inr (build (js "/discussions/a") Sample.thread)).
  { vm_compute. reflexivity. }
  split; [exact H|].
  apply (DriverFacts.views_likes_from_summary (accessor := Sample.folded)
           Sample.rowA [] 0 H).
Defined.

End Witnesses.

(* ================================================================== *)
(** ** Facts on the shape of texts *)
(* ================================================================== *)

Module ShapeFacts.
Import RegexDefs CleanDefs JSFacts RegexFacts AuthorFacts CleanFacts ShapeDefs.

(** *** Inversion of a greedy run *)

Lemma greedy_inv (A : Type) (p : ascii -> bool) (s : jsstring) :
  forall lo prev c (k : cont A) (a : A),
    greedy p lo None prev s c k = Some a ->
    exists w s',
      s = w ++ s' /\ forallb p w = true /\ lo <= length w
      /\ k (after prev w) s' c = Some a.
Proof.
  induction s as [|x s IH]; intros lo prev c k a H;
    cbn [greedy hi_is_zero dec_hi option_map] in H.
  - destruct lo; [|discriminate]. exists [], []. repeat split; auto.
  - destruct (p x) eqn:Px.
    + destruct (greedy p (pred lo) None (Some x) s c k) as [a0|] eqn:E.
      * injection H as <-. apply IH in E.
        destruct E as (w & s' & -> & Hw & Hl & Hk).
        exists (x :: w), s'. cbn [app forallb length after]. rewrite Px, Hw.
        repeat split; auto. lia.
      * destruct lo; [|discriminate]. exists [], (x :: s).
        repeat split; auto.
    + destruct lo; [|discriminate]. exists [], (x :: s). repeat split; auto.
Qed.

(** The leading run of a class. *)
Lemma run_split (p : ascii -> bool) (s : jsstring) :
  exists w s', s = w ++ s' /\ forallb p w = true /\ stops p s' = true.
Proof.
  induction s as [|x s (w & s' & -> & Hw & Hs)].
  - now exists [], [].
  - destruct (p x) eqn:Px.
    + exists (x :: w), s'. cbn [app forallb]. now rewrite Px, Hw.
    + exists [], (x :: w ++ s'). cbn [app forallb stops]. now rewrite Px.
Qed.

Lemma spaces_hit (prev : option ascii) (w s : jsstring) :
  forallb is_space w = true -> 2 <= length w -> stops is_space s = true ->
  exec_at re_spaces prev (w ++ s) = Some (s, []).
Proof.
  intros Hw Hl Hs. unfold exec_at, re_spaces, at_least, space.
  rewrite run_rep_class. now apply greedy_longest.
Qed.

Lemma single_spaced_cons (x : ascii) (o : jsstring) :
  single_spaced o = true ->
  is_space x && negb (stops is_space o) = false ->
  single_spaced (x :: o) = true.
Proof.
  intros H1 H2. destruct o as [|y o]; [reflexivity|].
  cbn [single_spaced] in *. cbn [stops] in H2. rewrite negb_involutive in H2.
  now rewrite H2, H1.
Qed.

(** Runs of two or more whitespace units are gone after the second
    replacement of [normalizeWhitespace]. *)
Lemma spaces_gone (n : nat) :
  forall s prev,
    length s <= n ->
    single_spaced (replace_from re_spaces [SP] prev s 0) = true
    /\ (stops is_space s = true ->
        stops is_space (replace_from re_spaces [SP] prev s 0) = true).
Proof.
  induction n as [|n IH]; intros s prev L.
  - destruct s; [|simpl in L; lia]. now split.
  - destruct s as [|x s]; [now split|]. simpl in L.
    destruct (is_space x) eqn:Sx.
    + destruct s as [|y s].
      * cbn. now rewrite Sx.
      * destruct (is_space y) eqn:Sy.
        -- destruct (run_split is_space s) as (w & s' & -> & Hw & Hs).
           change (x :: y :: w ++ s') with (x :: (y :: w) ++ s').
           rewrite replace_match with (cs := []).
           ++ destruct (IH s' (after prev (x :: y :: w))) as [I1 I2].
              { simpl in L. rewrite length_app in L. lia. }
              split.
              ** cbn [app]. apply single_spaced_cons; [exact I1|].
                 now rewrite (I2 Hs).
              ** cbn [stops]. now rewrite Sx.
           ++ change (x :: (y :: w) ++ s') with ((x :: y :: w) ++ s').
              apply spaces_hit; [|simpl; lia|exact Hs].
              cbn [forallb]. now rewrite Sx, Sy.
        -- rewrite replace_miss
             by (apply spaces_miss; cbn; now rewrite Sy, andb_false_r).
           destruct (IH (y :: s) (Some x)) as [I1 I2]; [simpl in *; lia|].
           split.
           ++ apply single_spaced_cons; [exact I1|].
              rewrite I2 by (cbn; now rewrite Sy). apply andb_false_r.
           ++ cbn [stops]. now rewrite Sx.
    + rewrite replace_miss.
      * destruct (IH s (Some x)) as [I1 I2]; [lia|]. split.
        -- apply single_spaced_cons; [exact I1 | now rewrite Sx].
        -- intros _. cbn [stops]. now rewrite Sx.
      * apply spaces_miss. destruct s as [|y s]; [exact I|]. now rewrite Sx.
Qed.

(** *** Trimming *)

Lemma trimStart_shape (s : jsstring) :
  exists a, s = a ++ trimStart s /\ forallb is_space a = true
            /\ stops is_space (trimStart s) = true.
Proof.
  induction s as [|x s (a & E & Ha & Hs)].
  - now exists [].
  - cbn [trimStart]. destruct (is_space x) eqn:Sx.
    + exists (x :: a). cbn [app forallb]. rewrite Sx, Ha. now rewrite <- E.
    + exists []. cbn [app forallb stops]. now rewrite Sx.
Qed.

Lemma trimEnd_shape (u : jsstring) :
  exists b, u = trimEnd u ++ b /\ forallb is_space b = true
            /\ (trimEnd u <> [] -> is_space (last (trimEnd u) SP) = false).
Proof.
  unfold trimEnd. destruct (trimStart_shape (rev u)) as (a & E & Ha & Hs).
  exists (rev a). split; [|split].
  - rewrite <- rev_app_distr, <- E. now rewrite rev_involutive.
  - now rewrite forallb_rev.
  - destruct (trimStart (rev u)) as [|y t]; [intros H; now elim H|].
    intros _. cbn [rev]. rewrite last_last. simpl in Hs.
    now apply negb_true_iff in Hs.
Qed.

Lemma trim_shape (s : jsstring) :
  exists a b,
    s = a ++ trim s ++ b
    /\ forallb is_space a = true /\ forallb is_space b = true
    /\ stops is_space (trim s) = true
    /\ (trim s <> [] -> is_space (last (trim s) SP) = false).
Proof.
  unfold trim. destruct (trimStart_shape s) as (a & E & Ha & Hs).
  destruct (trimEnd_shape (trimStart s)) as (b & E' & Hb & Hl).
  exists a, b. repeat split; try assumption.
  - now rewrite <- E', <- E.
  - destruct (trimEnd (trimStart s)) as [|y t] eqn:T; [reflexivity|].
    rewrite E' in Hs. exact Hs.
Qed.

Lemma single_spaced_tail (x : ascii) (s : jsstring) :
  single_spaced (x :: s) = true -> single_spaced s = true.
Proof.
  destruct s as [|y s]; [reflexivity|]. cbn [single_spaced].
  intros H. now apply andb_true_iff in H.
Qed.

Lemma single_spaced_parts (a b : jsstring) :
  single_spaced (a ++ b) = true ->
  single_spaced a = true /\ single_spaced b = true.
Proof.
  induction a as [|x a IH]; intros H; [now split|].
  cbn [app] in H. destruct (IH (single_spaced_tail _ _ H)) as [I1 I2].
  split; [|exact I2].
  destruct a as [|y a]; [reflexivity|].
  cbn [app single_spaced] in H |- *.
  apply andb_true_iff in H. destruct H as [H _]. now rewrite H.
Qed.

(** Trimming a text without break and without whitespace run gives a
    settled text. *)
Lemma trim_settled (s : jsstring) :
  single_spaced s = true ->
  forallb (fun x => negb (is_break x)) s = true ->
  settled_text (trim s) = true.
Proof.
  intros Hs Hb.
  destruct (trim_shape s) as (a & b & E & _ & _ & Hh & Hl).
  pose proof (trim_chars (fun x => negb (is_break x)) s Hb) as Hb'.
  rewrite E in Hs. apply single_spaced_parts in Hs. destruct Hs as [_ Hs].
  apply single_spaced_parts in Hs. destruct Hs as [Hs _].
  destruct (trim s) as [|y t] eqn:T; [reflexivity|].
  cbn [settled_text]. unfold tidy. rewrite Hs, Hb'.
  simpl in Hh. rewrite Hh. rewrite Hl by discriminate. reflexivity.
Qed.

Lemma normalizeWhitespace_settled (s : jsstring) :
  settled_text (normalizeWhitespace s) = true.
Proof.
  unfold normalizeWhitespace, replaceAll. change (js " ") with [SP].
  apply trim_settled.
  - apply (spaces_gone (n := length (replace_from re_breaks [SP] None s 0))).
    lia.
  - apply replace_from_chars; [reflexivity|]. apply breaks_gone.
Qed.

Lemma settled_fixed (s : jsstring) :
  settled_text s = true -> normalizeWhitespace s = s.
Proof.
  destruct s as [|x s]; [reflexivity|]. apply normalizeWhitespace_tidy.
Qed.

(** *** Subsequences *)

Section Subseq.
Variable A : Type.
Implicit Types a b c : list A.

Lemma subseq_refl a : subseq a a.
Proof. induction a; constructor; auto. Qed.

Lemma subseq_nil_l a : subseq [] a.
Proof. induction a; constructor; auto. Qed.

Lemma subseq_trans a b c : subseq a b -> subseq b c -> subseq a c.
Proof.
  intros H1 H2. revert a H1.
  induction H2 as [|x b c H2 IH|x b c H2 IH]; intros a H1.
  - exact H1.
  - inversion H1; subst; constructor; auto.
  - constructor. auto.
Qed.

Lemma subseq_app a a' b b' :
  subseq a b -> subseq a' b' -> subseq (a ++ a') (b ++ b').
Proof.
  intros H H'. induction H; cbn [app]; try constructor; auto.
Qed.

Lemma subseq_app_r a b c : subseq a b -> subseq a (c ++ b).
Proof. intros H. induction c; cbn [app]; [|constructor]; auto. Qed.

Lemma subseq_app_l a b c : subseq a b -> subseq a (b ++ c).
Proof.
  intros H. rewrite <- (app_nil_r a). apply subseq_app; [exact H|].
  apply subseq_nil_l.
Qed.

Lemma subseq_filter (f : A -> bool) a b :
  subseq a b -> subseq (filter f a) (filter f b).
Proof.
  intros H. induction H as [|x a b H IH|x a b H IH]; cbn [filter].
  - constructor.
  - destruct (f x); [constructor|]; exact IH.
  - destruct (f x); [constructor|]; exact IH.
Qed.

Lemma filter_subseq (f : A -> bool) a : subseq (filter f a) a.
Proof.
  induction a as [|x a IH]; cbn [filter]; [constructor|].
  destruct (f x); constructor; exact IH.
Qed.

Lemma subseq_length a b : subseq a b -> length a <= length b.
Proof. intros H. induction H; simpl; lia. Qed.

Lemma firstn_subseq (n : nat) a : subseq (firstn n a) a.
Proof.
  revert n. induction a as [|x a IH]; intros [|n]; cbn [firstn];
    try constructor; auto. apply subseq_nil_l.
Qed.

End Subseq.

(** *** What the replacements keep *)

Lemma ink_app (a b : jsstring) : ink (a ++ b) = ink a ++ ink b.
Proof. apply filter_app. Qed.

Lemma ink_space (a : jsstring) : forallb is_space a = true -> ink a = [].
Proof.
  induction a as [|x a IH]; [reflexivity|]. cbn [forallb ink filter].
  intros H. apply andb_true_iff in H. destruct H as [Hx Ha].
  rewrite Hx. now apply IH.
Qed.

Lemma ink_trim (s : jsstring) : ink (trim s) = ink s.
Proof.
  destruct (trim_shape s) as (a & b & E & Ha & Hb & _).
  rewrite E at 2. rewrite !ink_app, (ink_space _ Ha), (ink_space _ Hb).
  now rewrite app_nil_r.
Qed.

(** A replacement by whitespace leaves out text and adds none. *)
Lemma replace_ink_sub (r : regex) (rep : jsstring) (s : jsstring) :
  forallb is_space rep = true ->
  forall prev skip,
    subseq (ink (replace_from r rep prev s skip)) (ink s).
Proof.
  intros Hrep.
  assert (D : forall x t u, subseq (ink t) (ink u) ->
                            subseq (ink t) (ink (x :: u))).
  { intros x t u H. cbn [ink filter]. destruct (negb (is_space x));
      [constructor|]; exact H. }
  assert (K : forall x t u, subseq (ink t) (ink u) ->
                            subseq (ink (x :: t)) (ink (x :: u))).
  { intros x t u H. cbn [ink filter]. destruct (negb (is_space x));
      [constructor|]; exact H. }
  induction s as [|x s IH]; intros prev skip; cbn [replace_from].
  - destruct skip; [|constructor].
    destruct (exec_at r prev []); [|constructor].
    rewrite (ink_space _ Hrep). constructor.
  - destruct skip as [|n]; [|apply D, IH].
    destruct (exec_at r prev (x :: s)) as [[rest cs]|]; [|apply K, IH].
    destruct (length (x :: s) - length rest);
      rewrite ink_app, (ink_space _ Hrep); cbn [app];
      [apply K | apply D]; apply IH.
Qed.

Lemma white_class (p : ascii -> bool) (lo : nat) :
  (forall x, p x = true -> is_space x = true) ->
  white (Rep lo None (Class p)).
Proof.
  intros Hp prev s rest cs H. unfold exec_at in H.
  rewrite run_rep_class in H. apply greedy_inv in H.
  destruct H as (w & s' & -> & Hw & _ & E). injection E as -> _.
  exists w. split; [reflexivity|]. now apply forallb_impl with (p := p).
Qed.

Lemma break_is_space (x : ascii) : is_break x = true -> is_space x = true.
Proof. each_ascii x. Qed.

(** A replacement of whitespace by whitespace keeps all the rest. *)
Lemma replace_ink (r : regex) (rep : jsstring) (s : jsstring) :
  white r -> forallb is_space rep = true ->
  forall prev skip,
    forallb is_space (firstn skip s) = true ->
    ink (replace_from r rep prev s skip) = ink s.
Proof.
  intros Hr Hrep.
  induction s as [|x s IH]; intros prev skip Hk; cbn [replace_from].
  - destruct skip; [|reflexivity].
    destruct (exec_at r prev []); [|reflexivity]. now apply ink_space.
  - destruct skip as [|n].
    + destruct (exec_at r prev (x :: s)) as [[rest cs]|] eqn:E.
      * destruct (Hr _ _ _ _ E) as (w & Ew & Hw).
        assert (L : length (x :: s) - length rest = length w).
        { rewrite Ew, length_app. lia. }
        rewrite L. destruct w as [|y w].
        -- cbn [length]. rewrite ink_app, (ink_space _ Hrep). cbn [app].
           cbn [ink filter]. fold (ink s).
           fold (ink (replace_from r rep (Some x) s 0)).
           now rewrite IH.
        -- cbn [length]. rewrite ink_app, (ink_space _ Hrep). cbn [app].
           cbn [app] in Ew. injection Ew as -> ->.
           cbn [forallb] in Hw. apply andb_true_iff in Hw.
           destruct Hw as [Hy Hw].
           cbn [ink filter]. rewrite Hy. cbn [negb]. apply IH.
           now rewrite firstn_app, Nat.sub_diag, firstn_all, firstn_O,
             app_nil_r.
      * cbn [ink filter]. fold (ink s).
        fold (ink (replace_from r rep (Some x) s 0)). now rewrite IH.
    + cbn [firstn forallb] in Hk. apply andb_true_iff in Hk.
      destruct Hk as [Hx Hk]. cbn [ink filter]. rewrite Hx. cbn [negb].
      now apply IH.
Qed.

Lemma normalizeWhitespace_ink (s : jsstring) :
  ink (normalizeWhitespace s) = ink s.
Proof.
  unfold normalizeWhitespace, replaceAll. rewrite ink_trim.
  rewrite replace_ink; [| | reflexivity | reflexivity].
  - apply replace_ink; [| reflexivity | reflexivity].
    unfold re_breaks, plus. apply white_class.
    intros x. apply break_is_space.
  - unfold re_spaces, at_least, space. now apply white_class.
Qed.

(** *** What the cleaning keeps *)

Lemma split_from_sub (r : regex) (s : jsstring) :
  forall prev cur skip,
    subseq (concat (split_from r prev s cur skip)) (rev cur ++ s).
Proof.
  induction s as [|x s IH]; intros prev cur skip; cbn [split_from].
  - cbn [concat]. rewrite !app_nil_r. apply subseq_refl.
  - destruct skip as [|n].
    + destruct (exec_at r prev (x :: s)) as [[rest cs]|].
      * destruct (length (x :: s) - length rest).
        -- destruct cur as [|y cur].
           ++ apply (IH (Some x) [x] 0).
           ++ cbn [concat]. apply subseq_app; [apply subseq_refl|].
              apply (IH (Some x) [x] 0).
        -- cbn [concat]. apply subseq_app; [apply subseq_refl|].
           constructor. apply (IH (Some x) [] n).
      * specialize (IH (Some x) (x :: cur) 0). cbn [rev] in IH.
        now rewrite <- app_assoc in IH.
    + apply subseq_app_r. constructor. apply (IH (Some x) [] n).
Qed.

Lemma split_sub (r : regex) (s : jsstring) : subseq (concat (split r s)) s.
Proof.
  unfold split. destruct s as [|x s].
  - destruct (exec_at r None []); constructor.
  - apply (split_from_sub r (x :: s) None [] 0).
Qed.

Lemma ink_concat_trim (ls : list jsstring) :
  ink (concat (map trim ls)) = ink (concat ls).
Proof.
  induction ls as [|l ls IH]; [reflexivity|].
  cbn [map concat]. now rewrite !ink_app, ink_trim, IH.
Qed.

Lemma concat_filter_sub (f : jsstring -> bool) (ls : list jsstring) :
  subseq (concat (filter f ls)) (concat ls).
Proof.
  induction ls as [|l ls IH]; [constructor|]. cbn [filter concat].
  destruct (f l).
  - cbn [concat]. apply subseq_app; [apply subseq_refl | exact IH].
  - now apply subseq_app_r.
Qed.

Lemma ink_join (ls : list jsstring) : ink (join [SP] ls) = ink (concat ls).
Proof.
  induction ls as [|l ls IH]; [reflexivity|].
  destruct ls as [|l' ls].
  - cbn [join concat]. now rewrite app_nil_r.
  - change (join [SP] (l :: l' :: ls)) with (l ++ [SP] ++ join [SP] (l' :: ls)).
    cbn [concat] in *. rewrite !ink_app, IH. now rewrite ink_app.
Qed.

Lemma stripInline_sub (out : jsstring) : subseq (ink (stripInline out)) (ink out).
Proof.
  unfold stripInline, replaceAll.
  repeat (eapply subseq_trans; [apply replace_ink_sub; reflexivity|]).
  apply subseq_refl.
Qed.

Lemma cleanLines_sub (raw : jsstring) (ctx : Ctx) :
  subseq (ink (cleanLines raw ctx)) (ink raw).
Proof.
  unfold cleanLines. rewrite normalizeWhitespace_ink.
  eapply subseq_trans; [apply stripInline_sub|].
  change (js " ") with [SP]. rewrite ink_join. unfold splitLines.
  eapply subseq_trans; [apply subseq_filter, concat_filter_sub|].
  eapply subseq_trans; [apply subseq_filter, concat_filter_sub|].
  fold (ink (concat (map trim (split re_newline raw)))).
  rewrite ink_concat_trim. apply subseq_filter, split_sub.
Qed.

Lemma cleanLines_settled (raw : jsstring) (ctx : Ctx) :
  settled_text (cleanLines raw ctx) = true.
Proof. unfold cleanLines. apply normalizeWhitespace_settled. Qed.

(** *** What an inferred author is *)

Lemma consumed_nil (s : jsstring) : consumed s [] = s.
Proof. unfold consumed. cbn [length]. now rewrite Nat.sub_0_r, firstn_all. Qed.

Lemma author_exec_inv (content s' : jsstring) (cs : caps) :
  exec_at re_author None content = Some (s', cs) ->
  exists x t sep rest,
    content = (x :: t) ++ sep ++ rest
    /\ is_alpha x = true /\ forallb is_token_char t = true
    /\ 2 <= length t
    /\ forallb is_sep_char sep = true /\ 1 <= length sep
    /\ forallb (fun x => negb (is_line_terminator x)) rest = true
    /\ cs = [(2, rest); (1, x :: t)].
Proof.
  unfold exec_at, re_author. rewrite run_seqs_cons. cbn [run].
  rewrite run_seqs_cons. cbn [run].
  destruct content as [|x s1]; [discriminate|].
  destruct (is_alpha x) eqn:Hx; [|discriminate].
  unfold at_least.
  change (rep_loop _ _ _ _ _ _ _ _)
    with (run (Rep 2 None (Class is_token_char)) (Some x) s1 []
            (fun prev' s' c' =>
               run (seqs [WordB; plus (Class is_sep_char);
                          Group 2 (star dot); Eol]) prev' s'
                 ((1, consumed (x :: s1) s') :: c')
                 (fun _ s'' c'' => Some (s'', c'')))).
  rewrite run_rep_class. intros H. apply greedy_inv in H.
  destruct H as (t & s2 & -> & Ht & Hl & H).
  change (consumed (x :: t ++ s2) s2) with (consumed ((x :: t) ++ s2) s2) in H.
  rewrite consumed_app in H.
  rewrite run_seqs_cons in H. cbn [run] in H.
  destruct (at_boundary (after (Some x) t) s2); [|discriminate].
  rewrite run_seqs_cons in H. unfold plus in H. rewrite run_rep_class in H.
  apply greedy_inv in H. destruct H as (sep & s3 & -> & Hsep & Hl2 & H).
  rewrite run_seqs_cons in H. cbn [run] in H. unfold star, dot in H.
  change (rep_loop _ _ _ _ _ _ _ _)
    with (run (Rep 0 None (Class (fun x => negb (is_line_terminator x))))
            (after (after (Some x) t) sep) s3 [(1, x :: t)]
            (fun prev' s' c' =>
               run (seqs [Eol]) prev' s' ((2, consumed s3 s') :: c')
                 (fun _ s'' c'' => Some (s'', c''))))
    in H.
  rewrite run_rep_class in H. apply greedy_inv in H.
  destruct H as (rest & s4 & -> & Hrest & _ & H).
  cbn [seqs run] in H. destruct s4 as [|y s4]; [|discriminate].
  injection H as <- <-. rewrite consumed_nil, app_nil_r.
  exists x, t, sep, rest. repeat split; assumption.
Qed.

Lemma author_sound (content : jsstring) :
  match inf_author (extractAuthorFromContent content) with
  | Some a =>
      exists x t sep rest,
        a = x :: t /\ content = a ++ sep ++ rest
        /\ is_alpha x = true /\ forallb is_token_char t = true
        /\ 2 <= length t
        /\ forallb is_sep_char sep = true /\ 1 <= length sep
        /\ forallb (fun x => negb (is_line_terminator x)) rest = true
        /\ has blacklist a = false
        /\ inf_content (extractAuthorFromContent content) = trim rest
  | None => inf_content (extractAuthorFromContent content) = content
  end.
Proof.
  unfold extractAuthorFromContent, match_.
  unfold re_author. rewrite search_anchored. fold re_author.
  destruct (exec_at re_author None content) as [[s' cs]|] eqn:E;
    [|reflexivity].
  destruct (author_exec_inv _ E)
    as (x & t & sep & rest & -> & Hx & Ht & Hl & Hsep & Hl2 & Hrest & ->).
  cbn [option_map snd capture Nat.eqb].
  destruct (has blacklist (x :: t)) eqn:B; cbn [negb inf_author inf_content];
    [reflexivity|].
  exists x, t, sep, rest. repeat split; assumption.
Qed.

End ShapeFacts.

Module RecordFacts.
Import RegexDefs CleanDefs JSFacts CleanFacts ShapeDefs ShapeFacts.
Import Detail DetailFacts.

Lemma settled_trim (s : jsstring) : settled_text s = true -> trim s = s.
Proof. destruct s as [|x s]; [reflexivity|]. apply trim_tidy. Qed.

Lemma settled_parts (s : jsstring) :
  settled_text s = true ->
  single_spaced s = true /\ forallb (fun x => negb (is_break x)) s = true.
Proof.
  destruct s as [|x s]; [now split|]. intros H. apply tidy_parts in H. tauto.
Qed.

(** The content that the inference returns for a settled content is
    settled and made of text of that content. *)
Lemma inferred_settled (content : jsstring) :
  settled_text content = true ->
  settled_text (inf_content (extractAuthorFromContent content)) = true.
Proof.
  intros H. pose proof (author_sound content) as S.
  destruct (inf_author (extractAuthorFromContent content)) as [a|].
  - destruct S as (x & t & sep & rest & _ & E & _ & _ & _ & _ & _ & _ & _ & ->).
    apply settled_parts in H. destruct H as [Hs Hb]. rewrite E in Hs, Hb.
    apply single_spaced_parts in Hs. destruct Hs as [_ Hs].
    apply single_spaced_parts in Hs. destruct Hs as [_ Hs].
    rewrite !forallb_app in Hb.
    apply andb_true_iff in Hb. destruct Hb as [_ Hb].
    apply andb_true_iff in Hb. destruct Hb as [_ Hb].
    now apply trim_settled.
  - now rewrite S.
Qed.

Lemma inferred_sub (content : jsstring) :
  subseq (ink (inf_content (extractAuthorFromContent content))) (ink content).
Proof.
  pose proof (author_sound content) as S.
  destruct (inf_author (extractAuthorFromContent content)) as [a|].
  - destruct S as (x & t & sep & rest & _ & E & _ & _ & _ & _ & _ & _ & _ & ->).
    rewrite ink_trim, E, !ink_app.
    apply subseq_app_r, subseq_app_r, subseq_refl.
  - rewrite S. apply subseq_refl.
Qed.

Lemma cleanReply_content (r : RawReply.t) :
  settled_text (Reply.content (cleanReply r)) = true
  /\ subseq (ink (Reply.content (cleanReply r))) (ink (RawReply.content r)).
Proof.
  unfold cleanReply.
  set (cleaned := cleanLines (RawReply.content r) _).
  assert (H1 : settled_text cleaned = true) by apply cleanLines_settled.
  assert (H2 : subseq (ink cleaned) (ink (RawReply.content r)))
    by apply cleanLines_sub.
  destruct (negb (truthy (trim (RawReply.author r))) && truthy cleaned);
    cbn [Reply.content]; [|now split].
  destruct (truthy (inf_content (extractAuthorFromContent cleaned)));
    [|now split].
  split; [now apply inferred_settled|].
  eapply subseq_trans; [apply inferred_sub | exact H2].
Qed.

Lemma cleanReply_time_likes (r : RawReply.t) :
  Reply.time (cleanReply r) = RawReply.time r
  /\ Reply.likes (cleanReply r) = RawReply.likes r.
Proof.
  unfold cleanReply.
  destruct (negb (truthy (trim (RawReply.author r))) && truthy _); now split.
Qed.

Lemma filter_map_swap (A B : Type) (f : B -> bool) (g : A -> B) (l : list A) :
  filter f (map g l) = map g (filter (fun x => f (g x)) l).
Proof.
  induction l as [|x l IH]; [reflexivity|]. cbn [map filter].
  destruct (f (g x)); cbn [map]; now rewrite IH.
Qed.

Lemma limitReplies_firstn (e : option number) (l : list Reply.t) :
  exists n, limitReplies e l = firstn n l.
Proof.
  unfold limitReplies. destruct e as [[z|]|]; cbn [nonneg slice0].
  - destruct (0 <=? z)%Z; [now exists (Z.to_nat z)|].
    exists (length l). now rewrite firstn_all.
  - exists (length l). now rewrite firstn_all.
  - exists (length l). now rewrite firstn_all.
Qed.

Lemma mainPost_content (snap : Snapshot) :
  settled_text (snd (mainPost snap)) = true
  /\ subseq (ink (snd (mainPost snap))) (ink (mainContentRaw snap)).
Proof.
  unfold mainPost.
  set (cleaned := cleanLines (mainContentRaw snap) _).
  assert (H1 : settled_text cleaned = true) by apply cleanLines_settled.
  assert (H2 : subseq (ink cleaned) (ink (mainContentRaw snap)))
    by apply cleanLines_sub.
  destruct (negb (truthy (trim (orEmpty (mainAuthor snap)))) && truthy cleaned);
    cbn [snd]; [|now split].
  destruct (truthy (inf_content (extractAuthorFromContent cleaned)));
    [|now split].
  split; [now apply inferred_settled|].
  eapply subseq_trans; [apply inferred_sub | exact H2].
Qed.

Lemma build_content (url : jsstring) (snap : Snapshot) :
  DiscussionDetail.content (build url snap) = trim (snd (mainPost snap)).
Proof. unfold build. destruct (mainPost snap). reflexivity. Qed.

Lemma build_authorRole (url : jsstring) (snap : Snapshot) :
  DiscussionDetail.authorRole (build url snap)
  = normalizeWhitespace (orEmpty (mainRole snap)).
Proof. unfold build. destruct (mainPost snap). reflexivity. Qed.

(** X4. The texts of a record are settled and come from the page. *)
Theorem record_texts_settled (url : jsstring) (snap : Snapshot) :
  let d := build url snap in
  settled_text (DiscussionDetail.content d) = true
  /\ subseq (ink (DiscussionDetail.content d)) (ink (mainContentRaw snap))
  /\ settled_text (DiscussionDetail.authorRole d) = true
  /\ ink (DiscussionDetail.authorRole d) = ink (orEmpty (mainRole snap))
  /\ (forall r, In r (DiscussionDetail.replies d) ->
       settled_text (Reply.content r) = true
       /\ exists raw, In raw (repliesRaw snap) /\ r = cleanReply raw
            /\ subseq (ink (Reply.content r)) (ink (RawReply.content raw))).
Proof.
  intros d. subst d.
  destruct (mainPost_content snap) as [M1 M2].
  rewrite build_content, build_authorRole, build_replies.
  rewrite (settled_trim _ M1).
  split; [exact M1|]. split; [exact M2|].
  split; [apply normalizeWhitespace_settled|].
  split; [apply normalizeWhitespace_ink|].
  intros r H. apply limitReplies_incl in H. unfold cleanReplies in H.
  apply filter_In in H. destruct H as [H _]. apply in_map_iff in H.
  destruct H as (raw & <- & Hraw).
  destruct (cleanReply_content raw) as [C1 C2].
  split; [exact C1|]. now exists raw.
Qed.

Lemma record_texts_settled_witness :
  In (cleanReply (Sample.rawReply "lee" "Open the settings page"))
    (DiscussionDetail.replies (build (js "/discussions/a") Sample.thread))
  /\ settled_text
       (Reply.content (cleanReply (Sample.rawReply "lee" "Open the settings page")))
     = true.
Proof.
  assert (I : In (cleanReply (Sample.rawReply "lee" "Open the settings page"))
                (DiscussionDetail.replies
                   (build (js "/discussions/a") Sample.thread)))
    by (vm_compute; left; reflexivity).
  split; [exact I|].
  apply (proj1 (proj2 (proj2 (proj2 (proj2
           (record_texts_settled (js "/discussions/a") Sample.thread)))) _ I)).
Defined.

(** X5. The final replies are candidates of the page in page order. *)
Theorem replies_in_page_order (url : jsstring) (snap : Snapshot) :
  let d := build url snap in
  (exists n,
     DiscussionDetail.replies d
     = map cleanReply
         (firstn n (filter (fun raw => keepReply (cleanReply raw))
                      (repliesRaw snap))))
  /\ subseq (map Reply.time (DiscussionDetail.replies d))
        (map RawReply.time (repliesRaw snap))
  /\ subseq (map Reply.likes (DiscussionDetail.replies d))
        (map RawReply.likes (repliesRaw snap))
  /\ DiscussionDetail.comments d <= length (repliesRaw snap).
Proof.
  intros d. subst d. rewrite build_comments, build_replies.
  destruct (limitReplies_firstn (expectedReplies snap)
              (cleanReplies (repliesRaw snap))) as [n ->].
  unfold cleanReplies. rewrite filter_map_swap, firstn_map.
  set (kept := firstn n (filter _ (repliesRaw snap))).
  assert (S : subseq kept (repliesRaw snap)).
  { eapply subseq_trans; [apply firstn_subseq | apply filter_subseq]. }
  split; [now exists n|].
  assert (Q : forall (B : Type) (f : Reply.t -> B) (g : RawReply.t -> B),
             (forall raw, f (cleanReply raw) = g raw) ->
             subseq (map f (map cleanReply kept)) (map g (repliesRaw snap))).
  { intros B f g E. rewrite map_map.
    induction S as [|x a b S IH|x a b S IH]; cbn [map].
    - constructor.
    - rewrite E. now constructor.
    - now constructor. }
  split; [apply Q; intros raw; apply cleanReply_time_likes|].
  split; [apply Q; intros raw; apply cleanReply_time_likes|].
  rewrite length_map. now apply subseq_length.
Qed.

End RecordFacts.

Module TextTheorems.
Import RegexDefs CleanDefs ShapeDefs ShapeFacts.

(** X1. [normalizeWhitespace] gives a settled text, empty or tidy (one
    line, no whitespace at either end, no two whitespace units in a
    row); it changes whitespace only and applying it again changes
    nothing. *)
Theorem whitespace_normal_form (s : jsstring) :
  settled_text (normalizeWhitespace s) = true
  /\ ink (normalizeWhitespace s) = ink s
  /\ normalizeWhitespace (normalizeWhitespace s) = normalizeWhitespace s.
Proof.
  split; [apply normalizeWhitespace_settled|].
  split; [apply normalizeWhitespace_ink|].
  apply settled_fixed, normalizeWhitespace_settled.
Qed.

(** X2. Whatever the raw text and the context, the cleaned text is
    settled, is left as it is by [normalizeWhitespace], and holds no text
    of its own: its code units other than whitespace are code units of
    the raw text, in the same order.  Cleaning twice can remove more
    than cleaning once. *)
Theorem cleaning_only_removes :
  (forall raw ctx,
     settled_text (cleanLines raw ctx) = true
     /\ normalizeWhitespace (cleanLines raw ctx) = cleanLines raw ctx
     /\ subseq (ink (cleanLines raw ctx)) (ink raw))
  /\ cleanLines (js "Like Reply 7") no_ctx = js "7"
  /\ cleanLines (cleanLines (js "Like Reply 7") no_ctx) no_ctx = [].
Proof.
  split; [|split; vm_compute; reflexivity].
  intros raw ctx.
  split; [apply cleanLines_settled|].
  split; [apply settled_fixed, cleanLines_settled | apply cleanLines_sub].
Qed.

(** X3. An inferred author is the start of the content: a letter and at
    least two letters, digits, underscores or hyphens, outside the
    blacklist, followed in the content by one or more separators and a
    remainder on one line, whose trimmed form is the content returned.
    Without inferred author the content is returned as it was. *)
Theorem inferred_author_shape (content : jsstring) :
  match inf_author (extractAuthorFromContent content) with
  | Some a =>
      exists x t sep rest,
        a = x :: t /\ content = a ++ sep ++ rest
        /\ is_alpha x = true /\ forallb is_token_char t = true
        /\ 2 <= length t
        /\ forallb is_sep_char sep = true /\ 1 <= length sep
        /\ forallb (fun x => negb (is_line_terminator x)) rest = true
        /\ has blacklist a = false
        /\ inf_content (extractAuthorFromContent content) = trim rest
  | None => inf_content (extractAuthorFromContent content) = content
  end.
Proof. apply author_sound. Qed.

End TextTheorems.

(* ================================================================== *)
(** ** Author inference: what is accepted as an author *)
(* ================================================================== *)

Module InferenceTheorems.
Import RegexDefs CleanDefs RegexFacts JSFacts AuthorFacts CleanFacts.
Import ShapeDefs ShapeFacts Detail.

(** A token and a separator cannot be laid over a run of word characters
    followed by a code unit that is neither. *)
Lemma split_clash (t : jsstring) :
  forall (t0 : jsstring) (s1 : ascii) (tl : jsstring) (y : ascii)
         (rest0 : jsstring),
    forallb is_token_char t = true -> forallb is_word t0 = true ->
    is_sep_char s1 = true ->
    is_token_char y = false -> is_sep_char y = false ->
    t ++ s1 :: tl = t0 ++ y :: rest0 -> False.
Proof.
  induction t as [|u t IH]; intros [|z t0] s1 tl y rest0 Ht Ht0 Hs Hy1 Hy2 E;
    cbn [app] in E; injection E as E1 E2.
  - subst. congruence.
  - subst. simpl in Ht0. apply andb_true_iff in Ht0. destruct Ht0 as [Hz _].
    rewrite (sep_not_word _ Hs) in Hz. discriminate.
  - subst. simpl in Ht. apply andb_true_iff in Ht. destruct Ht as [Hu _].
    congruence.
  - simpl in Ht, Ht0. apply andb_true_iff in Ht. apply andb_true_iff in Ht0.
    apply (IH t0 s1 tl y rest0); tauto.
Qed.

(** No author after a run of word characters that ends before a code
    unit outside the token and separator classes. *)
Lemma no_author_after_other (t0 : jsstring) (y : ascii) (rest0 : jsstring) :
  forallb is_word t0 = true ->
  is_token_char y = false -> is_sep_char y = false ->
  extractAuthorFromContent (t0 ++ y :: rest0)
  = mkInferred None (t0 ++ y :: rest0).
Proof.
  intros Ht0 Hy1 Hy2. pose proof (author_sound (t0 ++ y :: rest0)) as S.
  destruct (extractAuthorFromContent (t0 ++ y :: rest0)) as [[au|] co];
    cbn [inf_author inf_content] in S; [|now subst co].
  exfalso.
  destruct S as (x & t & sep & rest & -> & E & Hx & Ht & _ & Hsep & Hl & _).
  destruct sep as [|s1 sep]; [simpl in Hl; lia|].
  simpl in Hsep. apply andb_true_iff in Hsep. destruct Hsep as [Hs1 _].
  apply (split_clash (x :: t) t0 s1 (sep ++ rest) y rest0); try assumption.
  - simpl. now rewrite (alpha_token _ Hx), Ht.
  - rewrite E. reflexivity.
Qed.

(** C4. The two inputs of the specification give the stated results; a
    content whose leading token run is shorter than three code units
    gives no author; a token of a letter and at least two token
    characters, ending in a word character and followed by a run of
    whitespace, commas, colons or hyphens (not starting with a hyphen) and
    a remainder on one line, is returned as the author with the trimmed
    remainder as content unless it is in the blacklist, in which case the
    content is returned unchanged without author; hyphens after such a
    token are read as separators.  After a run of word characters
    followed by any other code unit, a full stop for one, there is no
    author and the content is unchanged.  For the main post and in the
    reply callback the inference is not consulted when the page gave an
    author; when it gave none and the cleaned content is such a token,
    separator run and remainder, the token outside the blacklist becomes
    the author and the trimmed remainder, when not empty, the content. *)
Theorem author_inferred :
  extractAuthorFromContent (js "janedoe92, thanks for the update")
  = mkInferred (Some (js "janedoe92")) (js "thanks for the update")
  /\ extractAuthorFromContent (js "Hi there, I have the same issue")
     = mkInferred None (js "Hi there, I have the same issue")
  /\ (forall content,
        leading is_token_char content < 3 ->
        extractAuthorFromContent content = mkInferred None content)
  /\ (forall (a y : ascii) (t sep rest : jsstring),
        is_alpha a = true ->
        forallb is_token_char t = true -> 2 <= length t ->
        is_word (last t a) = true ->
        forallb is_sep_char (y :: sep) = true -> y <> "-"%char ->
        stops is_sep_char rest = true ->
        forallb (fun x => negb (is_line_terminator x)) rest = true ->
        extractAuthorFromContent ((a :: t) ++ (y :: sep) ++ rest)
        = if has blacklist (a :: t)
          then mkInferred None ((a :: t) ++ (y :: sep) ++ rest)
          else mkInferred (Some (a :: t)) (trim rest))
  /\ (forall (a : ascii) (t h s rest : jsstring),
        is_alpha a = true ->
        forallb is_token_char t = true -> 2 <= length t ->
        is_word (last t a) = true ->
        forallb (Ascii.eqb "-"%char) h = true -> h <> [] ->
        forallb is_sep_char s = true ->
        stops is_token_char (s ++ rest) = true ->
        stops is_sep_char rest = true ->
        forallb (fun x => negb (is_line_terminator x)) rest = true ->
        extractAuthorFromContent ((a :: t) ++ h ++ s ++ rest)
        = if has blacklist (a :: t)
          then mkInferred None ((a :: t) ++ h ++ s ++ rest)
          else mkInferred (Some (a :: t)) (trim rest))
  /\ (forall (t : jsstring) (y : ascii) (rest : jsstring),
        forallb is_word t = true ->
        is_token_char y = false -> is_sep_char y = false ->
        extractAuthorFromContent (t ++ y :: rest)
        = mkInferred None (t ++ y :: rest))
  /\ (forall r : RawReply.t,
        truthy (trim (RawReply.author r)) = true ->
        cleanReply r
        = Reply.mk (trim (RawReply.author r)) (RawReply.time r)
            (cleanLines (RawReply.content r)
               (mkCtx None (Some (RawReply.author r))
                  (Some (RawReply.time r))))
            (RawReply.likes r))
  /\ (forall (r : RawReply.t) (a y : ascii) (t sep rest : jsstring),
        trim (RawReply.author r) = [] ->
        cleanLines (RawReply.content r)
          (mkCtx None (Some (RawReply.author r)) (Some (RawReply.time r)))
        = (a :: t) ++ (y :: sep) ++ rest ->
        is_alpha a = true ->
        forallb is_token_char t = true -> 2 <= length t ->
        is_word (last t a) = true ->
        forallb is_sep_char (y :: sep) = true -> y <> "-"%char ->
        stops is_sep_char rest = true ->
        forallb (fun x => negb (is_line_terminator x)) rest = true ->
        has blacklist (a :: t) = false ->
        trim rest <> [] ->
        cleanReply r
        = Reply.mk (a :: t) (RawReply.time r) (trim rest) (RawReply.likes r))
  /\ (forall snap : Snapshot,
        truthy (trim (orEmpty (mainAuthor snap))) = true ->
        mainPost snap
        = (trim (orEmpty (mainAuthor snap)),
           cleanLines (mainContentRaw snap)
             (mkCtx (option_map trim (snap_title snap))
                    (option_map trim (mainAuthor snap))
                    (option_map trim (mainTime snap)))))
  /\ (forall (snap : Snapshot) (a y : ascii) (t sep rest : jsstring),
        trim (orEmpty (mainAuthor snap)) = [] ->
        cleanLines (mainContentRaw snap)
          (mkCtx (option_map trim (snap_title snap))
                 (option_map trim (mainAuthor snap))
                 (option_map trim (mainTime snap)))
        = (a :: t) ++ (y :: sep) ++ rest ->
        is_alpha a = true ->
        forallb is_token_char t = true -> 2 <= length t ->
        is_word (last t a) = true ->
        forallb is_sep_char (y :: sep) = true -> y <> "-"%char ->
        stops is_sep_char rest = true ->
        forallb (fun x => negb (is_line_terminator x)) rest = true ->
        has blacklist (a :: t) = false ->
        trim rest <> [] ->
        mainPost snap = (a :: t, trim rest)).
Proof.
  split; [vm_compute; reflexivity|].
  split; [vm_compute; reflexivity|].
  split; [|split; [|split; [|split; [|split; [|split; [|split]]]]]].
  - intros content H. unfold extractAuthorFromContent.
    now rewrite author_no_match.
  - intros a y t sep rest. apply extract_token.
  - intros a t h s rest. apply extract_token_hyphens.
  - intros t y rest. apply no_author_after_other.
  - intros r H. unfold cleanReply. now rewrite H.
  - intros r a y t sep rest Hr Hc Ha Ht Hl Hw Hsep Hy Hrest Hdot Hb Hn.
    unfold cleanReply. rewrite Hr, Hc.
    rewrite extract_token by assumption. rewrite Hb.
    cbn [truthy negb andb app inf_author inf_content].
    destruct (trim rest) as [|z u]; [now elim Hn | reflexivity].
  - intros snap H. unfold mainPost. now rewrite H.
  - intros snap a y t sep rest Hr Hc Ha Ht Hl Hw Hsep Hy Hrest Hdot Hb Hn.
    unfold mainPost. rewrite Hr, Hc.
    rewrite extract_token by assumption. rewrite Hb.
    cbn [truthy negb andb app inf_author inf_content].
    destruct (trim rest) as [|z u]; [now elim Hn | reflexivity].
Qed.

(** A full stop is no separator: [bob] is a leading token of three
    letters outside the blacklist, it is followed by punctuation, and it
    is not accepted as the author. *)
Lemma author_inferred_counterexample :
  is_alpha "b" = true
  /\ forallb is_token_char (js "ob") = true
  /\ 3 <= length (js "bob")
  /\ has blacklist (js "bob") = false
  /\ is_space "." = false /\ is_word "." = false
  /\ inf_author (extractAuthorFromContent (js "bob. hello there"))
     <> Some (js "bob")
  /\ extractAuthorFromContent (js "bob. hello there")
     = mkInferred None (js "bob. hello there")
  /\ extractAuthorFromContent (js "janedoe92. thanks for the update")
     = mkInferred None (js "janedoe92. thanks for the update").
Proof.
  repeat split; try (vm_compute; reflexivity); try (simpl; lia).
  vm_compute. discriminate.
Qed.

Lemma author_inferred_witness :
  leading is_token_char (js "Hi there") < 3
  /\ extractAuthorFromContent (js "Hi there") = mkInferred None (js "Hi there")
  /\ extractAuthorFromContent (js "sam_w: any news")
     = mkInferred (Some (js "sam_w")) (js "any news")
  /\ extractAuthorFromContent (js "sam_w-- any news")
     = mkInferred (Some (js "sam_w")) (js "any news")
  /\ extractAuthorFromContent (js "sam_w; any news")
     = mkInferred None (js "sam_w; any news")
  /\ cleanReply (RawReply.mk (js " ") (js "") (js "1h") (js "sam_w: any news") 2)
     = Reply.mk (js "sam_w") (js "1h") (js "any news") 2
  /\ mainPost (mkSnapshot None (Some (js "maria ")) None None
                 (js "sam_w: any news") [] None 0)
     = (js "maria", js "sam_w: any news")
  /\ mainPost (mkSnapshot None None None None
                 (js "sam_w: any news") [] None 0)
     = (js "sam_w", js "any news").
Proof.
  assert (H : leading is_token_char (js "Hi there") < 3)
    by (vm_compute; repeat constructor).
  destruct author_inferred as (_ & _ & C3 & C4 & C5 & C6 & _ & C8 & C9 & C10).
  split; [exact H|].
  split; [|split; [|split; [|split; [|split; [|split]]]]].
  - apply (C3 (js "Hi there") H).
  - apply (C4 "s"%char ":"%char (js "am_w") (js " ") (js "any news"));
      try reflexivity; [simpl; lia | discriminate].
  - apply (C5 "s"%char (js "am_w") (js "--") (js " ") (js "any news"));
      try reflexivity; [simpl; lia | discriminate].
  - apply (C6 (js "sam_w") ";"%char (js " any news")); reflexivity.
  - apply (C8 (RawReply.mk (js " ") (js "") (js "1h") (js "sam_w: any news") 2)
             "s"%char ":"%char (js "am_w") (js " ") (js "any news"));
      try (vm_compute; reflexivity); try discriminate; simpl; lia.
  - apply (C9 (mkSnapshot None (Some (js "maria ")) None None
                 (js "sam_w: any news") [] None 0)).
    vm_compute. reflexivity.
  - apply (C10 (mkSnapshot None None None None
                  (js "sam_w: any news") [] None 0)
             "s"%char ":"%char (js "am_w") (js " ") (js "any news"));
      try (vm_compute; reflexivity); try discriminate; simpl; lia.
Defined.

End InferenceTheorems.

(* ================================================================== *)
(** ** Facts on numbers *)
(* ================================================================== *)

Module NumberFacts.
Import Numbers AuthorFacts.

Lemma digit_value (c : ascii) :
  is_digit c = true ->
  digitValue c = Some (code c - 48)%N /\ (code c - 48 < 10)%N.
Proof. each_ascii c; split; reflexivity. Qed.

Lemma radixDigits_decimal (ds : jsstring) :
  forallb is_digit ds = true ->
  radixDigits 10 ds = map (fun c => (code c - 48)%N) ds.
Proof.
  induction ds as [|c ds IH]; [reflexivity|]. cbn [forallb]. intros H.
  apply andb_true_iff in H. destruct H as [Hc Hds].
  destruct (digit_value c Hc) as [E L]. cbn [radixDigits map].
  rewrite E. apply N.ltb_lt in L. rewrite L. now rewrite IH.
Qed.

Lemma mathInt_decimal (ds : jsstring) :
  mathInt 10 (map (fun c => (code c - 48)%N) ds) = decimal ds.
Proof.
  unfold mathInt, decimal. generalize 0%N.
  induction ds as [|c ds IH]; intros acc; [reflexivity|].
  cbn [map fold_left]. apply IH.
Qed.

Lemma digit_plain (c : ascii) :
  is_digit c = true ->
  is_space c = false /\ Ascii.eqb c "-" = false /\ Ascii.eqb c "+" = false
  /\ Ascii.eqb c "x" = false /\ Ascii.eqb c "X" = false.
Proof. each_ascii c; repeat split; reflexivity. Qed.

(** [parseInt] of a run of decimal digits, with radix ten or without
    radix. *)
Lemma parseInt_digits (ds : jsstring) (radix : N) :
  radix = 0%N \/ radix = 10%N ->
  forallb is_digit ds = true -> ds <> [] ->
  parseInt ds radix
  = match round53 (decimal ds) with
    | Some v => Num (Z.of_N v)
    | None => Inf false
    end.
Proof.
  intros Hr Hd Hn. destruct ds as [|c ds]; [now elim Hn|].
  pose proof Hd as Hd'. cbn [forallb] in Hd'.
  apply andb_true_iff in Hd'. destruct Hd' as [Hc Hds].
  destruct (digit_plain c Hc) as (Sc & Mc & Pc & _).
  unfold parseInt. cbn [trimStart]. rewrite Sc, Mc, Pc.
  assert (E : radixDigits 10 (c :: ds) <> []).
  { rewrite radixDigits_decimal by exact Hd. discriminate. }
  assert (F : forall R0 : bool,
             match radixDigits 10 (c :: ds) with
             | [] => NaN
             | d :: l =>
                 match round53 (mathInt 10 (d :: l)) with
                 | Some v => Num (if R0 then - Z.of_N v else Z.of_N v)
                 | None => Inf R0
                 end
             end
             = match round53 (decimal (c :: ds)) with
               | Some v => Num (if R0 then - Z.of_N v else Z.of_N v)
               | None => Inf R0
               end).
  { intros R0.
    destruct (radixDigits 10 (c :: ds)) as [|d l] eqn:Er; [now elim E|].
    rewrite <- Er, radixDigits_decimal, mathInt_decimal by exact Hd.
    reflexivity. }
  destruct Hr as [-> | ->].
  - change (0 =? 0)%N with true. cbn [negb andb orb].
    destruct ds as [|x ds].
    + apply (F false).
    + cbn [forallb] in Hds. apply andb_true_iff in Hds.
      destruct Hds as [Hx _].
      destruct (digit_plain x Hx) as (_ & _ & _ & X1 & X2).
      rewrite X1, X2, andb_false_r. apply (F false).
  - change (10 =? 0)%N with false. change (10 =? 16)%N with false.
    change (10 <? 2)%N with false. change (36 <? 10)%N with false.
    cbn [negb andb orb]. apply (F false).
Qed.

Lemma round53_small (n : N) : (n < 2 ^ 53)%N -> round53 n = Some n.
Proof. intros H. unfold round53. apply N.ltb_lt in H. now rewrite H. Qed.

(** Removing the non-digits keeps the digits. *)
Lemma digitsOnly_filter (text : jsstring) :
  digitsOnly text = filter is_digit text.
Proof.
  unfold digitsOnly, replaceAll. generalize (@None ascii).
  induction text as [|x s IH]; intros prev; [reflexivity|].
  cbn [replace_from filter]. unfold exec_at, re_nondigit. cbn [run].
  destruct (is_digit x); cbn [negb].
  - now rewrite IH.
  - replace (length (x :: s) - length s) with 1 by (cbn [length]; lia).
    cbn [app]. apply IH.
Qed.

Lemma filter_digits (text : jsstring) :
  forallb is_digit (filter is_digit text) = true.
Proof.
  induction text as [|x s IH]; [reflexivity|]. cbn [filter].
  destruct (is_digit x) eqn:E; [|exact IH]. cbn [forallb]. now rewrite E.
Qed.

End NumberFacts.

(* ================================================================== *)
(** ** Facts on the page callbacks *)
(* ================================================================== *)

Module HarvestFacts.
Import RegexDefs CleanDefs JSFacts RegexFacts AuthorFacts CleanFacts.
Import ShapeDefs ShapeFacts Numbers NumberFacts Harvest.

Lemma round53_countable (n : N) :
  countable match round53 n with
            | Some v => Num (Z.of_N v)
            | None => Inf false
            end = true.
Proof.
  destruct (round53 n) as [v|]; cbn [countable negb]; [|reflexivity].
  apply Z.leb_le. lia.
Qed.

Lemma counterOf_value (text : jsstring) :
  counterOf (Some text)
  = match round53 (decimal (filter is_digit text)) with
    | Some v => Num (Z.of_N v)
    | None => Inf false
    end.
Proof.
  unfold counterOf. rewrite digitsOnly_filter.
  destruct (filter is_digit text) as [|c ds] eqn:E.
  - reflexivity.
  - cbn [truthy]. rewrite <- E. apply parseInt_digits.
    + now left.
    + apply filter_digits.
    + rewrite E. discriminate.
Qed.

Lemma likesOf_value (text : jsstring) :
  likesOf text
  = match round53 (decimal (filter is_digit text)) with
    | Some v => Num (Z.of_N v)
    | None => Inf false
    end.
Proof.
  unfold likesOf. rewrite digitsOnly_filter.
  destruct (filter is_digit text) as [|c ds] eqn:E.
  - reflexivity.
  - rewrite <- E, parseInt_digits.
    + now destruct (round53 (decimal (filter is_digit text))).
    + now left.
    + apply filter_digits.
    + rewrite E. discriminate.
Qed.

(** *** The selector loop *)

Lemma trySelectors_barren (query : jsstring -> option (list ReplyElement))
    (sels : list jsstring) :
  forallb (barren query) sels = true ->
  trySelectors query sels [] = [].
Proof.
  induction sels as [|sel sels IH]; [reflexivity|]. cbn [forallb].
  intros H. apply andb_true_iff in H. destruct H as [Hb Hs].
  cbn [trySelectors]. unfold barren in Hb.
  destruct (query sel) as [[|e [|e' els]]|]; try discriminate;
    cbn; now apply IH.
Qed.

Lemma trySelectors_hit (query : jsstring -> option (list ReplyElement))
    (pre : list jsstring) (selector : jsstring) (post : list jsstring)
    (main next : ReplyElement) (more : list ReplyElement) :
  forallb (barren query) pre = true ->
  query selector = Some (main :: next :: more) ->
  trySelectors query (pre ++ selector :: post) []
  = map candidateOf (next :: more).
Proof.
  intros Hpre Hq. induction pre as [|sel pre IH].
  - cbn [app trySelectors]. rewrite Hq. reflexivity.
  - cbn [forallb] in Hpre. apply andb_true_iff in Hpre.
    destruct Hpre as [Hb Hs]. cbn [app trySelectors]. unfold barren in Hb.
    destruct (query sel) as [[|e [|e' els]]|]; try discriminate;
      cbn; now apply IH.
Qed.

(** *** The number of a label *)

Lemma search_inv (r : regex) (s : jsstring) :
  forall prev m,
    search r prev s = Some m ->
    exists pre s', s = pre ++ s' /\ exec_at r (after prev pre) s' = Some m.
Proof.
  induction s as [|x s IH]; intros prev m H; cbn [search] in H.
  - destruct (exec_at r prev []) as [m0|] eqn:E; [|discriminate].
    injection H as <-. now exists [], [].
  - destruct (exec_at r prev (x :: s)) as [m0|] eqn:E.
    + injection H as <-. now exists [], (x :: s).
    + apply IH in H. destruct H as (pre & s' & -> & H).
      now exists (x :: pre), s'.
Qed.

Lemma number_exec_inv (prev : option ascii) (s rest : jsstring) (cs : caps) :
  exec_at re_number prev s = Some (rest, cs) ->
  exists ds, s = ds ++ rest /\ forallb is_digit ds = true /\ ds <> []
             /\ cs = [(1, ds)].
Proof.
  unfold exec_at, re_number. rewrite run_group. unfold plus, digit.
  rewrite run_rep_class. intros H. apply greedy_inv in H.
  destruct H as (w & s' & -> & Hw & Hl & E). injection E as <- <-.
  rewrite consumed_app. exists w. repeat split; try assumption.
  intros ->. simpl in Hl. lia.
Qed.

Lemma number_miss (prev : option ascii) (s : jsstring) :
  stops is_digit s = true -> exec_at re_number prev s = None.
Proof.
  intros H. unfold exec_at, re_number. rewrite run_group. unfold plus, digit.
  rewrite run_rep_class.
  destruct s as [|x s]; cbn [greedy hi_is_zero Nat.eqb]; [reflexivity|].
  simpl in H. apply negb_true_iff in H. now rewrite H.
Qed.

Lemma number_search_none (s : jsstring) :
  forall prev,
    forallb (fun x => negb (is_digit x)) s = true ->
    search re_number prev s = None.
Proof.
  induction s as [|x s IH]; intros prev H; cbn [search].
  - now rewrite number_miss.
  - cbn [forallb] in H. apply andb_true_iff in H. destruct H as [Hx Hs].
    rewrite number_miss by exact Hx. now apply IH.
Qed.

Lemma number_search_hit (pre : jsstring) :
  forall prev ds post,
    forallb (fun x => negb (is_digit x)) pre = true ->
    forallb is_digit ds = true -> ds <> [] -> stops is_digit post = true ->
    search re_number prev (pre ++ ds ++ post) = Some (post, [(1, ds)]).
Proof.
  induction pre as [|x pre IH]; intros prev ds post Hpre Hds Hn Hpost.
  - cbn [app]. apply search_here.
    unfold exec_at, re_number. rewrite run_group. unfold plus, digit.
    rewrite run_rep_class. apply greedy_longest; try assumption.
    + destruct ds; [now elim Hn | simpl; lia].
    + now rewrite consumed_app.
  - cbn [forallb] in Hpre. apply andb_true_iff in Hpre.
    destruct Hpre as [Hx Hpre]. cbn [app search].
    rewrite number_miss by exact Hx. now apply IH.
Qed.

(** *** The pre-filter of a candidate's content *)

Lemma replace_first_nowhere (r : regex) (rep s : jsstring) :
  forall prev, nowhere r prev s -> replace_first r rep prev s = s.
Proof.
  induction s as [|x s IH]; intros prev [H1 H2]; cbn [replace_first];
    rewrite H1; [reflexivity|]. f_equal. now apply IH.
Qed.

Lemma nowhere_bol (rs : list regex) (s : jsstring) :
  forall x, nowhere (seqs (Bol :: rs)) (Some x) s.
Proof.
  induction s as [|y s IH]; intros x; cbn [nowhere]; split; try exact I;
    try apply IH; unfold exec_at; now rewrite run_seqs_cons.
Qed.

(** An anchored pattern is tried at the start only. *)
Lemma replace_first_anchored (rs : list regex) (rep s : jsstring) :
  replaceFirst (seqs (Bol :: rs)) rep s
  = match exec_at (seqs (Bol :: rs)) None s with
    | Some (rest, _) => rep ++ rest
    | None => s
    end.
Proof.
  unfold replaceFirst. destruct s as [|x s]; cbn [replace_first].
  - now destruct (exec_at (seqs (Bol :: rs)) None []) as [[rest cs]|].
  - destruct (exec_at (seqs (Bol :: rs)) None (x :: s)) as [[rest cs]|];
      [reflexivity|].
    f_equal. apply replace_first_nowhere, nowhere_bol.
Qed.

Lemma lead_count_miss (s : jsstring) :
  stops is_digit s = true -> exec_at re_lead_count None s = None.
Proof.
  intros H. unfold exec_at, re_lead_count. rewrite run_seqs_cons. cbn [run].
  rewrite run_seqs_cons. unfold plus, digit. rewrite run_rep_class.
  destruct s as [|x s]; cbn [greedy hi_is_zero Nat.eqb]; [reflexivity|].
  simpl in H. apply negb_true_iff in H. now rewrite H.
Qed.

Lemma rep_loop_suffix (A : Type)
    (body : option ascii -> jsstring -> caps -> cont A -> option A)
    (k : cont A) :
  (forall prev s c k' a, body prev s c k' = Some a -> reaches k' s a) ->
  forall fuel lo hi prev s c a,
    rep_loop body k fuel lo hi prev s c = Some a -> reaches k s a.
Proof.
  intros Hb.
  assert (Z : forall prev s c a, k prev s c = Some a -> reaches k s a).
  { intros prev s c a H. now exists prev, [], s, c. }
  induction fuel as [|fuel IH]; intros lo hi prev s c a H.
  - simpl in H. destruct (hi_is_zero hi); now apply Z in H.
  - cbn [rep_loop] in H. destruct (hi_is_zero hi); [now apply Z in H|].
    destruct lo as [|lo].
    + match type of H with
      | match ?b with _ => _ end = _ => destruct b as [a0|] eqn:E
      end; [|now apply Z in H].
      injection H as ->. apply Hb in E.
      destruct E as (p1 & w1 & s1 & c1 & -> & E).
      destruct (length s1 <? length (w1 ++ s1)); [|discriminate].
      apply IH in E. destruct E as (p2 & w2 & s2 & c2 & -> & E).
      exists p2, (w1 ++ w2), s2, c2. now rewrite <- app_assoc.
    + apply Hb in H. destruct H as (p1 & w1 & s1 & c1 & -> & E).
      apply IH in E. destruct E as (p2 & w2 & s2 & c2 & -> & E).
      exists p2, (w1 ++ w2), s2, c2. now rewrite <- app_assoc.
Qed.

Lemma run_suffix (A : Type) (r : regex) :
  forall prev s c (k : cont A) a,
    run r prev s c k = Some a -> reaches k s a.
Proof.
  induction r as [|p|r1 IH1 r2 IH2|r1 IH1 r2 IH2|lo hi r IH|i r IH| | |];
    intros prev s c k a H; cbn [run] in H.
  - now exists prev, [], s, c.
  - destruct s as [|x s]; [discriminate|].
    destruct (p x); [|discriminate]. now exists (Some x), [x], s, c.
  - apply IH1 in H. destruct H as (p1 & w1 & s1 & c1 & -> & E).
    apply IH2 in E. destruct E as (p2 & w2 & s2 & c2 & -> & E).
    exists p2, (w1 ++ w2), s2, c2. now rewrite <- app_assoc.
  - destruct (run r1 prev s c k) as [a0|] eqn:E.
    + injection H as ->. now apply IH1 in E.
    + now apply IH2 in H.
  - apply rep_loop_suffix in H; [exact H|].
    intros prev0 s0 c0 k' a0. apply IH.
  - apply IH in H. destruct H as (p1 & w1 & s1 & c1 & -> & E).
    now exists p1, w1, s1, ((i, consumed (w1 ++ s1) s1) :: c1).
  - destruct prev; [discriminate|]. now exists None, [], s, c.
  - destruct s; [|discriminate]. now exists prev, [], [], c.
  - destruct (at_boundary prev s); [|discriminate]. now exists prev, [], s, c.
Qed.

Lemma exec_suffix (r : regex) (prev : option ascii) (s rest : jsstring)
    (cs : caps) :
  exec_at r prev s = Some (rest, cs) -> exists w, s = w ++ rest.
Proof.
  intros H. apply run_suffix in H.
  destruct H as (p1 & w1 & s1 & c1 & -> & E). injection E as -> _.
  now exists w1.
Qed.

(** Replacing by nothing leaves out text and adds none. *)
Lemma replace_from_sub (r : regex) (s : jsstring) :
  forall prev skip, subseq (replace_from r [] prev s skip) s.
Proof.
  induction s as [|x s IH]; intros prev skip; cbn [replace_from].
  - destruct skip; [|constructor]. destruct (exec_at r prev []); constructor.
  - destruct skip as [|n]; [|constructor; apply IH].
    destruct (exec_at r prev (x :: s)) as [[rest cs]|].
    + destruct (length (x :: s) - length rest); cbn [app];
        constructor; apply IH.
    + constructor. apply IH.
Qed.

Lemma replace_first_sub (r : regex) (s : jsstring) :
  forall prev, subseq (replace_first r [] prev s) s.
Proof.
  induction s as [|x s IH]; intros prev; cbn [replace_first].
  - destruct (exec_at r prev []) as [[rest cs]|] eqn:E; [|constructor].
    apply exec_suffix in E. destruct E as [w E].
    symmetry in E. apply app_eq_nil in E. destruct E as [_ ->]. constructor.
  - destruct (exec_at r prev (x :: s)) as [[rest cs]|] eqn:E.
    + apply exec_suffix in E. destruct E as [w ->]. cbn [app].
      apply subseq_app_r, subseq_refl.
    + constructor. apply IH.
Qed.

Lemma prefilter_sub (content : jsstring) : subseq (prefilter content) content.
Proof.
  unfold prefilter, replaceAll, replaceFirst.
  eapply subseq_trans; [apply replace_from_sub|].
  eapply subseq_trans; [apply replace_from_sub|].
  apply replace_first_sub.
Qed.

Lemma mentions_suffix (w pre s : jsstring) :
  mentions w (pre ++ s) = false -> mentions w s = false.
Proof.
  induction pre as [|x pre IH]; [auto|]. intros H. apply IH.
  eapply mentions_tail. exact H.
Qed.

Lemma replaces_sorted_free (s : jsstring) :
  mentions (js "sorted") s = false ->
  replaceAll re_pre_sorted_by []
    (replaceAll re_pre_replies_sorted [] s) = s.
Proof.
  intros H.
  assert (E : replaceAll re_pre_replies_sorted [] s = s).
  { apply (replace_unmentioned (js "sorted")
             [lit_i "Replie"; opt (chr_i "s"); plus space]
             [plus space; lit_i "by"; plus space; plus wordc; star space]
             [] s H). }
  rewrite E.
  apply (replace_unmentioned (js "sorted") []
           [plus space; lit_i "by"; plus space; re_order 1;
            plus space; star wordc; star space] [] s H).
Qed.

(** Without the word [sorted] the pre-filter takes a leading count label
    or nothing. *)
Lemma prefilter_sorted_free (content : jsstring) :
  mentions (js "sorted") content = false ->
  prefilter content
  = match exec_at re_lead_count None content with
    | Some (rest, _) => rest
    | None => content
    end.
Proof.
  intros H. unfold prefilter.
  unfold re_lead_count at 1. rewrite replace_first_anchored.
  fold re_lead_count.
  destruct (exec_at re_lead_count None content) as [[rest cs]|] eqn:E.
  - cbn [app]. apply replaces_sorted_free.
    apply exec_suffix in E. destruct E as [w ->].
    now apply mentions_suffix in H.
  - now apply replaces_sorted_free.
Qed.

Lemma run_opt_hit (A : Type) (r0 : regex) (e s : jsstring)
    (prev : option ascii) (c : caps) (k : cont A) (a : A) :
  e <> [] ->
  (forall k' : cont A, run r0 prev (e ++ s) c k' = k' (after prev e) s c) ->
  k (after prev e) s c = Some a ->
  run (opt r0) prev (e ++ s) c k = Some a.
Proof.
  intros He Hr Hk. unfold opt. cbn [run].
  assert (L : length s < length (e ++ s)).
  { rewrite length_app. destruct e; [now elim He | simpl; lia]. }
  destruct (length (e ++ s)) as [|n] eqn:E; [lia|].
  cbn [Nat.add rep_loop hi_is_zero]. rewrite Hr.
  rewrite <- E in L. apply Nat.ltb_lt in L. rewrite L.
  cbn [dec_hi option_map pred].
  destruct n; cbn [rep_loop hi_is_zero]; now rewrite Hk.
Qed.

Lemma y_not_i (x : ascii) : eqb_ci x "y" = true -> eqb_ci x "i" = false.
Proof. each_ascii x. Qed.

Lemma i_not_y (x : ascii) : eqb_ci x "i" = true -> eqb_ci x "y" = false.
Proof. each_ascii x. Qed.

Lemma run_ending (A : Type) (e s : jsstring) (prev : option ascii)
    (c : caps) (k' : cont A) :
  same_ci e (js "y") = true \/ same_ci e (js "ies") = true ->
  run (Alt (chr_i "y") (lit_i "ies")) prev (e ++ s) c k'
  = k' (after prev e) s c.
Proof.
  intros [H|H]; cbn [run].
  - destruct e as [|x [|x' e]]; simpl in H; try discriminate;
      [|rewrite andb_false_r in H; discriminate].
    rewrite andb_true_r in H. cbn [app chr_i run after].
    fold (eqb_ci x "y"). rewrite H.
    destruct (k' (Some x) s c); [reflexivity|].
    unfold lit_i. rewrite run_lit_i. cbn [js list_ascii_of_string startsWith_ci].
    rewrite (y_not_i _ H). reflexivity.
  - destruct e as [|x e]; [discriminate|].
    pose proof H as H'. simpl in H'. apply andb_true_iff in H'.
    destruct H' as [Hx _]. cbn [app chr_i run].
    fold (eqb_ci x "y"). rewrite (i_not_y _ Hx).
    unfold lit_i. change (x :: e ++ s) with ((x :: e) ++ s).
    now rewrite run_lit_same.
Qed.

Lemma same_ci_split (w v1 v2 : jsstring) :
  same_ci w (v1 ++ v2) = true ->
  exists w1 w2, w = w1 ++ w2 /\ same_ci w1 v1 = true /\ same_ci w2 v2 = true.
Proof.
  revert w. induction v1 as [|c v1 IH]; intros w H.
  - now exists [], w.
  - destruct w as [|x w]; [discriminate|]. simpl in H.
    apply andb_true_iff in H. destruct H as [Hx H].
    destruct (IH _ H) as (w1 & w2 & -> & H1 & H2).
    exists (x :: w1), w2. simpl. now rewrite Hx, H1.
Qed.

Lemma same_ci_nonempty (e v : jsstring) :
  same_ci e v = true -> v <> [] -> e <> [].
Proof. intros H Hv ->. destruct v; [now elim Hv | discriminate]. Qed.

(** The match of the leading count label. *)
Lemma lead_count_hit (ds ws w ws' rest : jsstring) :
  ds <> [] -> forallb is_digit ds = true ->
  ws <> [] -> forallb is_space ws = true ->
  same_ci w (js "Reply") = true \/ same_ci w (js "Replies") = true ->
  forallb is_space ws' = true -> stops is_space rest = true ->
  exec_at re_lead_count None (ds ++ ws ++ w ++ ws' ++ rest)
  = Some (rest, []).
Proof.
  intros Hd1 Hd Hw1 Hw Hs Hw' Hrest.
  assert (S : exists w1 e,
             w = w1 ++ e /\ same_ci w1 (js "Repl") = true
             /\ (same_ci e (js "y") = true \/ same_ci e (js "ies") = true)).
  { destruct Hs as [Hs|Hs].
    - destruct (same_ci_split w (js "Repl") (js "y") Hs)
        as (w1 & e & -> & H1 & H2). exists w1, e. tauto.
    - destruct (same_ci_split w (js "Repl") (js "ies") Hs)
        as (w1 & e & -> & H1 & H2). exists w1, e. tauto. }
  destruct S as (w1 & e & -> & H1 & H2).
  assert (He : e <> []).
  { destruct H2 as [H2|H2]; apply (same_ci_nonempty H2); discriminate. }
  rewrite <- !app_assoc.
  unfold exec_at, re_lead_count, plus, digit, space.
  rewrite run_seqs_cons. cbn [run].
  rewrite run_seqs_cons, run_rep_class.
  apply greedy_longest;
    [exact Hd | now apply stops_digit_spaces
     | destruct ds; [now elim Hd1 | simpl; lia] |].
  rewrite run_seqs_cons, run_rep_class.
  apply greedy_longest;
    [exact Hw | now apply stops_space_same with (v := js "epl") (c := "R"%char)
     | destruct ws; [now elim Hw1 | simpl; lia] |].
  rewrite run_seqs_cons. unfold lit_i. rewrite run_lit_same by exact H1.
  rewrite run_seqs_cons.
  apply run_opt_hit; [exact He | intros k'; now apply run_ending |].
  cbn [seqs]. unfold star. rewrite run_rep_class.
  apply greedy_longest; [exact Hw' | exact Hrest | lia | reflexivity].
Qed.

End HarvestFacts.

Module HarvestTheorems.
Import RegexDefs CleanDefs ShapeDefs Numbers NumberFacts Harvest HarvestFacts.

(** X8. The counters of a listing row and the likes of a reply are the
    number written by the digits of the text, whatever stands between
    them: zero without digit, never [NaN] and never negative. *)
Theorem counters_read_digits :
  counterOf None = Num 0
  /\ (forall text,
        countable (counterOf (Some text)) = true
        /\ countable (likesOf text) = true)
  /\ (forall text,
        (decimal (filter is_digit text) < 2 ^ 53)%N ->
        counterOf (Some text) = Num (Z.of_N (decimal (filter is_digit text)))
        /\ likesOf text = Num (Z.of_N (decimal (filter is_digit text)))).
Proof.
  split; [reflexivity|]. split.
  - intros text. rewrite counterOf_value, likesOf_value.
    split; apply round53_countable.
  - intros text H. rewrite counterOf_value, likesOf_value.
    now rewrite round53_small.
Qed.

Lemma counters_read_digits_witness :
  (decimal (filter is_digit (js "1.2K views")) < 2 ^ 53)%N
  /\ counterOf (Some (js "1.2K views")) = Num 12.
Proof.
  assert (H : (decimal (filter is_digit (js "1.2K views")) < 2 ^ 53)%N)
    by (vm_compute; reflexivity).
  split; [exact H|].
  apply (proj1 (proj2 (proj2 counters_read_digits) (js "1.2K views") H)).
Defined.

(** X9. The declared reply count is the first run of digits of the label
    text: absent without label or without digit, and otherwise an
    integer from zero on (or plus infinity), so that the slice of the
    replies is always taken when a label is read. *)
Theorem label_count_first_number :
  labelCount None = None
  /\ (forall text,
        forallb (fun x => negb (is_digit x)) text = true ->
        labelCount (Some text) = None)
  /\ (forall pre ds post,
        forallb (fun x => negb (is_digit x)) pre = true ->
        forallb is_digit ds = true -> ds <> [] ->
        stops is_digit post = true ->
        (decimal ds < 2 ^ 53)%N ->
        labelCount (Some (pre ++ ds ++ post)) = Some (Num (Z.of_N (decimal ds))))
  /\ (forall t v, labelCount t = Some v -> countable v = true).
Proof.
  split; [reflexivity|]. split; [|split].
  - intros text H. unfold labelCount, match_.
    now rewrite number_search_none.
  - intros pre ds post Hpre Hds Hn Hpost Hv. unfold labelCount, match_.
    rewrite number_search_hit by assumption.
    cbn [option_map snd capture Nat.eqb].
    rewrite parseInt_digits by (try assumption; now right).
    now rewrite round53_small.
  - intros [text|] v H; [|discriminate]. unfold labelCount, match_ in H.
    destruct (search re_number None text) as [[rest cs]|] eqn:E;
      [|discriminate].
    apply search_inv in E. destruct E as (pre & s' & _ & E).
    apply number_exec_inv in E. destruct E as (ds & _ & Hd & Hn & ->).
    cbn [option_map snd capture Nat.eqb] in H. injection H as <-.
    rewrite parseInt_digits by (try assumption; now right).
    apply round53_countable.
Qed.

Lemma label_count_first_number_witness :
  labelCount (Some (js "Showing 1-10 of 23 Replies")) = Some (Num 1)
  /\ countable (Num 1) = true.
Proof.
  assert (H : labelCount (Some (js "Showing " ++ js "1" ++ js "-10 of 23 Replies"))
              = Some (Num (Z.of_N (decimal (js "1"))))).
  { apply (proj1 (proj2 (proj2 label_count_first_number))
             (js "Showing ") (js "1") (js "-10 of 23 Replies"));
      try reflexivity; discriminate. }
  split; [exact H|].
  apply (proj2 (proj2 (proj2 label_count_first_number)) _ _ H).
Defined.

(** X7. The candidates come from the first selector, in the fixed order,
    that matches the main post and at least one more element; a selector
    that throws or matches no more than the main post is passed over,
    and with none left there are no candidates. *)
Theorem first_fruitful_selector
    (query : jsstring -> option (list ReplyElement)) :
  (forallb (barren query) replySelectors = true -> collectReplies query = [])
  /\ (forall pre selector post main next more,
        replySelectors = pre ++ selector :: post ->
        forallb (barren query) pre = true ->
        query selector = Some (main :: next :: more) ->
        collectReplies query = map candidateOf (next :: more)).
Proof.
  split.
  - apply trySelectors_barren.
  - intros pre selector post main next more E Hpre Hq.
    unfold collectReplies. rewrite E.
    now apply trySelectors_hit with (main := main).
Qed.

Lemma first_fruitful_selector_witness :
  collectReplies Pages.query
  = map candidateOf [ Pages.post "lee" "2 Replies First answer";
                      Pages.post "kim" "Second answer" ].
Proof.
  apply (proj2 (first_fruitful_selector Pages.query)
           [js "article"; js "li[data-testid^='message']"]
           (js "[data-testid='message-view']")
           [js ".lia-message-view"; js "[class*='message']"]
           (Pages.post "maria" "Question"));
    reflexivity.
Defined.

(** X6. The pre-filter of a candidate's content only leaves text out; a
    content without the word [sorted] that starts with no digit is
    left as it is, and one that starts with a count label ([N Reply] or
    [N Replies] in any case) loses the label and the whitespace after
    it. *)
Theorem prefilter_takes_labels :
  (forall content, subseq (prefilter content) content)
  /\ (forall content,
        mentions (js "sorted") content = false ->
        stops is_digit content = true ->
        prefilter content = content)
  /\ (forall ds ws w ws' rest,
        ds <> [] -> forallb is_digit ds = true ->
        ws <> [] -> forallb is_space ws = true ->
        same_ci w (js "Reply") = true \/ same_ci w (js "Replies") = true ->
        forallb is_space ws' = true -> stops is_space rest = true ->
        mentions (js "sorted") rest = false ->
        prefilter (ds ++ ws ++ w ++ ws' ++ rest) = rest).
Proof.
  split; [apply prefilter_sub|]. split.
  - intros content H D. rewrite prefilter_sorted_free by exact H.
    now rewrite lead_count_miss.
  - intros ds ws w ws' rest D1 D W1 W S W' R M. unfold prefilter.
    unfold re_lead_count at 1. rewrite replace_first_anchored.
    fold re_lead_count. rewrite lead_count_hit by assumption.
    cbn [app]. now apply replaces_sorted_free.
Qed.

Lemma prefilter_takes_labels_witness :
  prefilter (js "23" ++ js " " ++ js "REPLIES" ++ js "  " ++ js "Thanks, that worked")
  = js "Thanks, that worked".
Proof.
  apply (proj2 (proj2 prefilter_takes_labels)
           (js "23") (js " ") (js "REPLIES") (js "  ")
           (js "Thanks, that worked"));
    try reflexivity; try discriminate.
  right. reflexivity.
Defined.

End HarvestTheorems.

(* ================================================================== *)
(** ** Facts on the listing crawl *)
(* ================================================================== *)

Module CrawlerFacts.
Import JSFacts Scraper Crawler Outcome EffFacts.

Section WithPage.
Local Open Scope scraper_scope.
Context {Page exn : Type}.
Local Abbreviation Eff := (M Page exn).

Lemma bind_trace {A B} (m : Eff A) (f : A -> Eff B) (p : Page) :
  trace_of (bind m f p)
  = trace_of (m p)
    ++ match value_of (m p) with
       | inr a => trace_of (f a (page_of (m p)))
       | inl _ => []
       end.
Proof.
  unfold bind, trace_of, value_of, page_of.
  destruct (m p) as [[[e|a] p1] t1]; cbn [fst snd].
  - now rewrite app_nil_r.
  - now destruct (f a p1) as [[r p2] t2].
Qed.

Lemma bind_value {A B} (m : Eff A) (f : A -> Eff B) (p : Page) :
  value_of (bind m f p)
  = match value_of (m p) with
    | inr a => value_of (f a (page_of (m p)))
    | inl e => inl e
    end.
Proof.
  unfold bind, trace_of, value_of, page_of.
  destruct (m p) as [[[e|a] p1] t1]; cbn [fst snd]; [reflexivity|].
  now destruct (f a p1) as [[r p2] t2].
Qed.

Lemma capped_bind {A B} (a1 w1 a2 w2 : nat) (m : Eff A) (f : A -> Eff B) :
  capped a1 w1 m -> (forall x, capped a2 w2 (f x)) ->
  capped (a1 + a2) (w1 + w2) (bind m f).
Proof.
  intros Hm Hf p. rewrite bind_trace, activations_app, rounds_app.
  destruct (Hm p) as [M1 M2].
  destruct (value_of (m p)) as [e|x].
  - cbn. lia.
  - destruct (Hf x (page_of (m p))). lia.
Qed.

Lemma capped_weaken {A} (a w a' w' : nat) (m : Eff A) :
  a <= a' -> w <= w' -> capped a w m -> capped a' w' m.
Proof. intros Ha Hw H p. destruct (H p). lia. Qed.

Lemma capped_ret {A} (x : A) : capped 0 0 (ret x : Eff A).
Proof. intros p. cbn. lia. Qed.

Lemma capped_throw {A} (e : exn) : capped 0 0 (throw e : Eff A).
Proof. intros p. cbn. lia. Qed.

Lemma capped_peek {A} (f : Page -> A) : capped 0 0 (peek f : Eff A).
Proof. intros p. cbn. lia. Qed.

Lemma capped_act (ev : event) (f : Page -> Page) :
  capped (if is_click ev then 1 else 0) (if is_wheel ev then 1 else 0)
    (act ev f : Eff unit).
Proof.
  intros p. unfold act, trace_of, activations, rounds. cbn [snd filter].
  destruct (is_click ev), (is_wheel ev); cbn; lia.
Qed.

Lemma capped_attempt (ev : event) (f : Page -> Page * option exn) :
  capped (if is_click ev then 1 else 0) (if is_wheel ev then 1 else 0)
    (attempt ev f).
Proof.
  intros p. unfold attempt, trace_of, activations, rounds.
  destruct (f p) as [p1 [e|]]; cbn [snd filter];
    destruct (is_click ev), (is_wheel ev); cbn; lia.
Qed.

Lemma scrolled_zero {A} (m : Eff A) : scrolled 0 m.
Proof. intros p a _. lia. Qed.

Lemma scrolled_bind {A B} (w1 w2 : nat) (m : Eff A) (f : A -> Eff B) :
  scrolled w1 m -> (forall x, scrolled w2 (f x)) ->
  scrolled (w1 + w2) (bind m f).
Proof.
  intros Hm Hf p b. rewrite bind_value, bind_trace, rounds_app.
  specialize (Hm p). destruct (value_of (m p)) as [e|x]; [discriminate|].
  intros H. specialize (Hm x eq_refl). specialize (Hf x _ _ H). lia.
Qed.

Lemma scrolled_attempt (f : Page -> Page * option exn) (dy : N) :
  scrolled 1 (attempt (Wheel dy) f).
Proof.
  intros p a _. unfold attempt, trace_of.
  destruct (f p) as [p1 [e|]]; cbn; lia.
Qed.

Lemma bind_page {A B} (m : Eff A) (f : A -> Eff B) (p : Page) :
  page_of (bind m f p)
  = match value_of (m p) with
    | inr a => page_of (f a (page_of (m p)))
    | inl _ => page_of (m p)
    end.
Proof.
  unfold bind, trace_of, value_of, page_of.
  destruct (m p) as [[[e|a] p1] t1]; cbn [fst snd]; [reflexivity|].
  now destruct (f a p1) as [[r p2] t2].
Qed.

Lemma attempt_run (ev : event) (f : Page -> Page * option exn) (p : Page) :
  attempt ev f p
  = (match snd (f p) with Some e => inl e | None => inr tt end,
     fst (f p), [ev]).
Proof. unfold attempt. now destruct (f p) as [p1 [e|]]. Qed.

(** *** From one page to the next *)

Lemma hoare_ret {A} (Pre : Page -> Prop) (a : A) (Post : A -> Page -> Prop) :
  (forall p, Pre p -> Post a p) -> hoare Pre (ret a : Eff A) Post.
Proof. intros H p Hp b E. injection E as <-. now apply H. Qed.

Lemma hoare_bind {A B} (Pre : Page -> Prop) (Mid : A -> Page -> Prop)
    (Post : B -> Page -> Prop) (m : Eff A) (f : A -> Eff B) :
  hoare Pre m Mid -> (forall a, hoare (Mid a) (f a) Post) ->
  hoare Pre (bind m f) Post.
Proof.
  intros Hm Hf p Hp b. rewrite bind_value, bind_page. specialize (Hm p Hp).
  destruct (value_of (m p)) as [e|a]; [discriminate|].
  apply Hf. now apply Hm.
Qed.

Lemma hoare_after {A B} (Pre : Page -> Prop) (Post : B -> Page -> Prop)
    (m : Eff A) (f : A -> Eff B) :
  (forall a, hoare anywhere (f a) Post) -> hoare Pre (bind m f) Post.
Proof.
  intros Hf p Hp b. rewrite bind_value, bind_page.
  destruct (value_of (m p)) as [e|a]; [discriminate|].
  now apply Hf.
Qed.

Lemma hoare_peek {A} (Q : Page -> Prop) (f : Page -> A) :
  hoare Q (peek f : Eff A) (fun _ => Q).
Proof. intros p Hp a _. exact Hp. Qed.

End WithPage.

Section WithListing.
Local Open Scope scraper_scope.
Context {Page exn : Type} {accessor : Accessor Page exn}
        {listing : Listing Page exn}.
Local Abbreviation Eff := (M Page exn).

Lemma capped_read {A} (f : Page -> exn + A) : capped 0 0 (read f).
Proof.
  unfold read. apply (capped_bind (a1 := 0) (w1 := 0) (a2 := 0) (w2 := 0)).
  - apply capped_peek.
  - intros [e|v]; [apply capped_throw | apply capped_ret].
Qed.

Lemma capped_collectStep (c : JsMap.t DiscussionSummary.t) :
  capped 0 0 (collectStep c).
Proof.
  unfold collectStep.
  apply (capped_bind (a1 := 0) (w1 := 0) (a2 := 0) (w2 := 0)).
  - apply capped_read.
  - intros x. apply capped_ret.
Qed.

Lemma capped_delay (d : duration) : capped 0 0 (delay d).
Proof. apply (capped_act (Delay d)). Qed.

Lemma capped_loadMoreLoop (budget : nat) :
  forall c, capped budget 0 (loadMoreLoop budget c).
Proof.
  induction budget as [|b IH]; intros c; cbn [loadMoreLoop].
  - apply capped_ret.
  - apply (capped_bind (a1 := 0) (w1 := 0) (a2 := S b) (w2 := 0));
      [apply capped_peek|].
    intros v. destruct (negb v).
    + eapply capped_weaken; [| |apply capped_ret]; lia.
    + apply (capped_bind (a1 := 1) (w1 := 0) (a2 := b) (w2 := 0));
        [apply (capped_attempt (Click loadMoreSelector 0))|].
      intros _.
      apply (capped_bind (a1 := 0) (w1 := 0) (a2 := b) (w2 := 0));
        [apply capped_delay|].
      intros _.
      apply (capped_bind (a1 := 0) (w1 := 0) (a2 := b) (w2 := 0));
        [apply capped_collectStep|].
      intros c'. apply IH.
Qed.

Lemma capped_scrollLoop (budget : nat) :
  forall c, capped 0 budget (scrollLoop budget c).
Proof.
  induction budget as [|b IH]; intros c; cbn [scrollLoop].
  - apply capped_ret.
  - apply (capped_bind (a1 := 0) (w1 := 0) (a2 := 0) (w2 := S b));
      [apply capped_read|].
    intros prev.
    apply (capped_bind (a1 := 0) (w1 := 1) (a2 := 0) (w2 := b));
      [apply (capped_attempt (Wheel 2000%N))|].
    intros _.
    apply (capped_bind (a1 := 0) (w1 := 0) (a2 := 0) (w2 := b));
      [apply capped_delay|].
    intros _.
    apply (capped_bind (a1 := 0) (w1 := 0) (a2 := 0) (w2 := b));
      [apply capped_read|].
    intros next.
    apply (capped_bind (a1 := 0) (w1 := 0) (a2 := 0) (w2 := b));
      [apply capped_collectStep|].
    intros c'. destruct (next <=? prev)%N.
    + eapply capped_weaken; [| |apply capped_ret]; lia.
    + apply IH.
Qed.

Lemma scrolled_scrollLoop (budget : nat) (c : JsMap.t DiscussionSummary.t) :
  scrolled 1 (scrollLoop (S budget) c).
Proof.
  cbn [scrollLoop].
  apply (scrolled_bind (w1 := 0) (w2 := 1)); [apply scrolled_zero|].
  intros prev.
  apply (scrolled_bind (w1 := 1) (w2 := 0)); [apply scrolled_attempt|].
  intros _. apply scrolled_zero.
Qed.

(** *** The store only grows *)

Lemma grown_app (c : JsMap.t DiscussionSummary.t)
    (s1 s2 : list (list DiscussionSummary.t)) :
  grown (grown c s1) s2 = grown c (s1 ++ s2).
Proof. unfold grown. now rewrite fold_left_app. Qed.

Lemma extends_ret (c : JsMap.t DiscussionSummary.t) :
  extends c (ret c : Eff _).
Proof. intros p c' H. injection H as <-. exists []. now split. Qed.

Lemma extends_bind (c : JsMap.t DiscussionSummary.t)
    (m : Eff (JsMap.t DiscussionSummary.t))
    (f : JsMap.t DiscussionSummary.t -> Eff (JsMap.t DiscussionSummary.t)) :
  extends c m -> (forall c1, extends c1 (f c1)) -> extends c (bind m f).
Proof.
  intros Hm Hf p c2. rewrite bind_value. specialize (Hm p).
  destruct (value_of (m p)) as [e|c1]; [discriminate|]. intros H.
  destruct (Hm c1 eq_refl) as (s1 & -> & F1).
  destruct (Hf _ _ _ H) as (s2 & -> & F2). exists (s1 ++ s2).
  split; [apply grown_app | now apply Forall_app].
Qed.

Lemma extends_after {A} (c : JsMap.t DiscussionSummary.t) (m : Eff A)
    (f : A -> Eff (JsMap.t DiscussionSummary.t)) :
  (forall x, extends c (f x)) -> extends c (bind m f).
Proof.
  intros Hf p c2. rewrite bind_value.
  destruct (value_of (m p)) as [e|x]; [discriminate|]. apply Hf.
Qed.

Lemma extends_collectStep (c : JsMap.t DiscussionSummary.t) :
  extends c (collectStep c).
Proof.
  unfold collectStep. intros p c'. rewrite bind_value.
  unfold read, bind, peek, throw, ret, value_of, page_of. cbn [fst snd].
  destruct (summariesOf p) as [e|summaries] eqn:S; cbn [fst snd];
    [discriminate|].
  intros H. injection H as <-. exists [summaries].
  split; [reflexivity|]. constructor; [now exists p | constructor].
Qed.

Lemma extends_loadMoreLoop (budget : nat) :
  forall c, extends c (loadMoreLoop budget c).
Proof.
  induction budget as [|b IH]; intros c; cbn [loadMoreLoop].
  - apply extends_ret.
  - apply extends_after. intros v. destruct (negb v); [apply extends_ret|].
    apply extends_after. intros _. apply extends_after. intros _.
    apply extends_bind; [apply extends_collectStep | exact IH].
Qed.

Lemma extends_scrollLoop (budget : nat) :
  forall c, extends c (scrollLoop budget c).
Proof.
  induction budget as [|b IH]; intros c; cbn [scrollLoop].
  - apply extends_ret.
  - apply extends_after. intros prev. apply extends_after. intros _.
    apply extends_after. intros _. apply extends_after. intros next.
    apply extends_bind; [apply extends_collectStep|].
    intros c1. destruct (next <=? prev)%N; [apply extends_ret | apply IH].
Qed.

Lemma extends_tryLoadMoreAndScroll (c : JsMap.t DiscussionSummary.t) :
  extends c (tryLoadMoreAndScroll c).
Proof.
  unfold tryLoadMoreAndScroll.
  apply extends_bind; [apply extends_loadMoreLoop|].
  intros c1. apply extends_scrollLoop.
Qed.

Lemma extends_opt_ret (c : JsMap.t DiscussionSummary.t) :
  extends_opt c (ret (Some c) : Eff _).
Proof. intros p c' H. injection H as <-. exists []. now split. Qed.

Lemma extends_opt_after {A} (c : JsMap.t DiscussionSummary.t) (m : Eff A)
    (f : A -> Eff (option (JsMap.t DiscussionSummary.t))) :
  (forall x, extends_opt c (f x)) -> extends_opt c (bind m f).
Proof.
  intros Hf p c2. rewrite bind_value.
  destruct (value_of (m p)) as [e|x]; [discriminate|]. apply Hf.
Qed.

Lemma extends_opt_bind (c : JsMap.t DiscussionSummary.t)
    (m : Eff (JsMap.t DiscussionSummary.t))
    (f : JsMap.t DiscussionSummary.t
         -> Eff (option (JsMap.t DiscussionSummary.t))) :
  extends c m -> (forall c1, extends_opt c1 (f c1)) ->
  extends_opt c (bind m f).
Proof.
  intros Hm Hf p c2. rewrite bind_value. specialize (Hm p).
  destruct (value_of (m p)) as [e|c1]; [discriminate|]. intros H.
  destruct (Hm c1 eq_refl) as (s1 & -> & F1).
  destruct (Hf _ _ _ H) as (s2 & -> & F2). exists (s1 ++ s2).
  split; [apply grown_app | now apply Forall_app].
Qed.

Lemma extends_pages (fuel : nat) :
  forall current visitedPages c,
    extends_opt c (pages fuel current visitedPages c).
Proof.
  induction fuel as [|f IH]; intros current vis c;
    destruct current as [u|]; cbn [pages]; try apply extends_opt_ret;
    destruct (negb (truthy u)); try apply extends_opt_ret;
    destruct (has vis u); try apply extends_opt_ret.
  - intros p c' H. discriminate.
  - apply extends_opt_after. intros _. apply extends_opt_after. intros _.
    apply extends_opt_bind; [apply extends_collectStep|]. intros c1.
    apply extends_opt_bind; [apply extends_tryLoadMoreAndScroll|]. intros c2.
    apply extends_opt_after. intros [h|]; [|apply IH].
    destruct (truthy h); [|apply IH].
    apply extends_opt_after. intros next. apply IH.
Qed.

(** *** Listing pages are visited once *)

Lemma visited_stays {A} (m : Eff A) (p : Page) :
  stays m -> visited (trace_of (m p)) = [].
Proof.
  intros H. specialize (H p). induction (trace_of (m p)) as [|ev t IH];
    [reflexivity|].
  cbn [forallb] in H. apply andb_true_iff in H. destruct H as [Hev Ht].
  cbn [visited flat_map]. fold (visited t). rewrite (IH Ht).
  now destruct ev.
Qed.

Lemma visited_bind_stays {A B} (m : Eff A) (f : A -> Eff B) (p : Page) :
  stays m ->
  visited (trace_of (bind m f p))
  = match value_of (m p) with
    | inr a => visited (trace_of (f a (page_of (m p))))
    | inl _ => []
    end.
Proof.
  intros H. rewrite bind_trace, visited_app, (visited_stays _ H).
  now destruct (value_of (m p)).
Qed.

Lemma stays_read {A} (f : Page -> exn + A) : stays (read f).
Proof.
  unfold read. apply emits_bind; [apply emits_peek|].
  intros [e|v]; [apply emits_throw | apply emits_ret].
Qed.

Lemma stays_collectStep (c : JsMap.t DiscussionSummary.t) :
  stays (collectStep c).
Proof.
  unfold collectStep. apply emits_bind; [apply stays_read|].
  intros x. apply emits_ret.
Qed.

Lemma stays_delay (d : duration) : stays (delay d).
Proof. now apply emits_act. Qed.

Lemma stays_loadMoreLoop (budget : nat) :
  forall c, stays (loadMoreLoop budget c).
Proof.
  induction budget as [|b IH]; intros c; cbn [loadMoreLoop].
  - apply emits_ret.
  - apply emits_bind; [apply emits_peek|]. intros v.
    destruct (negb v); [apply emits_ret|].
    apply emits_bind; [now apply emits_attempt|]. intros _.
    apply emits_bind; [apply stays_delay|]. intros _.
    apply emits_bind; [apply stays_collectStep|]. exact IH.
Qed.

Lemma stays_scrollLoop (budget : nat) :
  forall c, stays (scrollLoop budget c).
Proof.
  induction budget as [|b IH]; intros c; cbn [scrollLoop].
  - apply emits_ret.
  - apply emits_bind; [apply stays_read|]. intros prev.
    apply emits_bind; [now apply emits_attempt|]. intros _.
    apply emits_bind; [apply stays_delay|]. intros _.
    apply emits_bind; [apply stays_read|]. intros next.
    apply emits_bind; [apply stays_collectStep|]. intros c1.
    destruct (next <=? prev)%N; [apply emits_ret | apply IH].
Qed.

Lemma stays_tryLoadMoreAndScroll (c : JsMap.t DiscussionSummary.t) :
  stays (tryLoadMoreAndScroll c).
Proof.
  unfold tryLoadMoreAndScroll.
  apply emits_bind; [apply stays_loadMoreLoop|]. apply stays_scrollLoop.
Qed.

Lemma has_true (set : list jsstring) (x : jsstring) :
  has set x = true <-> In x set.
Proof.
  unfold has. rewrite existsb_exists. split.
  - intros (y & Hy & E). apply eqb_eq in E. now subst.
  - intros H. exists x. split; [exact H | apply eqb_refl].
Qed.

Lemma has_false (set : list jsstring) (x : jsstring) :
  has set x = false <-> ~ In x set.
Proof.
  rewrite <- has_true. destruct (has set x); split; congruence.
Qed.

Lemma add_fresh (set : list jsstring) (u : jsstring) :
  has set u = false -> add set u = set ++ [u].
Proof. intros H. unfold add. now rewrite H. Qed.

Lemma attempt_trace (ev : event) (f : Page -> Page * option exn) (p : Page) :
  trace_of (attempt ev f p) = [ev].
Proof. unfold attempt, trace_of. now destruct (f p) as [p1 [e|]]. Qed.

Lemma visited_stays_eq {A} (m : Eff A) (p : Page) (r : exn + A) (p1 : Page)
    (t : list event) :
  stays m -> m p = (r, p1, t) -> visited t = [].
Proof.
  intros H E. pose proof (visited_stays p H) as V.
  unfold trace_of in V. now rewrite E in V.
Qed.

(** A turn throws, or hands over to what follows at a page. *)
Lemma turn_run (u : jsstring) (c : JsMap.t DiscussionSummary.t) (p : Page) :
  (exists e p' t,
     visited t = [u]
     /\ forall R (k : option jsstring -> JsMap.t DiscussionSummary.t -> Eff R),
          turn k u c p = (inl e, p', t))
  \/ (exists next c2 p' t,
        leads u next
        /\ visited t = [u]
        /\ forall R (k : option jsstring -> JsMap.t DiscussionSummary.t -> Eff R),
             turn k u c p
             = (value_of (k next c2 p'), page_of (k next c2 p'),
                t ++ trace_of (k next c2 p'))).
Proof.
  destruct (gotoIdle u p) as [p1 oe] eqn:G.
  assert (A0 : attempt (Goto u) (gotoIdle u) p
               = (match oe with Some e => inl e | None => inr tt end,
                  p1, [Goto u])).
  { unfold attempt. rewrite G. now destruct oe. }
  destruct oe as [e|].
  { left. exists e, p1, [Goto u]. split; [reflexivity|].
    intros R k. unfold turn. now erewrite bind_inl by exact A0. }
  destruct (collectStep c (waitForItems p1)) as [[r1 p3] t3] eqn:S1.
  pose proof (visited_stays_eq _ (stays_collectStep c) S1) as V3.
  destruct r1 as [e|c1].
  { left. exists e, p3, ([Goto u] ++ [WaitForSelector] ++ t3). split.
    - rewrite !visited_app, V3. reflexivity.
    - intros R k. unfold turn. erewrite bind_inr by exact A0.
      erewrite bind_inr by reflexivity. cbn [value_of page_of trace_of fst snd].
      now erewrite bind_inl by exact S1. }
  destruct (tryLoadMoreAndScroll c1 p3) as [[r2 p4] t4] eqn:S2.
  pose proof (visited_stays_eq _ (stays_tryLoadMoreAndScroll c1) S2) as V4.
  destruct r2 as [e|c2].
  { left. exists e, p4, ([Goto u] ++ [WaitForSelector] ++ t3 ++ t4). split.
    - rewrite !visited_app, V3, V4. reflexivity.
    - intros R k. unfold turn. erewrite bind_inr by exact A0.
      erewrite bind_inr by reflexivity. cbn [value_of page_of trace_of fst snd].
      erewrite bind_inr by exact S1. cbn [value_of page_of trace_of fst snd].
      now erewrite bind_inl by exact S2. }
  assert (T : forall R (k : option jsstring -> JsMap.t DiscussionSummary.t -> Eff R)
                     (tail : Eff R),
             (match nextHref p4 with
              | Some h =>
                  if truthy h then
                    bind (read (fun _ => resolve h u))
                      (fun next => k (Some next) c2)
                  else k None c2
              | None => k None c2
              end) = tail ->
             turn k u c p
             = (value_of (tail p4), page_of (tail p4),
                ([Goto u] ++ [WaitForSelector] ++ t3 ++ t4) ++ trace_of (tail p4))).
  { intros R k tail <-. unfold turn. erewrite bind_inr by exact A0.
    erewrite bind_inr by reflexivity. cbn [value_of page_of trace_of fst snd].
    erewrite bind_inr by exact S1. cbn [value_of page_of trace_of fst snd].
    erewrite bind_inr by exact S2. cbn [value_of page_of trace_of fst snd].
    erewrite bind_inr by reflexivity. cbn [value_of page_of trace_of fst snd].
    cbn [app]. now rewrite <- !app_assoc. }
  assert (V : visited ([Goto u] ++ [WaitForSelector] ++ t3 ++ t4) = [u]).
  { rewrite !visited_app, V3, V4. reflexivity. }
  destruct (nextHref p4) as [h|] eqn:Hh.
  - destruct (truthy h) eqn:Th.
    + destruct (resolve h u) as [e|n] eqn:Rs.
      * left. exists e, p4, ([Goto u] ++ [WaitForSelector] ++ t3 ++ t4).
        split; [exact V|]. intros R k.
        rewrite (T R k _ eq_refl).
        unfold read, bind, peek, throw, value_of, page_of, trace_of.
        cbn [fst snd app]. now rewrite !app_nil_r.
      * right. exists (Some n), c2, p4,
          ([Goto u] ++ [WaitForSelector] ++ t3 ++ t4).
        split; [now exists p4, h|]. split; [exact V|].
        intros R k. rewrite (T R k _ eq_refl).
        unfold read, bind, peek, ret, value_of, page_of, trace_of.
        cbn [fst snd app].
        now destruct (k (Some n) c2 p4) as [[r q] t].
    + right. exists None, c2, p4, ([Goto u] ++ [WaitForSelector] ++ t3 ++ t4).
      split; [exact I|]. split; [exact V|].
      intros R k. apply (T R k _ eq_refl).
  - right. exists None, c2, p4, ([Goto u] ++ [WaitForSelector] ++ t3 ++ t4).
    split; [exact I|]. split; [exact V|].
    intros R k. apply (T R k _ eq_refl).
Qed.

Lemma pages_turn (fuel : nat) (u : jsstring) (vis : list jsstring)
    (c : JsMap.t DiscussionSummary.t) :
  truthy u = true -> has vis u = false ->
  pages (S fuel) (Some u) vis c
  = turn (fun next c2 => pages fuel next (add vis u) c2) u c.
Proof. intros H1 H2. cbn [pages]. now rewrite H1, H2. Qed.

Lemma pages_stop (fuel : nat) (current : option jsstring)
    (vis : list jsstring) (c : JsMap.t DiscussionSummary.t) :
  match current with
  | Some u => truthy u && negb (has vis u)
  | None => false
  end = false ->
  pages fuel current vis c = ret (Some c).
Proof.
  destruct current as [u|]; [|now destruct fuel].
  intros H. destruct fuel; cbn [pages];
    destruct (truthy u); cbn [negb]; try reflexivity;
    destruct (has vis u); try reflexivity; discriminate.
Qed.

Lemma pages_visited (fuel : nat) :
  forall current vis c p,
    NoDup (visited (trace_of (pages fuel current vis c p)))
    /\ (forall x, In x (visited (trace_of (pages fuel current vis c p))) ->
                  ~ In x vis).
Proof.
  assert (Z : forall vis, NoDup (@nil jsstring)
                          /\ (forall x, In x (@nil jsstring) -> ~ In x vis)).
  { split; [constructor | intros x []]. }
  induction fuel as [|f IH]; intros current vis c p.
  - destruct current as [u|]; cbn [pages]; [|apply Z].
    destruct (negb (truthy u)); [apply Z|].
    destruct (has vis u); apply Z.
  - destruct (match current with
              | Some u => truthy u && negb (has vis u)
              | None => false
              end) eqn:W.
    + destruct current as [u|]; [|discriminate].
      apply andb_true_iff in W. destruct W as [W1 W2].
      apply negb_true_iff in W2. rewrite pages_turn by assumption.
      pose proof W2 as Hu. apply has_false in Hu.
      destruct (turn_run u c p)
        as [(e & p' & t & V & E)|(next & c2 & p' & t & _ & V & E)];
        rewrite E; unfold trace_of; cbn [snd].
      * rewrite V. split; [repeat constructor; intros []|].
        intros x [<-|[]]. exact Hu.
      * fold (trace_of (pages f next (add vis u) c2 p')).
        rewrite visited_app, V. cbn [app].
        pose proof (IH next (add vis u) c2 p') as NK.
        rewrite add_fresh in NK by exact W2.
        rewrite add_fresh by exact W2. destruct NK as [N K].
        split.
        -- constructor; [|exact N]. intros J. apply (K _ J).
           apply in_or_app. right. now left.
        -- intros x [<-|J]; [exact Hu|]. intros Vx. apply (K _ J).
           apply in_or_app. now left.
    + rewrite pages_stop by exact W. apply Z.
Qed.

(** *** Enough fuel *)

Lemma pages_fuel_enough (site : list jsstring) :
  within site ->
  forall fuel current vis c p,
    NoDup vis -> incl vis site ->
    (forall u, current = Some u -> In u site) ->
    length site <= fuel + length vis ->
    value_of (pages fuel current vis c p) <> inr None.
Proof.
  intros Hsite. induction fuel as [|f IH]; intros current vis c p N I Hc L.
  - destruct current as [u|]; cbn [pages]; [|discriminate].
    destruct (negb (truthy u)); [discriminate|].
    destruct (has vis u) eqn:Hu; [discriminate|]. exfalso.
    apply has_false in Hu.
    assert (K : length (u :: vis) <= length site).
    { apply NoDup_incl_length; [now constructor|].
      intros x [<-|Hx]; [now apply Hc | now apply I]. }
    simpl in K, L. lia.
  - destruct (match current with
              | Some u => truthy u && negb (has vis u)
              | None => false
              end) eqn:W.
    + destruct current as [u|]; [|discriminate].
      apply andb_true_iff in W. destruct W as [W1 W2].
      apply negb_true_iff in W2. rewrite pages_turn by assumption.
      pose proof W2 as Hu. apply has_false in Hu.
      destruct (turn_run u c p)
        as [(e & p' & t & V & E)|(next & c2 & p' & t & Hn & V & E)];
        rewrite E; unfold value_of; cbn [fst]; [discriminate|].
      fold (value_of (pages f next (add vis u) c2 p')).
      rewrite add_fresh by exact W2.
      apply IH.
      * apply NoDup_app; [exact N | repeat constructor; intros []|].
        intros x Hx [<-|[]]. now apply Hu.
      * intros x Hx. apply in_app_or in Hx.
        destruct Hx as [Hx|[<-|[]]]; [now apply I | now apply Hc].
      * intros n ->. destruct Hn as (q & h & Hq & Hh).
        apply (Hsite q h u n Hq (Hc u eq_refl) Hh).
      * rewrite length_app. simpl. lia.
    + rewrite pages_stop by exact W. discriminate.
Qed.

(** A run that did not run out of fuel is the same with more fuel. *)
Lemma pages_fuel_more (fuel : nat) :
  forall current vis c p,
    value_of (pages fuel current vis c p) <> inr None ->
    pages (S fuel) current vis c p = pages fuel current vis c p.
Proof.
  induction fuel as [|f IH]; intros current vis c p H.
  - destruct (match current with
              | Some u => truthy u && negb (has vis u)
              | None => false
              end) eqn:W.
    + exfalso. apply H. destruct current as [u|]; [|discriminate].
      apply andb_true_iff in W. destruct W as [W1 W2].
      apply negb_true_iff in W2. cbn [pages]. now rewrite W1, W2.
    + now rewrite !pages_stop by exact W.
  - destruct (match current with
              | Some u => truthy u && negb (has vis u)
              | None => false
              end) eqn:W.
    + destruct current as [u|]; [|discriminate].
      apply andb_true_iff in W. destruct W as [W1 W2].
      apply negb_true_iff in W2.
      rewrite (pages_turn (S f)), (pages_turn f) in * by assumption.
      destruct (turn_run u c p)
        as [(e & p' & t & V & E)|(next & c2 & p' & t & _ & V & E)].
      * now rewrite !E.
      * rewrite E in H. rewrite !E. unfold value_of in H. cbn [fst] in H.
        fold (value_of (pages f next (add vis u) c2 p')) in H.
        now rewrite (IH _ _ _ _ H).
    + now rewrite !pages_stop by exact W.
Qed.

Lemma pages_fuel_plus (k fuel : nat) (current : option jsstring)
    (vis : list jsstring) (c : JsMap.t DiscussionSummary.t) (p : Page) :
  value_of (pages fuel current vis c p) <> inr None ->
  pages (k + fuel) current vis c p = pages fuel current vis c p.
Proof.
  intros H. induction k as [|k IH]; [reflexivity|].
  cbn [Nat.add]. rewrite pages_fuel_more; [exact IH|]. now rewrite IH.
Qed.

(** *** The store holds what the page shows *)

Lemma hoare_read {A} (Q : Page -> Prop) (f : Page -> exn + A) :
  hoare Q (read f) (fun _ => Q).
Proof.
  intros p Hp a. unfold read, bind, peek, throw, ret, value_of, page_of.
  now destruct (f p).
Qed.

Lemma firstSighting_found (rows : list DiscussionSummary.t)
    (d : DiscussionSummary.t) :
  In d rows -> firstSighting (DiscussionSummary.url d) rows <> None.
Proof.
  intros I N. unfold firstSighting in N.
  eapply find_none in N; [|exact I]. cbv beta in N.
  now rewrite eqb_refl in N.
Qed.

Lemma holds_collect (rows : list DiscussionSummary.t)
    (c : JsMap.t DiscussionSummary.t) :
  holds (collectFromCurrentPage rows c) rows.
Proof.
  intros d I T. unfold JsMap.has.
  rewrite CrawlFacts.collect_fold, CrawlFacts.get_fold_sight, T.
  destruct (JsMap.get c (DiscussionSummary.url d)); [reflexivity|].
  pose proof (firstSighting_found rows d I) as F.
  now destruct (firstSighting (DiscussionSummary.url d) rows).
Qed.

Lemma hoare_collectStep (c : JsMap.t DiscussionSummary.t) :
  hoare anywhere (collectStep c) shows.
Proof.
  intros p _ c'. unfold collectStep, read, bind, peek, throw, ret,
    value_of, page_of, shows.
  destruct (summariesOf p) as [e|rows] eqn:S; cbn [fst snd]; [discriminate|].
  intros H. injection H as <-. exists rows. split; [exact S|].
  apply holds_collect.
Qed.

Lemma hoare_scrollLoop (budget : nat) :
  forall c, hoare (shows c) (scrollLoop budget c) shows.
Proof.
  induction budget as [|b IH]; intros c; cbn [scrollLoop].
  - apply hoare_ret. auto.
  - apply hoare_after. intros prev. apply hoare_after. intros _.
    apply hoare_after. intros _. apply hoare_after. intros next.
    eapply hoare_bind; [apply hoare_collectStep|]. intros c1.
    destruct (next <=? prev)%N; [apply hoare_ret; auto | apply IH].
Qed.

(** The scroll loop collects at least once, after its last scroll. *)
Lemma hoare_scrollLoop_S (budget : nat) (c : JsMap.t DiscussionSummary.t) :
  hoare anywhere (scrollLoop (S budget) c) shows.
Proof.
  cbn [scrollLoop].
  apply hoare_after. intros prev. apply hoare_after. intros _.
  apply hoare_after. intros _. apply hoare_after. intros next.
  eapply hoare_bind; [apply hoare_collectStep|]. intros c1.
  destruct (next <=? prev)%N; [apply hoare_ret; auto | apply hoare_scrollLoop].
Qed.

Lemma hoare_tryLoadMoreAndScroll (c : JsMap.t DiscussionSummary.t) :
  hoare anywhere (tryLoadMoreAndScroll c) shows.
Proof.
  unfold tryLoadMoreAndScroll. apply hoare_after. intros c1.
  apply hoare_scrollLoop_S.
Qed.

Lemma hoare_pages (fuel : nat) :
  forall current vis c,
    hoare (shows c) (pages fuel current vis c) shows_opt.
Proof.
  induction fuel as [|f IH]; intros current vis c;
    destruct current as [u|]; cbn [pages];
    try (apply hoare_ret; now auto);
    destruct (negb (truthy u)); try (apply hoare_ret; now auto);
    destruct (has vis u); try (apply hoare_ret; now auto).
  apply hoare_after. intros _. apply hoare_after. intros _.
  apply hoare_after. intros c1.
  eapply hoare_bind; [apply hoare_tryLoadMoreAndScroll|]. intros c2.
  eapply hoare_bind; [apply hoare_peek|]. intros [h|]; [|apply IH].
  destruct (truthy h); [|apply IH].
  eapply hoare_bind; [apply hoare_read|]. intros next. apply IH.
Qed.

(** After a turn the store holds the rows of the page, whatever it held
    before. *)
Lemma hoare_pages_turn (fuel : nat) (u : jsstring) (vis : list jsstring)
    (c : JsMap.t DiscussionSummary.t) :
  truthy u = true -> has vis u = false ->
  hoare anywhere (pages fuel (Some u) vis c) shows_opt.
Proof.
  intros T H. destruct fuel as [|f]; cbn [pages]; rewrite T, H; cbn [negb].
  - apply hoare_ret. intros p _. exact I.
  - apply hoare_after. intros _. apply hoare_after. intros _.
    apply hoare_after. intros c1.
    eapply hoare_bind; [apply hoare_tryLoadMoreAndScroll|]. intros c2.
    eapply hoare_bind; [apply hoare_peek|]. intros [h|]; [|apply hoare_pages].
    destruct (truthy h); [|apply hoare_pages].
    eapply hoare_bind; [apply hoare_read|]. intros next. apply hoare_pages.
Qed.

Lemma grown_crawl (rows : list DiscussionSummary.t)
    (rest : list (list DiscussionSummary.t)) :
  grown (collectFromCurrentPage rows (JsMap.empty DiscussionSummary.t)) rest
  = crawl (rows :: rest).
Proof. reflexivity. Qed.

(** The first sighting of a crawl is the rows of the first page. *)
Lemma pages_first_sighting (fuel : nat) (topicUrl : jsstring) (p : Page)
    (collected : JsMap.t DiscussionSummary.t) :
  truthy topicUrl = true ->
  value_of (pages fuel (Some topicUrl) [] (JsMap.empty DiscussionSummary.t) p)
  = inr (Some collected) ->
  exists rows rest,
    summariesOf (waitForItems (fst (gotoIdle topicUrl p))) = inr rows
    /\ collected = crawl (rows :: rest)
    /\ Forall sighted rest.
Proof.
  intros T H. destruct fuel as [|f]; cbn [pages] in H; rewrite T in H;
    cbn [negb has existsb] in H; [discriminate|].
  rewrite bind_value, attempt_run in H.
  unfold value_of at 1, page_of at 1 in H. cbn [fst snd] in H.
  destruct (snd (gotoIdle topicUrl p)); [discriminate|].
  rewrite bind_value in H.
  unfold act at 1 2, value_of at 1, page_of at 1 in H. cbn [fst snd] in H.
  set (p2 := waitForItems (fst (gotoIdle topicUrl p))) in *.
  rewrite bind_value in H.
  assert (C : collectStep (JsMap.empty DiscussionSummary.t) p2
              = match summariesOf p2 with
                | inl e => (inl e, p2, [])
                | inr rows =>
                    (inr (collectFromCurrentPage rows
                            (JsMap.empty DiscussionSummary.t)), p2, [])
                end).
  { unfold collectStep, read, bind, peek, throw, ret.
    now destruct (summariesOf p2). }
  rewrite C in H. destruct (summariesOf p2) as [e|rows]; [discriminate|].
  unfold value_of at 1, page_of at 1 in H. cbn [fst snd] in H.
  exists rows.
  assert (X : extends_opt
                (collectFromCurrentPage rows (JsMap.empty DiscussionSummary.t))
                (bind (tryLoadMoreAndScroll
                         (collectFromCurrentPage rows
                            (JsMap.empty DiscussionSummary.t)))
                   (fun c2 =>
                      bind (peek nextHref)
                        (fun href =>
                           match href with
                           | Some h =>
                               if truthy h then
                                 bind (read (fun _ => resolve h topicUrl))
                                   (fun next =>
                                      pages f (Some next) (add [] topicUrl) c2)
                               else pages f None (add [] topicUrl) c2
                           | None => pages f None (add [] topicUrl) c2
                           end)))).
  { apply extends_opt_bind; [apply extends_tryLoadMoreAndScroll|]. intros c2.
    apply extends_opt_after. intros [h|]; [|apply extends_pages].
    destruct (truthy h); [|apply extends_pages].
    apply extends_opt_after. intros next. apply extends_pages. }
  destruct (X p2 collected H) as (rest & -> & F).
  exists rest. split; [reflexivity|]. split; [apply grown_crawl | exact F].
Qed.

(** *** The driver loop, outcome by outcome *)

Lemma scrapeEach_outcomes (ds : list DiscussionSummary.t) :
  forall (allDetails : list DiscussionDetail.t) (p : Page),
    value_of (scrapeEach ds allDetails p)
    = inr (allDetails ++ pushed (outcomes ds p))
    /\ failures (trace_of (scrapeEach ds allDetails p))
       = omitted ds (outcomes ds p)
    /\ length (outcomes ds p) = length ds.
Proof.
  induction ds as [|d ds IH]; intros allDetails p.
  - cbn. rewrite app_nil_r. repeat split.
  - pose proof (DriverFacts.scrapeOne_run d allDetails p) as R. cbv zeta in R.
    pose proof (DriverFacts.scrapeDiscussionDetail_trace
                  (DiscussionSummary.url d)
                  (sleep (Random 1000%N 3000%N) p)) as T. cbv zeta in T.
    destruct T as (_ & F & _).
    cbn [scrapeEach outcomes].
    set (o := scrapeDiscussionDetail (DiscussionSummary.url d)
                (sleep (Random 1000%N 3000%N) p)) in *.
    destruct (value_of o) as [e|full] eqn:Ho.
    + erewrite bind_inr by exact R.
      destruct (IH allDetails (sleep (Fixed 5000%N) (page_of o)))
        as (Hv & Hf & Hl).
      unfold value_of, trace_of in *. cbn [fst snd].
      change (Delay (Random 1000%N 3000%N)
                :: snd o ++ [LogError (DiscussionSummary.url d);
                             Delay (Fixed 5000%N)])
        with ([Delay (Random 1000%N 3000%N)]
                ++ snd o ++ [LogError (DiscussionSummary.url d);
                             Delay (Fixed 5000%N)]).
      rewrite !failures_app, F, Hf, Hv.
      cbn [pushed flat_map app omitted length failures]. rewrite Hl.
      repeat split.
    + erewrite bind_inr by exact R.
      destruct (IH (allDetails ++ [overwrite d full]) (page_of o))
        as (Hv & Hf & Hl).
      unfold value_of, trace_of in *. cbn [fst snd].
      change (Delay (Random 1000%N 3000%N) :: snd o)
        with ([Delay (Random 1000%N 3000%N)] ++ snd o).
      rewrite !failures_app, F, Hf, Hv.
      cbn [pushed flat_map app omitted length failures]. rewrite Hl.
      rewrite <- app_assoc. repeat split.
Qed.

End WithListing.
End CrawlerFacts.

Module CrawlerTheorems.
Import Scraper Crawler Outcome EffFacts CrawlerFacts.

Section WithListing.
Local Open Scope scraper_scope.
Context {Page exn : Type} {accessor : Accessor Page exn}
        {listing : Listing Page exn}.

(** X10. On a listing page the load-more button is clicked at most twenty
    times and the page scrolled at most twenty times; a run that returns
    has scrolled at least once; the run navigates nowhere; the store it
    returns is the store it was given grown by row lists read from the
    page, and it holds every row with a URL that the page shows when the
    run ends. *)
Theorem load_more_and_scroll_bounded (c : JsMap.t DiscussionSummary.t) :
  capped 20 20 (tryLoadMoreAndScroll c)
  /\ scrolled 1 (tryLoadMoreAndScroll c)
  /\ stays (tryLoadMoreAndScroll c)
  /\ extends c (tryLoadMoreAndScroll c)
  /\ hoare anywhere (tryLoadMoreAndScroll c) shows.
Proof.
  split; [|split; [|split; [|split]]].
  - unfold tryLoadMoreAndScroll.
    apply (capped_bind (a1 := 20) (w1 := 0) (a2 := 0) (w2 := 20)).
    + apply capped_loadMoreLoop.
    + intros c1. apply capped_scrollLoop.
  - unfold tryLoadMoreAndScroll.
    apply (scrolled_bind (w1 := 0) (w2 := 1)); [apply scrolled_zero|].
    intros c1. apply scrolled_scrollLoop.
  - apply stays_tryLoadMoreAndScroll.
  - apply extends_tryLoadMoreAndScroll.
  - apply hoare_tryLoadMoreAndScroll.
Qed.

(** X11. The page loop navigates to no listing URL twice.  When it
    returns a store for a topic URL that is not empty, the store is the
    dedup store of the rows of the first page as they are after the
    navigation and the wait, followed by further row lists read from the
    page, and it holds every row with a URL that the page shows when the
    loop ends. *)
Theorem listing_pages_once (fuel : nat) (topicUrl : jsstring) (p : Page) :
  let run := pages fuel (Some topicUrl) [] (JsMap.empty DiscussionSummary.t) p in
  NoDup (visited (trace_of run))
  /\ (forall collected,
        truthy topicUrl = true ->
        value_of run = inr (Some collected) ->
        (exists rows rest,
           summariesOf (waitForItems (fst (gotoIdle topicUrl p))) = inr rows
           /\ collected = crawl (rows :: rest)
           /\ Forall sighted rest)
        /\ shows collected (page_of run)).
Proof.
  intros run. subst run. split.
  - apply pages_visited.
  - intros collected T H. split.
    + now apply (@pages_first_sighting _ _ _ _ fuel topicUrl p).
    + apply (@hoare_pages_turn _ _ _ _ fuel topicUrl []
               (JsMap.empty DiscussionSummary.t) T eq_refl p I
               (Some collected) H).
Qed.

(** X12. On a site with finitely many listing URLs the page loop ends by
    itself: with as many turns allowed as the site has URLs it does not
    run out of them, and more turns change nothing. *)
Theorem listing_crawl_terminates (site : list jsstring) (topicUrl : jsstring) :
  within site -> In topicUrl site ->
  forall fuel p,
    length site <= fuel ->
    value_of (pages fuel (Some topicUrl) [] (JsMap.empty DiscussionSummary.t) p)
    <> inr None
    /\ pages fuel (Some topicUrl) [] (JsMap.empty DiscussionSummary.t) p
       = pages (length site) (Some topicUrl) []
           (JsMap.empty DiscussionSummary.t) p.
Proof.
  intros Hs Ht fuel p L.
  assert (E : forall n p0,
             length site <= n ->
             value_of (pages n (Some topicUrl) []
                         (JsMap.empty DiscussionSummary.t) p0) <> inr None).
  { intros n p0 Hn. apply pages_fuel_enough with (site := site).
    - exact Hs.
    - constructor.
    - intros x [].
    - intros u H. injection H as <-. exact Ht.
    - simpl. lia. }
  split; [now apply E|].
  replace fuel with ((fuel - length site) + length site) by lia.
  apply pages_fuel_plus. now apply E.
Qed.

(** X13. The whole of [scrapeDiscussionList]: a throw on a listing page is
    the throw of the run; otherwise the discussions of the store are
    opened after the listing pages, in the order of the store, each on
    the page that the one before left, and the result is the records of
    those whose extraction returned, in that order, with the views and
    likes of their summaries; each of the others is logged once. *)
Theorem scrape_list_composes (fuel : nat) (topicUrl : jsstring) (p : Page) :
  let listing_run :=
    pages fuel (Some topicUrl) [] (JsMap.empty DiscussionSummary.t) p in
  let run := scrapeDiscussionListFrom fuel topicUrl p in
  match value_of listing_run with
  | inl e => value_of run = inl e /\ trace_of run = trace_of listing_run
  | inr None => value_of run = inr None
  | inr (Some collected) =>
      let ds := JsMap.values collected in
      let os := outcomes ds (page_of listing_run) in
      value_of run = inr (Some (pushed os))
      /\ length os = length ds
      /\ visited (trace_of run)
         = visited (trace_of listing_run) ++ map DiscussionSummary.url ds
      /\ failures (trace_of run)
         = failures (trace_of listing_run) ++ omitted ds os
  end.
Proof.
  intros listing_run run. subst run. unfold scrapeDiscussionListFrom.
  rewrite bind_value, bind_trace. fold listing_run.
  destruct (value_of listing_run) as [e|[collected|]].
  - now rewrite app_nil_r.
  - cbv beta iota zeta. rewrite bind_value, bind_trace.
    unfold scrapeDiscussionList.
    set (ds := JsMap.values collected).
    destruct (DriverFacts.scrapeEach_run ds [] (page_of listing_run))
      as (os' & _ & _ & Vis & _).
    destruct (scrapeEach_outcomes ds [] (page_of listing_run))
      as (V & F & L).
    rewrite V. cbn [app].
    split; [reflexivity|]. split; [exact L|].
    rewrite !visited_app, !failures_app, Vis, F.
    cbn [trace_of ret snd visited failures flat_map].
    now rewrite !app_nil_r.
  - reflexivity.
Qed.

(** X14. A failure on a listing page is not caught: when the first
    navigation is refused, or the rows of the first page cannot be read,
    the run throws before any discussion is opened; an empty topic URL
    gives an empty result without any navigation. *)
Theorem listing_failure_aborts :
  (forall fuel p, scrapeDiscussionListFrom fuel [] p = (inr (Some []), p, []))
  /\ (forall fuel topicUrl p p1 e,
        truthy topicUrl = true ->
        gotoIdle topicUrl p = (p1, Some e) ->
        scrapeDiscussionListFrom (S fuel) topicUrl p
        = (inl e, p1, [Goto topicUrl]))
  /\ (forall fuel topicUrl p p1 e,
        truthy topicUrl = true ->
        gotoIdle topicUrl p = (p1, None) ->
        summariesOf (waitForItems p1) = inl e ->
        scrapeDiscussionListFrom (S fuel) topicUrl p
        = (inl e, waitForItems p1, [Goto topicUrl; WaitForSelector])).
Proof.
  split; [|split].
  - intros fuel p. unfold scrapeDiscussionListFrom.
    now destruct fuel.
  - intros fuel topicUrl p p1 e T G. unfold scrapeDiscussionListFrom.
    cbn [pages]. rewrite T. cbn [negb has existsb].
    unfold bind at 1. unfold bind at 1. unfold attempt. now rewrite G.
  - intros fuel topicUrl p p1 e T G S. unfold scrapeDiscussionListFrom.
    cbn [pages]. rewrite T. cbn [negb has existsb].
    unfold bind at 1. unfold bind at 1. unfold attempt. rewrite G.
    unfold bind at 1. unfold act at 1. unfold bind at 1.
    unfold collectStep, read, bind, peek, throw. now rewrite S.
Qed.

End WithListing.

#[local] Existing Instance Sample.folded.
#[local] Existing Instance Site.paged.

Lemma listing_pages_once_witness :
  truthy Site.home = true
  /\ value_of (pages 2 (Some Site.home) [] (JsMap.empty DiscussionSummary.t) 0)
     = inr (Some (crawl [Sample.firstPage; Sample.firstPage;
                         Sample.nextPage; Sample.nextPage]))
  /\ visited (trace_of (pages 2 (Some Site.home) []
                          (JsMap.empty DiscussionSummary.t) 0))
     = [Site.home; Site.second]
  /\ shows (crawl [Sample.firstPage; Sample.firstPage;
                   Sample.nextPage; Sample.nextPage])
       (page_of (pages 2 (Some Site.home) []
                   (JsMap.empty DiscussionSummary.t) 0)).
Proof.
  assert (T : truthy Site.home = true) by reflexivity.
  assert (H : value_of (pages 2 (Some Site.home) []
                          (JsMap.empty DiscussionSummary.t) 0)
              = inr (Some (crawl [Sample.firstPage; Sample.firstPage;
                                  Sample.nextPage; Sample.nextPage])))
    by (vm_compute; reflexivity).
  split; [exact T|]. split; [exact H|]. split; [vm_compute; reflexivity|].
  apply (proj2 (proj2 (listing_pages_once 2 Site.home 0) _ T H)).
Defined.

Lemma site_within : within Site.site.
Proof.
  intros q h u next Hq Hu Hr. cbn [nextHref Site.paged] in Hq.
  cbn [resolve Site.paged] in Hr.
  destruct (q =? 100).
  - injection Hq as <-.
    destruct Hu as [<-|[<-|[]]]; vm_compute in Hr; injection Hr as <-;
      [right; left; reflexivity | right; left; reflexivity].
  - destruct (q =? 200); [|discriminate]. injection Hq as <-.
    destruct Hu as [<-|[<-|[]]]; vm_compute in Hr; injection Hr as <-;
      left; reflexivity.
Defined.

Lemma listing_crawl_terminates_witness :
  In Site.home Site.site
  /\ length Site.site <= 5
  /\ pages 5 (Some Site.home) [] (JsMap.empty DiscussionSummary.t) 0
     = pages 2 (Some Site.home) [] (JsMap.empty DiscussionSummary.t) 0.
Proof.
  assert (I : In Site.home Site.site) by (simpl; tauto).
  assert (L : length Site.site <= 5) by (simpl; lia).
  split; [exact I|]. split; [exact L|].
  apply (proj2 (listing_crawl_terminates Site.home site_within I 0 L)).
Defined.

Lemma listing_failure_aborts_witness :
  truthy (js "/elsewhere") = true
  /\ gotoIdle (js "/elsewhere") 7 = (7, Some tt)
  /\ scrapeDiscussionListFrom 3 (js "/elsewhere") 7
     = (inl tt, 7, [Goto (js "/elsewhere")]).
Proof.
  assert (T : truthy (js "/elsewhere") = true) by reflexivity.
  assert (G : gotoIdle (js "/elsewhere") 7 = (7, Some tt)) by reflexivity.
  split; [exact T|]. split; [exact G|].
  apply (proj1 (proj2 listing_failure_aborts) 2 (js "/elsewhere") 7 7 tt T G).
Defined.

End CrawlerTheorems.

(* ================================================================== *)
(** ** Detail extractor: what makes it throw *)
(* ================================================================== *)

Module DetailRunFacts.
Import Scraper Outcome EffFacts CrawlerFacts.

Section WithAccessor.
Local Open Scope scraper_scope.
Context {Page exn : Type} {accessor : Accessor Page exn}.
Local Abbreviation Eff := (M Page exn).

Lemma from_final_page_bind {A} (url : jsstring) (m : Eff A)
    (f : A -> Eff DiscussionDetail.t) (p : Page) :
  (forall a p1, from_final_page url (f a p1)) ->
  from_final_page url (bind m f p).
Proof.
  intros H full. unfold bind, value_of, page_of.
  destruct (m p) as [[[e|a] p1] t1]; cbn [fst snd]; [discriminate|].
  specialize (H a p1 full). unfold value_of, page_of in H.
  destruct (f a p1) as [[r p2] t2]. exact H.
Qed.

Lemma scrapeDiscussionDetail_final (url : jsstring) (p : Page) :
  from_final_page url (scrapeDiscussionDetail url p).
Proof.
  unfold scrapeDiscussionDetail.
  do 6 (apply from_final_page_bind; intros ? ?).
  match goal with
  | |- from_final_page _ (bind _ _ ?q) => generalize q
  end.
  intros q full. unfold bind, peek, throw, ret, value_of, page_of.
  cbn [fst snd].
  destruct (observe q) as [e|snap] eqn:O; cbn [fst snd]; [discriminate|].
  intros H. injection H as <-. now exists snap.
Qed.

End WithAccessor.
End DetailRunFacts.

Module DetailRunTheorems.
Import Scraper Outcome EffFacts DetailRunFacts.

Section WithAccessor.
Local Open Scope scraper_scope.
Context {Page exn : Type} {accessor : Accessor Page exn}.

(** X15. The detail extractor navigates to the given URL once and nowhere
    else.  A refused navigation, and a wait for the article that times
    out, throw at once: nothing is expanded, scrolled or read.  The
    record of a run that returns is built from what the page shows at
    the end of the run. *)
Theorem detail_extractor_failures (url : jsstring) (p : Page) :
  visited (trace_of (scrapeDiscussionDetail url p)) = [url]
  /\ (forall p1 e,
        goto url p = (p1, Some e) ->
        scrapeDiscussionDetail url p = (inl e, p1, [Goto url]))
  /\ (forall p1 p2 e,
        goto url p = (p1, None) ->
        waitFor (sleep (Random 1000%N 2000%N) p1) = (p2, Some e) ->
        scrapeDiscussionDetail url p
        = (inl e, p2,
           [Goto url; Delay (Random 1000%N 2000%N); WaitForSelector]))
  /\ (forall full,
        value_of (scrapeDiscussionDetail url p) = inr full ->
        exists snap,
          observe (page_of (scrapeDiscussionDetail url p)) = inr snap
          /\ full = Detail.build url snap).
Proof.
  split; [|split; [|split]].
  - apply (DriverFacts.scrapeDiscussionDetail_trace url p).
  - intros p1 e G. unfold scrapeDiscussionDetail.
    unfold bind at 1. unfold attempt. now rewrite G.
  - intros p1 p2 e G W. unfold scrapeDiscussionDetail.
    unfold bind at 1. unfold attempt at 1. rewrite G.
    unfold bind at 1. unfold delay, act at 1. unfold bind at 1.
    unfold attempt. now rewrite W.
  - apply scrapeDiscussionDetail_final.
Qed.

End WithAccessor.

Lemma detail_extractor_failures_witness :
  goto (Accessor := Sample.folded) (js "/gone") 3 = (0, Some tt)
  /\ scrapeDiscussionDetail (accessor := Sample.folded) (js "/gone") 3
     = (inl tt, 0, [Goto (js "/gone")]).
Proof.
  assert (G : goto (Accessor := Sample.folded) (js "/gone") 3 = (0, Some tt))
    by reflexivity.
  split; [exact G|].
  apply (proj1 (proj2 (detail_extractor_failures (accessor := Sample.folded)
                         (js "/gone") 3)) 0 tt G).
Defined.

End DetailRunTheorems.

(* ================================================================== *)
(** ** Facts on the proxy configuration *)
(* ================================================================== *)

Module ProxyFacts.
Import Proxy.

Lemma split_on_last (sep : ascii) (a : jsstring) :
  forall cur,
    forallb (fun x => negb (Ascii.eqb x sep)) a = true ->
    split_on sep a cur = [rev cur ++ a].
Proof.
  induction a as [|x a IH]; intros cur H; cbn [split_on].
  - now rewrite app_nil_r.
  - cbn [forallb] in H. apply andb_true_iff in H. destruct H as [Hx Ha].
    apply negb_true_iff in Hx. rewrite Hx, IH by exact Ha.
    cbn [rev]. now rewrite <- app_assoc.
Qed.

Lemma split_on_piece (sep : ascii) (a rest : jsstring) :
  forall cur,
    forallb (fun x => negb (Ascii.eqb x sep)) a = true ->
    split_on sep (a ++ sep :: rest) cur
    = (rev cur ++ a) :: split_on sep rest [].
Proof.
  induction a as [|x a IH]; intros cur H; cbn [app split_on].
  - now rewrite Ascii.eqb_refl, app_nil_r.
  - cbn [forallb] in H. apply andb_true_iff in H. destruct H as [Hx Ha].
    apply negb_true_iff in Hx. rewrite Hx, IH by exact Ha.
    cbn [rev]. now rewrite <- app_assoc.
Qed.

Lemma startsWith_app (p s : jsstring) : startsWith p (p ++ s) = true.
Proof.
  induction p as [|x p IH]; [reflexivity|]. cbn [app startsWith].
  now rewrite Ascii.eqb_refl.
Qed.

Lemma find_skip (A : Type) (f : A -> bool) (pre : list A) (x : A)
    (rest : list A) :
  forallb (fun a => negb (f a)) pre = true -> f x = true ->
  find f (pre ++ x :: rest) = Some x.
Proof.
  intros Hpre Hx. induction pre as [|a pre IH]; cbn [app find].
  - now rewrite Hx.
  - cbn [forallb] in Hpre. apply andb_true_iff in Hpre.
    destruct Hpre as [Ha Hpre]. apply negb_true_iff in Ha.
    rewrite Ha. now apply IH.
Qed.

Lemma find_none_all (A : Type) (f : A -> bool) (l : list A) :
  forallb (fun a => negb (f a)) l = true -> find f l = None.
Proof.
  induction l as [|a l IH]; [reflexivity|]. cbn [forallb find].
  intros H. apply andb_true_iff in H. destruct H as [Ha Hl].
  apply negb_true_iff in Ha. rewrite Ha. now apply IH.
Qed.

End ProxyFacts.

Module ProxyTheorems.
Import RegexDefs Proxy ProxyFacts.

Lemma proxyString_argument (env : option jsstring)
    (pre : list jsstring) (v tail : jsstring) (rest : list jsstring) :
  env = None \/ env = Some [] ->
  forallb (fun a => negb (startsWith proxyFlag a)) pre = true ->
  forallb (fun x => negb (Ascii.eqb x "=")) v = true ->
  stops (fun x => negb (Ascii.eqb x "=")) tail = true ->
  proxyString env (pre ++ (proxyFlag ++ v ++ tail) :: rest) = Some v.
Proof.
  intros He Hpre Hv Ht.
  assert (E : proxyString env (pre ++ (proxyFlag ++ v ++ tail) :: rest)
              = proxyArg (pre ++ (proxyFlag ++ v ++ tail) :: rest))
    by (destruct He as [->| ->]; reflexivity).
  rewrite E. unfold proxyArg.
  rewrite find_skip; [|exact Hpre|apply startsWith_app].
  unfold splitOn, proxyFlag.
  change (js "--proxy=" ++ v ++ tail)
    with (js "--proxy" ++ "="%char :: v ++ tail).
  rewrite split_on_piece by reflexivity.
  destruct tail as [|x tail].
  - rewrite app_nil_r, split_on_last by exact Hv. reflexivity.
  - cbn [stops] in Ht. rewrite negb_involutive in Ht.
    apply Ascii.eqb_eq in Ht. subst x.
    rewrite split_on_piece by exact Hv. reflexivity.
Qed.

(** X16. A non-empty PROXY_URL wins over the command line.  With
    PROXY_URL unset or empty the proxy is read from the first [--proxy=]
    argument and is the text between its first and its second [=], so
    that a proxy URL holding a [=] is cut there: the configuration is
    built from that text when [new URL] accepts it, a text that it
    refuses gives no configuration and one warning, and an empty text
    gives no configuration and no warning; without such an argument there
    is no configuration and no warning.  The same holds of a non-empty
    PROXY_URL, whatever the arguments. *)
Theorem proxy_from_arguments :
  (forall env argv, truthy env = true -> proxyString (Some env) argv = Some env)
  /\ (forall env pre v tail rest,
        env = None \/ env = Some [] ->
        forallb (fun a => negb (startsWith proxyFlag a)) pre = true ->
        forallb (fun x => negb (Ascii.eqb x "=")) v = true ->
        stops (fun x => negb (Ascii.eqb x "=")) tail = true ->
        proxyString env (pre ++ (proxyFlag ++ v ++ tail) :: rest) = Some v)
  /\ (forall parseURL env pre v tail rest,
        env = None \/ env = Some [] ->
        forallb (fun a => negb (startsWith proxyFlag a)) pre = true ->
        forallb (fun x => negb (Ascii.eqb x "=")) v = true ->
        stops (fun x => negb (Ascii.eqb x "=")) tail = true ->
        getProxyConfig parseURL env (pre ++ (proxyFlag ++ v ++ tail) :: rest)
        = if truthy v then
            match parseURL v with
            | Some url => (Some (configOf url), [])
            | None => (None, [v])
            end
          else (None, []))
  /\ (forall parseURL env argv,
        env = None \/ env = Some [] ->
        forallb (fun a => negb (startsWith proxyFlag a)) argv = true ->
        getProxyConfig parseURL env argv = (None, []))
  /\ (forall parseURL env argv,
        truthy env = true ->
        getProxyConfig parseURL (Some env) argv
        = match parseURL env with
          | Some url => (Some (configOf url), [])
          | None => (None, [env])
          end).
Proof.
  split; [|split; [|split; [|split]]].
  - intros env argv H. unfold proxyString. now rewrite H.
  - intros env pre v tail rest. apply proxyString_argument.
  - intros parseURL env pre v tail rest He Hpre Hv Ht.
    unfold getProxyConfig.
    rewrite proxyString_argument by assumption.
    now destruct (truthy v).
  - intros parseURL env argv He H. unfold getProxyConfig.
    assert (E : proxyString env argv = proxyArg argv)
      by (destruct He as [->| ->]; reflexivity).
    rewrite E. unfold proxyArg. now rewrite find_none_all.
  - intros parseURL env argv H. unfold getProxyConfig, proxyString.
    rewrite H. cbv beta iota. rewrite H. reflexivity.
Qed.

Lemma proxy_from_arguments_witness :
  proxyString None
    [ js "node"; js "scrape.ts";
      js "--proxy=http://proxy.example:8080/?session=abc"; js "--proxy=other" ]
  = Some (js "http://proxy.example:8080/?session")
  /\ getProxyConfig (fun _ => None) (Some [])
       [ js "node"; js "scrape.ts"; js "--proxy=proxy.example:8080" ]
     = (None, [js "proxy.example:8080"])
  /\ getProxyConfig (fun _ => None) None [ js "node"; js "--proxy=" ]
     = (None, [])
  /\ getProxyConfig (fun _ => None) None [ js "node"; js "scrape.ts" ]
     = (None, []).
Proof.
  destruct proxy_from_arguments as (_ & C2 & C3 & C4 & _).
  split; [|split; [|split]].
  - apply (C2 None [js "node"; js "scrape.ts"]
             (js "http://proxy.example:8080/?session")
             (js "=abc") [js "--proxy=other"]); try reflexivity. now left.
  - apply (C3 (fun _ => None) (Some []) [js "node"; js "scrape.ts"]
             (js "proxy.example:8080") [] []); try reflexivity. now right.
  - apply (C3 (fun _ => None) None [js "node"] [] [] []); try reflexivity.
    now left.
  - apply (C4 (fun _ => None) None [js "node"; js "scrape.ts"]);
      try reflexivity. now left.
Defined.

End ProxyTheorems.

(* ================================================================== *)
(** ** Facts on the user agents *)
(* ================================================================== *)

Module AgentFacts.
Import Numbers NumberFacts Agent.
Local Open Scope N_scope.

(** Rounding moves a number up by half a unit in the last place at
    most. *)
Lemma round53_upper (n v : N) :
  2 ^ 53 <= n -> round53 n = Some v ->
  v <= n + 2 ^ (N.log2 n - 52 - 1).
Proof.
  intros Hn. unfold round53.
  assert (F : (n <? 2 ^ 53) = false) by now apply N.ltb_ge.
  rewrite F. cbv zeta.
  assert (L : 53 <= N.log2 n).
  { rewrite <- (N.log2_pow2 53) by lia. now apply N.log2_le_mono. }
  set (e := N.log2 n - 52).
  assert (He : e = N.succ (e - 1)) by (unfold e; lia).
  assert (P : 2 ^ e = 2 * 2 ^ (e - 1)).
  { rewrite He at 1. now rewrite N.pow_succ_r'. }
  rewrite !N.shiftl_mul_pow2, N.shiftr_div_pow2, N.mul_1_l.
  set (H := 2 ^ (e - 1)) in *.
  assert (Hpos : 0 < H) by (unfold H; apply N.neq_0_lt_0, N.pow_nonzero; lia).
  pose proof (N.div_mod n (2 ^ e)) as D.
  pose proof (N.mod_lt n (2 ^ e)) as M.
  rewrite P in *.
  clearbody H. clear He L. clearbody e.
  assert (Nz : 2 * H <> 0) by lia.
  specialize (D Nz). specialize (M Nz).
  set (q := n / (2 * H)) in *. set (r := n mod (2 * H)) in *.
  clearbody q r.
  assert (R : n - q * (2 * H) = r).
  { rewrite (N.mul_comm q). rewrite D at 1. now rewrite N.add_comm, N.add_sub. }
  rewrite R. clear P F Hn R.
  destruct (r <? H) eqn:C1; [|destruct (H <? r) eqn:C2; [|destruct (N.even q)]];
    intros V;
    match type of V with
    | (if ?b then _ else _) = _ => destruct b; [|discriminate]
    end;
    injection V as <-;
    try apply N.ltb_lt in C1; try apply N.ltb_ge in C1;
    try apply N.ltb_lt in C2; try apply N.ltb_ge in C2;
    change (match H with 0 => 0 | N.pos q0 => N.pos q0~0 end) with (2 * H);
    nia.
Qed.

Lemma floorTimes_below (r : fraction) :
  proper r = true -> floorTimes r 5 < 5.
Proof.
  unfold proper. rewrite !andb_true_iff, !N.ltb_lt. intros [[H1 H2] _].
  unfold floorTimes.
  destruct (round53 (mantissa r * 5)) as [v|] eqn:E; [|lia].
  apply N.Div0.div_lt_upper_bound.
  destruct (N.lt_ge_cases (mantissa r * 5) (2 ^ 53)) as [S|B].
  - rewrite round53_small in E by exact S. injection E as <-. lia.
  - pose proof (round53_upper B E) as U.
    assert (L : N.log2 (mantissa r * 5) <= 55).
    { apply N.lt_succ_r. apply N.log2_lt_pow2; [lia|].
      change (N.succ 55) with 56. change (2 ^ 56) with (8 * 2 ^ 53). lia. }
    assert (K : 2 ^ (N.log2 (mantissa r * 5) - 52 - 1) <= 2 ^ 2).
    { apply N.pow_le_mono_r; lia. }
    change (2 ^ 2) with 4 in K. lia.
Qed.

End AgentFacts.

Module AgentTheorems.
Import Numbers Agent AgentFacts.

(** X17. Whatever double below one [Math.random()] returns, the index
    stays below five after the rounding of the product, and the user
    agent is one of the five of the list, never [undefined]. *)
Theorem user_agent_defined (random : fraction) :
  proper random = true ->
  exists agent,
    getRandomUserAgent random = Some agent /\ In agent userAgents.
Proof.
  intros H. unfold getRandomUserAgent.
  change (N.of_nat (length userAgents)) with 5%N.
  pose proof (floorTimes_below random H) as B.
  destruct (nth_error userAgents (N.to_nat (floorTimes random 5)))
    as [agent|] eqn:E.
  - exists agent. split; [reflexivity|]. now apply nth_error_In in E.
  - apply nth_error_None in E. change (length userAgents) with 5%nat in E.
    lia.
Qed.

Lemma user_agent_defined_witness :
  proper (mkFraction (2 ^ 53 - 1) 53) = true
  /\ exists agent,
       getRandomUserAgent (mkFraction (2 ^ 53 - 1) 53) = Some agent
       /\ In agent userAgents.
Proof.
  assert (H : proper (mkFraction (2 ^ 53 - 1) 53) = true)
    by (vm_compute; reflexivity).
  split; [exact H|].
  apply (user_agent_defined (mkFraction (2 ^ 53 - 1) 53) H).
Defined.

End AgentTheorems.
